(** * BusTub storage and concurrency core: a shallow embedding

    The development follows the C++ sources of the buffer pool
    (lru_replacer.cpp, buffer_pool_manager_instance.cpp,
    parallel_buffer_pool_manager.cpp), of the extendible hash index
    (hash_table_bucket_page.cpp, extendible_hash_table.cpp) and of the lock
    manager (lock_manager.cpp).  Part I holds the embedding, one module per
    translation unit; Part II holds the lemmas. *)

From Stdlib Require Import ZArith Lia Bool.
From stdpp Require Import base option list gmap.

Local Open Scope Z_scope.

(** * Part I: the embedding *)

(** ** hash_table_bucket_page.cpp *)

Module HashTableBucketPage.

(** Modelled from the spec: the [occupied] and [readable] bitmaps hold one
    bit per slot, packed into [char]s of eight bits; the constant is declared
    in the page header, which is not among the sources. *)
Definition CHAR_BIT_SIZE : nat := 8.

(** [arr[char_pos]] for a [char] array kept as bytes in [0, 256); the bit
    operations below read and write the low eight bits, which do not depend
    on the signedness of [char]. *)
Definition char_at (arr : list Z) (char_pos : nat) : Z :=
  default 0 (arr !! char_pos).

(** [((arr[char_pos] >> bit_pos) & 1) == 1] with
    [(char_pos, bit_pos) = std::div(bucket_idx, CHAR_BIT_SIZE)]. *)
Definition bit_is_set (arr : list Z) (bucket_idx : nat) : bool :=
  let char_pos := (bucket_idx / CHAR_BIT_SIZE)%nat in
  let bit_pos := (bucket_idx mod CHAR_BIT_SIZE)%nat in
  Z.land (Z.shiftr (char_at arr char_pos) (Z.of_nat bit_pos)) 1 =? 1.

(** [arr[char_pos] |= (1U << bit_pos)], stored back into a [char]. *)
Definition bit_set (arr : list Z) (bucket_idx : nat) : list Z :=
  let char_pos := (bucket_idx / CHAR_BIT_SIZE)%nat in
  let bit_pos := (bucket_idx mod CHAR_BIT_SIZE)%nat in
  <[char_pos := (Z.lor (char_at arr char_pos) (Z.shiftl 1 (Z.of_nat bit_pos))) mod 256]> arr.

(** [arr[char_pos] &= ~(1U << bit_pos)], stored back into a [char]. *)
Definition bit_clear (arr : list Z) (bucket_idx : nat) : list Z :=
  let char_pos := (bucket_idx / CHAR_BIT_SIZE)%nat in
  let bit_pos := (bucket_idx mod CHAR_BIT_SIZE)%nat in
  <[char_pos := (Z.land (char_at arr char_pos)
                        (Z.lxor (2 ^ 32 - 1) (Z.shiftl 1 (Z.of_nat bit_pos)))) mod 256]> arr.

Section Bucket.
Context {K V : Type}.
(** [BUCKET_ARRAY_SIZE], a constant of the page header that depends on the
    key and value types. *)
Variable BUCKET_ARRAY_SIZE : nat.
(** [KeyComparator]: zero means equal keys. *)
Variable cmp : K -> K -> Z.
(** [ValueType::operator==]. *)
Variable value_eq : V -> V -> bool.
(** [MappingType()] and the slot left by [memset(array_, 0, ...)]. *)
Variable default_mapping zeroed_mapping : K * V.

Record bucket : Type := mkBucket {
  occupied_ : list Z;
  readable_ : list Z;
  array_ : list (K * V)
}.

(** Length of each bitmap: [(BUCKET_ARRAY_SIZE - 1) / 8 + 1] chars. *)
Definition bitmap_size : nat := ((BUCKET_ARRAY_SIZE - 1) / 8 + 1)%nat.

(** A freshly zeroed page reinterpreted as a bucket. *)
Definition zero_page : bucket :=
  mkBucket (replicate bitmap_size 0) (replicate bitmap_size 0)
           (replicate BUCKET_ARRAY_SIZE zeroed_mapping).

Definition slot (b : bucket) (bucket_idx : nat) : K * V :=
  default zeroed_mapping (array_ b !! bucket_idx).

Definition KeyAt (b : bucket) (bucket_idx : nat) : K := fst (slot b bucket_idx).
Definition ValueAt (b : bucket) (bucket_idx : nat) : V := snd (slot b bucket_idx).

Definition IsOccupied (b : bucket) (bucket_idx : nat) : bool :=
  bit_is_set (occupied_ b) bucket_idx.
Definition IsReadable (b : bucket) (bucket_idx : nat) : bool :=
  bit_is_set (readable_ b) bucket_idx.
Definition SetOccupied (b : bucket) (bucket_idx : nat) : bucket :=
  mkBucket (bit_set (occupied_ b) bucket_idx) (readable_ b) (array_ b).
Definition SetReadable (b : bucket) (bucket_idx : nat) : bucket :=
  mkBucket (occupied_ b) (bit_set (readable_ b) bucket_idx) (array_ b).
Definition RemoveAt (b : bucket) (bucket_idx : nat) : bucket :=
  mkBucket (occupied_ b) (bit_clear (readable_ b) bucket_idx) (array_ b).
Definition set_slot (b : bucket) (bucket_idx : nat) (m : K * V) : bucket :=
  mkBucket (occupied_ b) (readable_ b) (<[bucket_idx := m]> (array_ b)).

(** [cmp(array_[i].first, key) == 0]. *)
Definition key_matches (b : bucket) (i : nat) (key : K) : bool :=
  cmp (KeyAt b i) key =? 0.
(** [cmp(array_[i].first, key) == 0 && array_[i].second == value]. *)
Definition pair_matches (b : bucket) (i : nat) (key : K) (value : V) : bool :=
  key_matches b i key && value_eq (ValueAt b i) value.

(** [std::vector::empty()]. *)
Definition empty_vector {A : Type} (v : list A) : bool :=
  match v with [] => true | _ => false end.

(** The [for] loops run [bucket_idx] from its current value while
    [bucket_idx < BUCKET_ARRAY_SIZE]; [n] counts the iterations left. *)

Fixpoint GetValue_loop (b : bucket) (key : K) (n bucket_idx : nat)
         (result : list V) : list V :=
  match n with
  | O => result
  | S n' =>
      if negb (IsOccupied b bucket_idx) then result
      else GetValue_loop b key n' (S bucket_idx)
             (if IsReadable b bucket_idx && key_matches b bucket_idx key
              then result ++ [ValueAt b bucket_idx] else result)
  end.

(** [GetValue]: the vector after the call and the returned flag
    [!result->empty()]. *)
Definition GetValue (b : bucket) (key : K) (result : list V) : list V * bool :=
  let result' := GetValue_loop b key BUCKET_ARRAY_SIZE 0 result in
  (result', negb (empty_vector result')).

(** The scan of [Insert]: [None] is the early [return false] on a
    duplicate pair; [Some free_slot] is the value of [free_slot] when the
    loop ends, with [None] for the sentinel [-1]. *)
Fixpoint Insert_loop (b : bucket) (key : K) (value : V) (n i : nat)
         (free_slot : option nat) : option (option nat) :=
  match n with
  | O => Some free_slot
  | S n' =>
      if IsReadable b i then
        if pair_matches b i key value then None
        else Insert_loop b key value n' (S i) free_slot
      else
        Insert_loop b key value n' (S i)
          (match free_slot with None => Some i | Some _ => free_slot end)
  end.

Definition Insert (b : bucket) (key : K) (value : V) : bucket * bool :=
  match Insert_loop b key value BUCKET_ARRAY_SIZE 0 None with
  | None => (b, false)
  | Some None => (b, false)
  | Some (Some free_slot) =>
      (SetReadable (SetOccupied (set_slot b free_slot (key, value)) free_slot) free_slot,
       true)
  end.

Fixpoint Remove_loop (b : bucket) (key : K) (value : V) (n bucket_idx : nat)
  : bucket * bool :=
  match n with
  | O => (b, false)
  | S n' =>
      if negb (IsOccupied b bucket_idx) then (b, false)
      else if IsReadable b bucket_idx && IsOccupied b bucket_idx
              && pair_matches b bucket_idx key value
           then (RemoveAt (set_slot b bucket_idx default_mapping) bucket_idx, true)
           else Remove_loop b key value n' (S bucket_idx)
  end.

Definition Remove (b : bucket) (key : K) (value : V) : bucket * bool :=
  Remove_loop b key value BUCKET_ARRAY_SIZE 0.

(** [while (v) { v &= (v - 1); counter++; }] on one bitmap char: each round
    clears the lowest set bit, and a char has eight bits, so eight rounds
    suffice. *)
Fixpoint count_bits (rounds : nat) (v : Z) (counter : Z) : Z :=
  match rounds with
  | O => counter
  | S r => if v =? 0 then counter
           else count_bits r (Z.land v (v - 1)) (counter + 1)
  end.

Definition NumReadable (b : bucket) : Z :=
  fold_left (fun counter v => count_bits 8 v counter) (readable_ b) 0.

Definition IsFull (b : bucket) : bool := NumReadable b =? Z.of_nat BUCKET_ARRAY_SIZE.
Definition IsEmpty (b : bucket) : bool := NumReadable b =? 0.

Fixpoint CopyMappings_loop (b : bucket) (n bucket_idx : nat)
         (result : list (K * V)) : list (K * V) :=
  match n with
  | O => result
  | S n' =>
      if negb (IsOccupied b bucket_idx) then result
      else CopyMappings_loop b n' (S bucket_idx)
             (if IsReadable b bucket_idx then result ++ [slot b bucket_idx] else result)
  end.

(** The three [memset]s clear the whole of each array, which leaves the
    page as [zero_page]. *)
Definition CopyMappingsAndResetPage (b : bucket) (result : list (K * V))
  : bucket * list (K * V) :=
  (zero_page, CopyMappings_loop b BUCKET_ARRAY_SIZE 0 result).

Fixpoint IsRepeat_loop (b : bucket) (key : K) (value : V) (n bucket_idx : nat) : bool :=
  match n with
  | O => false
  | S n' =>
      if negb (IsOccupied b bucket_idx) then false
      else if IsReadable b bucket_idx && pair_matches b bucket_idx key value then true
           else IsRepeat_loop b key value n' (S bucket_idx)
  end.

Definition IsRepeat (b : bucket) (key : K) (value : V) : bool :=
  IsRepeat_loop b key value BUCKET_ARRAY_SIZE 0.

(** The sizes of the three arrays of a bucket page. *)
Definition well_sized (b : bucket) : Prop :=
  length (occupied_ b) = bitmap_size /\ length (readable_ b) = bitmap_size
  /\ length (array_ b) = BUCKET_ARRAY_SIZE.

(** The occupied bits are exactly those of the first [n] slots. *)
Definition occupied_prefix (b : bucket) (n : nat) : Prop :=
  (n <= BUCKET_ARRAY_SIZE)%nat /\
  forall i : nat, (i < BUCKET_ARRAY_SIZE)%nat -> (IsOccupied b i = true <-> (i < n)%nat).

(** Sizes, a contiguous occupied prefix, and readable slots inside it. *)
Definition bucket_inv (b : bucket) : Prop :=
  well_sized b
  /\ (exists p, occupied_prefix b p)
  /\ (forall i : nat, (i < BUCKET_ARRAY_SIZE)%nat ->
                      IsReadable b i = true -> IsOccupied b i = true).

(** What a scan over all of [array_] that never looks at the occupied
    bitmap collects: the values stored under [key], the live mappings. *)
Definition value_if_match (b : bucket) (key : K) (i : nat) : list V :=
  if IsReadable b i && key_matches b i key then [ValueAt b i] else [].
Definition readable_values (b : bucket) (key : K) : list V :=
  flat_map (value_if_match b key) (seq 0 BUCKET_ARRAY_SIZE).
Definition mapping_if_readable (b : bucket) (i : nat) : list (K * V) :=
  if IsReadable b i then [slot b i] else [].
Definition readable_mappings (b : bucket) : list (K * V) :=
  flat_map (mapping_if_readable b) (seq 0 BUCKET_ARRAY_SIZE).
Definition readable_pair (b : bucket) (key : K) (value : V) : bool :=
  existsb (fun i => IsReadable b i && pair_matches b i key value)
          (seq 0 BUCKET_ARRAY_SIZE).

(** The slots before the first slot whose occupied bit is clear. *)
Fixpoint occupied_run (b : bucket) (n i : nat) : list nat :=
  match n with
  | O => []
  | S n' => if IsOccupied b i then i :: occupied_run b n' (S i) else []
  end.

(** Bucket pages as the index produces them: a zeroed page, then any
    sequence of [Insert], [Remove] and [CopyMappingsAndResetPage]. *)
Inductive reachable : bucket -> Prop :=
| reachable_zero : reachable zero_page
| reachable_Insert b key value :
    reachable b -> reachable (Insert b key value).1
| reachable_Remove b key value :
    reachable b -> reachable (Remove b key value).1
| reachable_Copy b result :
    reachable b -> reachable (CopyMappingsAndResetPage b result).1.

End Bucket.

Arguments bucket : clear implicits.
Arguments mkBucket {K V} _ _ _.

(** Exposes the fields of a page rebuilt by the setters. *)
Ltac bucket_fields :=
  unfold SetReadable, SetOccupied, RemoveAt, set_slot;
  cbn [occupied_ readable_ array_].

End HashTableBucketPage.

(** ** lru_replacer.cpp *)

Module LRUReplacer.

(** [frame_id_list_] in eviction order (front first) and the keys of
    [location_map_]; the iterator stored under a key points at that frame's
    node of the list. *)
Record t : Type := mk {
  frame_id_list_ : list nat;
  location_map_ : gset nat
}.

Definition init : t := mk [] ∅.

(** [std::list::erase] of the node holding [frame_id]. *)
Fixpoint erase_node (frame_id : nat) (l : list nat) : list nat :=
  match l with
  | [] => []
  | f :: l' => if Nat.eqb f frame_id then l' else f :: erase_node frame_id l'
  end.

Definition Victim (r : t) : t * option nat :=
  match frame_id_list_ r with
  | [] => (r, None)
  | frame_id :: rest => (mk rest (location_map_ r ∖ {[frame_id]}), Some frame_id)
  end.

Definition Pin (r : t) (frame_id : nat) : t :=
  match frame_id_list_ r with
  | [] => r
  | _ :: _ =>
      if decide (frame_id ∈ location_map_ r)
      then mk (erase_node frame_id (frame_id_list_ r)) (location_map_ r ∖ {[frame_id]})
      else r
  end.

Definition Unpin (r : t) (frame_id : nat) : t :=
  if existsb (Nat.eqb frame_id) (frame_id_list_ r) then r
  else mk (frame_id_list_ r ++ [frame_id]) ({[frame_id]} ∪ location_map_ r).

Definition Size (r : t) : nat := length (frame_id_list_ r).

End LRUReplacer.

(** ** buffer_pool_manager_instance.cpp *)

Module BufferPoolManagerInstance.

(** Modelled from the spec: [INVALID_PAGE_ID] is a reserved sentinel of the
    32-bit signed page identifiers, and a page is a fixed-size byte buffer,
    conventionally of 4096 bytes; both constants are declared in a header
    that is not among the sources. *)
Definition INVALID_PAGE_ID : Z := -1.
Definition PAGE_SIZE : nat := 4096.

(** The bytes [memset] leaves in [data_]. *)
Definition zeroed_data : list Z := replicate PAGE_SIZE 0.

(** Modelled from the spec: a page is its byte buffer plus the metadata
    [page_id], [pin_count] and [is_dirty]; the class is declared in a header
    that is not among the sources.  [ResetMemory] zeroes the buffer. *)
Record Page : Type := mkPage {
  data_ : list Z;
  page_id_ : Z;
  pin_count_ : Z;
  is_dirty_ : bool
}.

(** A default-constructed [Page]. *)
Definition new_Page : Page := mkPage zeroed_data INVALID_PAGE_ID 0 false.

(** Modelled from the spec: the disk manager, an external collaborator with
    synchronous, byte-accurate [ReadPage] and [WritePage], shared by the
    instances of a pool.  It is kept as the bytes last written under each
    page identifier; a page never written reads as zeroes. *)
Definition WritePage (d : gmap Z (list Z)) (page_id : Z) (data : list Z) : gmap Z (list Z) :=
  <[page_id := data]> d.
Definition ReadPage (d : gmap Z (list Z)) (page_id : Z) : list Z :=
  default zeroed_data (d !! page_id).

Record t : Type := mk {
  pool_size_ : nat;
  num_instances_ : Z;
  instance_index_ : Z;
  next_page_id_ : Z;
  pages_ : list Page;
  replacer_ : LRUReplacer.t;
  free_list_ : list nat;
  page_table_ : gmap Z nat
}.

(** The constructor: every frame starts in the free list, in index order.
    Identifiers are allocated far below [2 ^ 31], so [next_page_id_] is kept
    without wrap-around. *)
Definition init (pool_size : nat) (num_instances instance_index : Z) : t :=
  mk pool_size num_instances instance_index instance_index
     (replicate pool_size new_Page) LRUReplacer.init (seq 0 pool_size) ∅.

Definition page_at (s : t) (frame_id : nat) : Page :=
  default new_Page (pages_ s !! frame_id).

Definition set_page (s : t) (frame_id : nat) (p : Page) : t :=
  mk (pool_size_ s) (num_instances_ s) (instance_index_ s) (next_page_id_ s)
     (<[frame_id := p]> (pages_ s)) (replacer_ s) (free_list_ s) (page_table_ s).
Definition set_replacer (s : t) (r : LRUReplacer.t) : t :=
  mk (pool_size_ s) (num_instances_ s) (instance_index_ s) (next_page_id_ s)
     (pages_ s) r (free_list_ s) (page_table_ s).
Definition set_free_list (s : t) (l : list nat) : t :=
  mk (pool_size_ s) (num_instances_ s) (instance_index_ s) (next_page_id_ s)
     (pages_ s) (replacer_ s) l (page_table_ s).
Definition set_page_table (s : t) (m : gmap Z nat) : t :=
  mk (pool_size_ s) (num_instances_ s) (instance_index_ s) (next_page_id_ s)
     (pages_ s) (replacer_ s) (free_list_ s) m.

(** [std::unordered_map::insert]: an existing key keeps its value. *)
Definition table_insert (m : gmap Z nat) (page_id : Z) (frame_id : nat) : gmap Z nat :=
  match m !! page_id with
  | Some _ => m
  | None => <[page_id := frame_id]> m
  end.

(** [ValidatePageId] asserts [page_id % num_instances_ == instance_index_]. *)
Definition ValidatePageId (s : t) (page_id : Z) : bool :=
  (page_id mod 2 ^ 32) mod num_instances_ s =? instance_index_ s.

Definition AllocatePage (s : t) : t * Z :=
  let next_page_id := next_page_id_ s in
  (mk (pool_size_ s) (num_instances_ s) (instance_index_ s)
      (next_page_id_ s + num_instances_ s)
      (pages_ s) (replacer_ s) (free_list_ s) (page_table_ s),
   next_page_id).

(** A frame from the back of the free list or, when that is empty, the
    replacer's victim. *)
Definition pick_frame (s : t) : option (t * nat) :=
  match last (free_list_ s) with
  | Some frame_id => Some (set_free_list s (removelast (free_list_ s)), frame_id)
  | None =>
      match LRUReplacer.Victim (replacer_ s) with
      | (r, Some frame_id) => Some (set_replacer s r, frame_id)
      | (_, None) => None
      end
  end.

(** [if (page->is_dirty_) { WritePage(...); page->is_dirty_ = false; }] *)
Definition write_back (d : gmap Z (list Z)) (s : t) (frame_id : nat) : gmap Z (list Z) * t :=
  let page := page_at s frame_id in
  if is_dirty_ page
  then (WritePage d (page_id_ page) (data_ page),
        set_page s frame_id (mkPage (data_ page) (page_id_ page) (pin_count_ page) false))
  else (d, s).

Definition no_frame_left (s : t) : bool :=
  match free_list_ s with [] => Nat.eqb (LRUReplacer.Size (replacer_ s)) 0 | _ => false end.

(** Results carry the disk, the instance and the returned value; a [Page*]
    is the frame it points at, [None] for [nullptr]. *)
Definition NewPgImp (d : gmap Z (list Z)) (s : t)
  : gmap Z (list Z) * t * option (Z * nat) :=
  if no_frame_left s then (d, s, None)
  else
    let '(s, page_id) := AllocatePage s in
    match pick_frame s with
    | None => (d, s, None)
    | Some (s, frame_id) =>
        let '(d, s) := write_back d s frame_id in
        let page := page_at s frame_id in
        let s := set_page_table s (delete (page_id_ page) (page_table_ s)) in
        let d := WritePage d page_id zeroed_data in
        let s := set_page s frame_id (mkPage zeroed_data page_id 1 (is_dirty_ page)) in
        let s := set_replacer s (LRUReplacer.Pin (replacer_ s) frame_id) in
        let s := set_page_table s (table_insert (page_table_ s) page_id frame_id) in
        (d, s, Some (page_id, frame_id))
    end.

Definition FetchPgImp (d : gmap Z (list Z)) (s : t) (page_id : Z)
  : gmap Z (list Z) * t * option nat :=
  match page_table_ s !! page_id with
  | Some frame_id =>
      let s := set_replacer s (LRUReplacer.Pin (replacer_ s) frame_id) in
      let page := page_at s frame_id in
      (d, set_page s frame_id
            (mkPage (data_ page) (page_id_ page) (pin_count_ page + 1) (is_dirty_ page)),
       Some frame_id)
  | None =>
      if no_frame_left s then (d, s, None)
      else
        match pick_frame s with
        | None => (d, s, None)
        | Some (s, frame_id) =>
            let '(d, s) := write_back d s frame_id in
            let page := page_at s frame_id in
            let s := set_page_table s (table_insert (page_table_ s) page_id frame_id) in
            let s := set_page_table s (delete (page_id_ page) (page_table_ s)) in
            let s := set_page s frame_id
                       (mkPage (ReadPage d page_id) page_id (pin_count_ page + 1)
                               (is_dirty_ page)) in
            let s := set_replacer s (LRUReplacer.Pin (replacer_ s) frame_id) in
            (d, s, Some frame_id)
        end
  end.

Definition DeletePgImp (s : t) (page_id : Z) : t * bool :=
  match page_table_ s !! page_id with
  | None => (s, true)
  | Some frame_id =>
      let page := page_at s frame_id in
      if negb (pin_count_ page =? 0) then (s, false)
      else
        let s := set_page_table s (delete page_id (page_table_ s)) in
        let s := set_page s frame_id
                   (mkPage zeroed_data INVALID_PAGE_ID (pin_count_ page) false) in
        let s := set_free_list s (free_list_ s ++ [frame_id]) in
        (s, true)
  end.

Definition UnpinPgImp (s : t) (page_id : Z) (is_dirty : bool) : t * bool :=
  match page_table_ s !! page_id with
  | None => (s, false)
  | Some frame_id =>
      let page := page_at s frame_id in
      let s := if is_dirty
               then set_page s frame_id
                      (mkPage (data_ page) (page_id_ page) (pin_count_ page) is_dirty)
               else s in
      let page := page_at s frame_id in
      if pin_count_ page <=? 0 then (s, false)
      else
        let s := set_page s frame_id
                   (mkPage (data_ page) (page_id_ page) (pin_count_ page - 1)
                           (is_dirty_ page)) in
        let s := if pin_count_ (page_at s frame_id) =? 0
                 then set_replacer s (LRUReplacer.Unpin (replacer_ s) frame_id)
                 else s in
        (s, true)
  end.

Definition FlushPgImp (d : gmap Z (list Z)) (s : t) (page_id : Z)
  : gmap Z (list Z) * t * bool :=
  match page_table_ s !! page_id with
  | None => (d, s, false)
  | Some frame_id =>
      let page := page_at s frame_id in
      (WritePage d page_id (data_ page),
       set_page s frame_id (mkPage (data_ page) (page_id_ page) (pin_count_ page) false),
       true)
  end.

Definition FlushAllPgsImp (d : gmap Z (list Z)) (s : t) : gmap Z (list Z) * t :=
  fold_left
    (fun '(d, s) i =>
       let page := page_at s i in
       (WritePage d (page_id_ page) (data_ page),
        set_page s i (mkPage (data_ page) (page_id_ page) (pin_count_ page) false)))
    (seq 0 (pool_size_ s)) (d, s).

(** The three places a frame can be. *)
Definition in_free_list (s : t) (frame_id : nat) : bool :=
  existsb (Nat.eqb frame_id) (free_list_ s).
Definition is_pinned (s : t) (frame_id : nat) : bool :=
  0 <? pin_count_ (page_at s frame_id).
Definition in_replacer (s : t) (frame_id : nat) : bool :=
  existsb (Nat.eqb frame_id) (LRUReplacer.frame_id_list_ (replacer_ s)).

(** Exactly one of the three holds for the frame. *)
Definition exactly_one_place (s : t) (frame_id : nat) : bool :=
  match in_free_list s frame_id, is_pinned s frame_id, in_replacer s frame_id with
  | true, false, false | false, true, false | false, false, true => true
  | _, _, _ => false
  end.

(** The calls of the public interface and the states they lead to. *)
Inductive call : Type :=
| NewPage
| FetchPage (page_id : Z)
| UnpinPage (page_id : Z) (is_dirty : bool)
| FlushPage (page_id : Z)
| DeletePage (page_id : Z)
| FlushAllPages.

Definition run_call (ds : gmap Z (list Z) * t) (c : call) : gmap Z (list Z) * t :=
  let '(d, s) := ds in
  match c with
  | NewPage => let '(d, s, _) := NewPgImp d s in (d, s)
  | FetchPage page_id => let '(d, s, _) := FetchPgImp d s page_id in (d, s)
  | UnpinPage page_id is_dirty => (d, (UnpinPgImp s page_id is_dirty).1)
  | FlushPage page_id => let '(d, s, _) := FlushPgImp d s page_id in (d, s)
  | DeletePage page_id => (d, (DeletePgImp s page_id).1)
  | FlushAllPages => FlushAllPgsImp d s
  end.

Definition run_calls (ds : gmap Z (list Z) * t) (cs : list call) : gmap Z (list Z) * t :=
  fold_left run_call cs ds.

End BufferPoolManagerInstance.

(** ** parallel_buffer_pool_manager.cpp *)

Module ParallelBufferPoolManager.

Module BPI := BufferPoolManagerInstance.

(** [buffer_pool_manager_instances_] maps an index to an instance pointer;
    [Some None] is an entry holding [nullptr], which [operator[]] creates
    when it is asked for an index that has no entry. *)
Record t : Type := mk {
  num_instances_ : nat;
  pool_size_ : nat;
  next_index_ : nat;
  buffer_pool_manager_instances_ : gmap Z (option BPI.t);
  disk_ : gmap Z (list Z)
}.

Definition init (num_instances pool_size : nat) : t :=
  mk num_instances pool_size 0
     (list_to_map
        (map (fun i : nat =>
                (Z.of_nat i,
                 Some (BPI.init pool_size (Z.of_nat num_instances) (Z.of_nat i))))
             (seq 0 num_instances)))
     ∅.

(** [num_instances_ * pool_size_]; [size_t] arithmetic is modulo [2 ^ 64]. *)
Definition GetPoolSize (p : t) : Z :=
  (Z.of_nat (num_instances_ p) * Z.of_nat (pool_size_ p)) mod 2 ^ 64.

(** [size_t instance_index = page_id % GetPoolSize()], the [int] page
    identifier converted to [size_t] first (for a pool of capacity zero the
    C++ division is undefined). *)
Definition instance_index (p : t) (page_id : Z) : Z :=
  (page_id mod 2 ^ 64) mod GetPoolSize p.

Definition set_instances (p : t) (m : gmap Z (option BPI.t)) : t :=
  mk (num_instances_ p) (pool_size_ p) (next_index_ p) m (disk_ p).

(** [buffer_pool_manager_instances_[instance_index]]: the pool after the
    access and the pointer read, [None] for [nullptr]. *)
Definition GetBufferPoolManager (p : t) (page_id : Z) : t * option BPI.t :=
  match buffer_pool_manager_instances_ p !! instance_index p page_id with
  | Some ptr => (p, ptr)
  | None =>
      (set_instances p (<[instance_index p page_id := None]> (buffer_pool_manager_instances_ p)),
       None)
  end.

Definition store (p : t) (page_id : Z) (d : gmap Z (list Z)) (inst : BPI.t) : t :=
  mk (num_instances_ p) (pool_size_ p) (next_index_ p)
     (<[instance_index p page_id := Some inst]> (buffer_pool_manager_instances_ p)) d.

(** The forwarding calls; the whole result is [None] when the call goes
    through a null instance pointer. *)
Definition FetchPgImp (p : t) (page_id : Z) : option (t * option nat) :=
  match GetBufferPoolManager p page_id with
  | (p, Some inst) =>
      let '(d, inst, r) := BPI.FetchPgImp (disk_ p) inst page_id in
      Some (store p page_id d inst, r)
  | (_, None) => None
  end.

Definition UnpinPgImp (p : t) (page_id : Z) (is_dirty : bool) : option (t * bool) :=
  match GetBufferPoolManager p page_id with
  | (p, Some inst) =>
      let '(inst, r) := BPI.UnpinPgImp inst page_id is_dirty in
      Some (store p page_id (disk_ p) inst, r)
  | (_, None) => None
  end.

Definition FlushPgImp (p : t) (page_id : Z) : option (t * bool) :=
  match GetBufferPoolManager p page_id with
  | (p, Some inst) =>
      let '(d, inst, r) := BPI.FlushPgImp (disk_ p) inst page_id in
      Some (store p page_id d inst, r)
  | (_, None) => None
  end.

Definition DeletePgImp (p : t) (page_id : Z) : option (t * bool) :=
  match GetBufferPoolManager p page_id with
  | (p, Some inst) =>
      let '(inst, r) := BPI.DeletePgImp inst page_id in
      Some (store p page_id (disk_ p) inst, r)
  | (p, None) => Some (p, true)
  end.

(** The round-robin loop of [NewPgImp]; [n] bounds the instances tried. *)
Fixpoint NewPg_loop (n : nat) (p : t) (index saved_index : nat)
  : option (t * option (Z * nat)) :=
  match n with
  | O => None
  | S n' =>
      match buffer_pool_manager_instances_ p !! Z.of_nat index with
      | Some (Some inst) =>
          let '(d, inst, r) := BPI.NewPgImp (disk_ p) inst in
          let m := <[Z.of_nat index := Some inst]> (buffer_pool_manager_instances_ p) in
          match r with
          | Some page =>
              Some (mk (num_instances_ p) (pool_size_ p)
                       ((next_index_ p + 1) mod num_instances_ p)%nat m d,
                    Some page)
          | None =>
              let p := mk (num_instances_ p) (pool_size_ p) (next_index_ p) m d in
              let index := ((index + 1) mod num_instances_ p)%nat in
              if Nat.eqb index saved_index then Some (p, None)
              else NewPg_loop n' p index saved_index
          end
      | _ => None
      end
  end.

Definition NewPgImp (p : t) : option (t * option (Z * nat)) :=
  NewPg_loop (num_instances_ p) p (next_index_ p) (next_index_ p).

End ParallelBufferPoolManager.

(** ** The directory page *)

Module HashTableDirectoryPage.

(** Modelled from the spec: hash_table_directory_page.cpp is not among the
    sources.  The page holds [page_id], [global_depth], and the arrays
    [local_depth[]] and [bucket_page_id[]] sized for the maximum directory
    [1 << MAX_DEPTH]; the masks and the split image are the formulas of the
    data model. *)
Record t : Type := mk {
  page_id_ : Z;
  global_depth_ : Z;
  local_depths_ : list Z;
  bucket_page_ids_ : list Z
}.

(** Modelled from the spec: a zeroed page seen as a directory, with arrays
    of [1 << MAX_DEPTH] entries. *)
Definition zero_page (MAX_DEPTH : nat) : t :=
  mk 0 0 (replicate (2 ^ MAX_DEPTH) 0) (replicate (2 ^ MAX_DEPTH) 0).

(** Modelled from the spec: the accessors of the fields, with
    [GlobalDepthMask = (1 << global_depth) - 1],
    [LocalDepthMask(i) = (1 << local_depth[i]) - 1],
    [SplitImageIndex(i) = i XOR (1 << (local_depth[i] - 1))] and a directory
    of [1 << global_depth] slots. *)
Definition SetPageId (d : t) (page_id : Z) : t :=
  mk page_id (global_depth_ d) (local_depths_ d) (bucket_page_ids_ d).
Definition GetGlobalDepth (d : t) : Z := global_depth_ d.
Definition GetGlobalDepthMask (d : t) : Z := Z.shiftl 1 (global_depth_ d) - 1.
Definition Size (d : t) : Z := Z.shiftl 1 (global_depth_ d).
Definition GetLocalDepth (d : t) (bucket_idx : Z) : Z :=
  default 0 (local_depths_ d !! Z.to_nat bucket_idx).
Definition GetBucketPageId (d : t) (bucket_idx : Z) : Z :=
  default 0 (bucket_page_ids_ d !! Z.to_nat bucket_idx).
Definition SetLocalDepth (d : t) (bucket_idx : Z) (local_depth : Z) : t :=
  mk (page_id_ d) (global_depth_ d)
     (<[Z.to_nat bucket_idx := local_depth]> (local_depths_ d)) (bucket_page_ids_ d).
Definition SetBucketPageId (d : t) (bucket_idx : Z) (bucket_page_id : Z) : t :=
  mk (page_id_ d) (global_depth_ d) (local_depths_ d)
     (<[Z.to_nat bucket_idx := bucket_page_id]> (bucket_page_ids_ d)).
Definition IncrLocalDepth (d : t) (bucket_idx : Z) : t :=
  SetLocalDepth d bucket_idx (GetLocalDepth d bucket_idx + 1).
Definition DecrLocalDepth (d : t) (bucket_idx : Z) : t :=
  SetLocalDepth d bucket_idx (GetLocalDepth d bucket_idx - 1).
Definition GetLocalDepthMask (d : t) (bucket_idx : Z) : Z :=
  Z.shiftl 1 (GetLocalDepth d bucket_idx) - 1.
Definition GetSplitImageIndex (d : t) (bucket_idx : Z) : Z :=
  Z.lxor bucket_idx (Z.shiftl 1 (GetLocalDepth d bucket_idx - 1)).

(** Modelled from the spec: directory expansion doubles the directory;
    each original index is mirrored to [index | (1 << old_global_depth)],
    the local depth travelling with the bucket pointer. *)
Definition IncrGlobalDepth (d : t) : t :=
  let old_size := Size d in
  let mirror (d : t) (index : nat) : t :=
    let i := Z.of_nat index in
    let j := Z.lor i old_size in
    SetLocalDepth (SetBucketPageId d j (GetBucketPageId d i)) j (GetLocalDepth d i) in
  let d := fold_left mirror (seq 0 (Z.to_nat old_size)) d in
  mk (page_id_ d) (global_depth_ d + 1) (local_depths_ d) (bucket_page_ids_ d).

(** Modelled from the spec: the directory can shrink when every slot has
    [local_depth < global_depth]. *)
Definition CanShrink (d : t) : bool :=
  forallb (fun i : nat => GetLocalDepth d (Z.of_nat i) <? global_depth_ d)
          (seq 0 (Z.to_nat (Size d))).

(** Modelled from the spec: the shrink step of Merge, "if every directory
    slot now has [local_depth < global_depth], decrement [global_depth]";
    the index calls it after each coalescing without a test of its own. *)
Definition DecrGlobalDepth (d : t) : t :=
  if CanShrink d
  then mk (page_id_ d) (global_depth_ d - 1) (local_depths_ d) (bucket_page_ids_ d)
  else d.

(** The coalescing invariant of the data model. *)
Definition coalesced (d : t) : Prop :=
  forall i j : Z,
    0 <= i < Size d -> 0 <= j < Size d ->
    i mod 2 ^ GetLocalDepth d i = j mod 2 ^ GetLocalDepth d i ->
    GetLocalDepth d i = GetLocalDepth d j ->
    GetBucketPageId d i = GetBucketPageId d j.

(** The same test over the slots of the directory, as a computation. *)
Definition coalescedb (d : t) : bool :=
  let slots := map Z.of_nat (seq 0 (Z.to_nat (Size d))) in
  forallb
    (fun i =>
       forallb
         (fun j =>
            implb ((i mod 2 ^ GetLocalDepth d i =? j mod 2 ^ GetLocalDepth d i)
                   && (GetLocalDepth d i =? GetLocalDepth d j))
                  (GetBucketPageId d i =? GetBucketPageId d j))
         slots)
    slots.

End HashTableDirectoryPage.

(** ** extendible_hash_table.cpp *)

Module ExtendibleHashTable.

Module Bucket := HashTableBucketPage.
Module Dir := HashTableDirectoryPage.

Section Table.
Context {K V : Type}.
Variable BUCKET_ARRAY_SIZE : nat.
Variable cmp : K -> K -> Z.
Variable value_eq : V -> V -> bool.
Variable default_mapping zeroed_mapping : K * V.
(** [HashFunction<KeyType>::GetHash], a 64-bit hash. *)
Variable hash_fn : K -> Z.

Local Abbreviation bucket := (Bucket.bucket K V).
Local Abbreviation bucket_Insert := (Bucket.Insert BUCKET_ARRAY_SIZE cmp value_eq zeroed_mapping).
Local Abbreviation bucket_Remove :=
  (Bucket.Remove BUCKET_ARRAY_SIZE cmp value_eq default_mapping zeroed_mapping).
Local Abbreviation bucket_GetValue := (Bucket.GetValue BUCKET_ARRAY_SIZE cmp zeroed_mapping).
Local Abbreviation bucket_IsRepeat := (Bucket.IsRepeat BUCKET_ARRAY_SIZE cmp value_eq zeroed_mapping).
Local Abbreviation bucket_IsFull := (Bucket.IsFull BUCKET_ARRAY_SIZE).
Local Abbreviation bucket_Copy := (Bucket.CopyMappingsAndResetPage BUCKET_ARRAY_SIZE zeroed_mapping).

(** The index and the pages it keeps in the buffer pool.  The pool is seen
    from the index: [NewPage] hands out the next identifier with a zeroed
    page, a fetched page holds what was last stored under its identifier
    (the index unpins every page it changed as dirty), and a frame is always
    available (the index dereferences every [FetchPage] and [NewPage] result
    without a test). *)
Record t : Type := mk {
  directory_page_id_ : Z;
  dir_page_ : Dir.t;
  bucket_pages_ : gmap Z bucket;
  next_page_id_ : Z
}.

Definition NewPage (pages : gmap Z bucket) (next_page_id : Z) : gmap Z bucket * Z * Z :=
  (<[next_page_id := Bucket.zero_page BUCKET_ARRAY_SIZE zeroed_mapping]> pages,
   next_page_id + 1, next_page_id).

Definition FetchBucketPage (h : t) (bucket_page_id : Z) : bucket :=
  default (Bucket.zero_page BUCKET_ARRAY_SIZE zeroed_mapping) (bucket_pages_ h !! bucket_page_id).

Definition store_bucket (h : t) (bucket_page_id : Z) (b : bucket) : t :=
  mk (directory_page_id_ h) (dir_page_ h) (<[bucket_page_id := b]> (bucket_pages_ h))
     (next_page_id_ h).

(** The constructor; [MAX_DEPTH] sizes the directory arrays. *)
Definition init (MAX_DEPTH : nat) : t :=
  let directory_page_id := 0 in
  let dir_page := Dir.SetPageId (Dir.zero_page MAX_DEPTH) directory_page_id in
  let dir_page := Dir.IncrGlobalDepth dir_page in
  let '(pages, next, page_id) := NewPage ∅ 1 in
  let dir_page := Dir.SetLocalDepth (Dir.SetBucketPageId dir_page 0 page_id) 0 1 in
  let '(pages, next, page_id) := NewPage pages next in
  let dir_page := Dir.SetLocalDepth (Dir.SetBucketPageId dir_page 1 page_id) 1 1 in
  mk directory_page_id dir_page pages next.

(** The 64-bit hash downcast to [uint32_t]. *)
Definition Hash (key : K) : Z := hash_fn key mod 2 ^ 32.

Definition KeyToDirectoryIndex (key : K) (dir_page : Dir.t) : Z :=
  Z.land (Hash key) (Dir.GetGlobalDepthMask dir_page).

Definition KeyToPageId (key : K) (dir_page : Dir.t) : Z :=
  Dir.GetBucketPageId dir_page (Z.land (Hash key) (Dir.GetGlobalDepthMask dir_page)).

Definition GetValue (h : t) (key : K) (result : list V) : list V * bool :=
  let bucket_page_id := KeyToPageId key (dir_page_ h) in
  let bucket_page := FetchBucketPage h bucket_page_id in
  let result := (bucket_GetValue bucket_page key result).1 in
  (result, negb (Bucket.empty_vector result)).

(** [for (idx = start; idx >= 0; idx -= step_length) { body; if (idx <
    step_length) break; }] on a [size_t] index: the test [idx >= 0] always
    holds, the [break] ends the loop. *)
Fixpoint sweep_down (n : nat) (body : Dir.t -> Z -> Dir.t) (step_length : Z)
         (dir_page : Dir.t) (idx : Z) : Dir.t :=
  match n with
  | O => dir_page
  | S n' =>
      let dir_page := body dir_page idx in
      if idx <? step_length then dir_page
      else sweep_down n' body step_length dir_page (idx - step_length)
  end.

(** [for (idx = start; idx < dir_page->Size(); idx += step_length) body;] *)
Fixpoint sweep_up (n : nat) (body : Dir.t -> Z -> Dir.t) (step_length : Z)
         (dir_page : Dir.t) (idx : Z) : Dir.t :=
  match n with
  | O => dir_page
  | S n' =>
      if idx <? Dir.Size dir_page
      then sweep_up n' body step_length (body dir_page idx) (idx + step_length)
      else dir_page
  end.

(** Both sweeps from [start]; with a positive step neither needs more
    rounds than the directory has slots. *)
Definition sweep (body : Dir.t -> Z -> Dir.t) (step_length : Z) (dir_page : Dir.t)
           (start : Z) : Dir.t :=
  let rounds := S (Z.to_nat (Dir.Size dir_page)) in
  let dir_page := sweep_down rounds body step_length dir_page start in
  sweep_up rounds body step_length dir_page start.

(** The loop that puts the drained mappings back. *)
Definition redistribute (local_depth_mask split_image_index : Z)
           (bucket_page split_image_page : bucket) (result : list (K * V))
  : bucket * bucket :=
  fold_left
    (fun '(bucket_page, split_image_page) mapping =>
       let idx := Z.land (Hash mapping.1) local_depth_mask in
       if idx =? split_image_index
       then (bucket_page, (bucket_Insert split_image_page mapping.1 mapping.2).1)
       else ((bucket_Insert bucket_page mapping.1 mapping.2).1, split_image_page))
    result (bucket_page, split_image_page).

Definition SplitInsert (h : t) (key : K) (value : V) : t * bool :=
  let dir_page := dir_page_ h in
  let bucket_page_id := KeyToPageId key dir_page in
  let directory_idx := KeyToDirectoryIndex key dir_page in
  let bucket_page := FetchBucketPage h bucket_page_id in
  let '(inserted_page, ok) := bucket_Insert bucket_page key value in
  if ok then (store_bucket h bucket_page_id inserted_page, true)
  else if negb (bucket_IsFull bucket_page) then (h, false)
  else if bucket_IsRepeat bucket_page key value then (h, false)
  else
    let global_depth := Dir.GetGlobalDepth dir_page in
    let dir_page := Dir.IncrLocalDepth dir_page directory_idx in
    let dir_page :=
      if Dir.GetLocalDepth dir_page directory_idx >? global_depth
      then Dir.IncrGlobalDepth dir_page else dir_page in
    let split_image_index := Dir.GetSplitImageIndex dir_page directory_idx in
    let '(pages, next, split_image_page_id) := NewPage (bucket_pages_ h) (next_page_id_ h) in
    let split_image_page := Bucket.zero_page BUCKET_ARRAY_SIZE zeroed_mapping in
    let dir_page :=
      Dir.SetLocalDepth dir_page split_image_index (Dir.GetLocalDepth dir_page directory_idx) in
    let dir_page := Dir.SetBucketPageId dir_page split_image_index split_image_page_id in
    let '(bucket_page, result) := bucket_Copy bucket_page [] in
    let local_depth_mask := Dir.GetLocalDepthMask dir_page directory_idx in
    let '(bucket_page, split_image_page) :=
      redistribute local_depth_mask split_image_index bucket_page split_image_page result in
    let step_length := Z.shiftl 1 (Dir.GetLocalDepth dir_page directory_idx) in
    let dir_page :=
      sweep (fun d idx =>
               Dir.SetLocalDepth (Dir.SetBucketPageId d idx split_image_page_id) idx
                                 (Dir.GetLocalDepth d split_image_index))
            step_length dir_page split_image_index in
    let new_directory_idx := Z.land (Hash key) local_depth_mask in
    let '(bucket_page, split_image_page, inserted) :=
      if new_directory_idx =? directory_idx
      then let '(b, r) := bucket_Insert bucket_page key value in (b, split_image_page, r)
      else let '(b, r) := bucket_Insert split_image_page key value in (bucket_page, b, r) in
    (mk (directory_page_id_ h) dir_page
        (<[split_image_page_id := split_image_page]> (<[bucket_page_id := bucket_page]> pages))
        next,
     inserted).

Definition Insert (h : t) (key : K) (value : V) : t * bool :=
  let bucket_page_id := KeyToPageId key (dir_page_ h) in
  let bucket_page := FetchBucketPage h bucket_page_id in
  let '(inserted_page, ok) := bucket_Insert bucket_page key value in
  if ok then (store_bucket h bucket_page_id inserted_page, true)
  else if negb (bucket_IsFull bucket_page) then (h, false)
  else if bucket_IsRepeat bucket_page key value then (h, false)
  else SplitInsert h key value.

(** The directory part of one round of [Merge], up to and without the call
    of [DecrGlobalDepth]. *)
Definition coalesce (dir_page : Dir.t) (directory_idx : Z) : Dir.t :=
  let split_image_bucket_idx := Dir.GetSplitImageIndex dir_page directory_idx in
  let dir_page := Dir.DecrLocalDepth dir_page split_image_bucket_idx in
  let step_length := Z.shiftl 1 (Dir.GetLocalDepth dir_page split_image_bucket_idx) in
  sweep (fun d idx =>
           Dir.SetLocalDepth
             (Dir.SetBucketPageId d idx (Dir.GetBucketPageId d split_image_bucket_idx))
             idx (Dir.GetLocalDepth d split_image_bucket_idx))
        step_length dir_page directory_idx.

(** One round of the [while (true)] loop of [Merge]; [None] is a [break]. *)
Definition Merge_round (h : t) (key : K) : option t :=
  let dir_page := dir_page_ h in
  let bucket_page_id := KeyToPageId key dir_page in
  let directory_idx := KeyToDirectoryIndex key dir_page in
  let bucket_page := FetchBucketPage h bucket_page_id in
  if negb (Bucket.IsEmpty bucket_page) then None
  else
    let local_depth := Dir.GetLocalDepth dir_page directory_idx in
    let split_image_bucket_idx := Dir.GetSplitImageIndex dir_page directory_idx in
    if (local_depth <=? 1)
       || negb (local_depth =? Dir.GetLocalDepth dir_page split_image_bucket_idx)
    then None
    else
      let dir_page := coalesce dir_page directory_idx in
      let pages := delete bucket_page_id (bucket_pages_ h) in
      let dir_page := Dir.DecrGlobalDepth dir_page in
      Some (mk (directory_page_id_ h) dir_page pages (next_page_id_ h)).

Fixpoint Merge_loop (n : nat) (h : t) (key : K) : t :=
  match n with
  | O => h
  | S n' => match Merge_round h key with
            | None => h
            | Some h' => Merge_loop n' h' key
            end
  end.

(** The loop of [Merge]: a round leaves the key's slot with a local depth
    one lower, and the loop breaks at depth 1, so it is run for as many
    rounds as the depth on entry. *)
Definition Merge (h : t) (key : K) (value : V) : t :=
  Merge_loop
    (Z.to_nat (Dir.GetLocalDepth (dir_page_ h) (KeyToDirectoryIndex key (dir_page_ h))))
    h key.

Definition Remove (h : t) (key : K) (value : V) : t * bool :=
  let bucket_page_id := KeyToPageId key (dir_page_ h) in
  let bucket_page := FetchBucketPage h bucket_page_id in
  let '(removed_page, ok) := bucket_Remove bucket_page key value in
  if negb ok then (h, false)
  else (Merge (store_bucket h bucket_page_id removed_page) key value, true).

Definition GetGlobalDepth (h : t) : Z := Dir.GetGlobalDepth (dir_page_ h).

(** States of the index: the constructor's, then any calls of [Insert] and
    [Remove]. *)
Inductive reachable (MAX_DEPTH : nat) : t -> Prop :=
| reachable_init : reachable MAX_DEPTH (init MAX_DEPTH)
| reachable_Insert h key value :
    reachable MAX_DEPTH h -> reachable MAX_DEPTH (Insert h key value).1
| reachable_Remove h key value :
    reachable MAX_DEPTH h -> reachable MAX_DEPTH (Remove h key value).1.

End Table.

Arguments t : clear implicits.

End ExtendibleHashTable.

(** ** lock_manager.cpp *)

Module LockManager.

(** Modelled from the spec: the lock modes, transaction states, isolation
    levels and abort reasons, and the records of a lock request, a request
    queue and a transaction; their declarations are in headers that are not
    among the sources. *)
Inductive LockMode : Type := SHARED | EXCLUSIVE.
Inductive TransactionState : Type := GROWING | SHRINKING | COMMITTED | ABORTED.
Inductive IsolationLevel : Type := READ_UNCOMMITTED | REPEATABLE_READ | READ_COMMITTED.
Inductive AbortReason : Type :=
| LOCK_ON_SHRINKING
| UNLOCK_ON_SHRINKING
| UPGRADE_CONFLICT
| DEADLOCK
| LOCKSHARED_ON_READ_UNCOMMITTED.

#[global] Instance LockMode_eq_dec : EqDecision LockMode.
Proof. solve_decision. Defined.
#[global] Instance TransactionState_eq_dec : EqDecision TransactionState.
Proof. solve_decision. Defined.
#[global] Instance IsolationLevel_eq_dec : EqDecision IsolationLevel.
Proof. solve_decision. Defined.

(** A record identifier: (page_id, slot_index). *)
Abbreviation RID := (Z * Z)%type.

Record LockRequest : Type := mkRequest {
  txn_id_ : Z;
  lock_mode_ : LockMode;
  granted_ : bool
}.

(** [upgrading_] holds a transaction identifier or [INVALID_TXN_ID],
    here [None]. *)
Record LockRequestQueue : Type := mkQueue {
  request_queue_ : list LockRequest;
  upgrading_ : option Z
}.

Record Transaction : Type := mkTxn {
  state_ : TransactionState;
  isolation_level_ : IsolationLevel;
  shared_lock_set_ : gset RID;
  exclusive_lock_set_ : gset RID
}.

(** The lock table and the transactions of the transaction manager's map;
    the [Transaction*] a caller passes is the object the map holds under its
    identifier. *)
Record t : Type := mk {
  lock_table_ : gmap RID LockRequestQueue;
  txn_map : gmap Z Transaction
}.

(** How a call ends: it returns, it throws [TransactionAbortException], or
    it is parked on the queue's condition variable, the state being the one
    it leaves while it waits. *)
Inductive outcome : Type :=
| Returned (b : bool)
| Thrown (txn_id : Z) (reason : AbortReason)
| Blocked.

(** [lock_table_[rid]]: an absent queue reads as a fresh one. *)
Definition queue_at (s : t) (rid : RID) : LockRequestQueue :=
  default (mkQueue [] None) (lock_table_ s !! rid).

Definition set_queue (s : t) (rid : RID) (q : LockRequestQueue) : t :=
  mk (<[rid := q]> (lock_table_ s)) (txn_map s).
Definition set_requests (s : t) (rid : RID) (l : list LockRequest) : t :=
  set_queue s rid (mkQueue l (upgrading_ (queue_at s rid))).
Definition set_upgrading (s : t) (rid : RID) (u : option Z) : t :=
  set_queue s rid (mkQueue (request_queue_ (queue_at s rid)) u).
Definition set_txn (s : t) (txn_id : Z) (txn : Transaction) : t :=
  mk (lock_table_ s) (<[txn_id := txn]> (txn_map s)).

Definition SetState (txn : Transaction) (state : TransactionState) : Transaction :=
  mkTxn state (isolation_level_ txn) (shared_lock_set_ txn) (exclusive_lock_set_ txn).
Definition IsSharedLocked (txn : Transaction) (rid : RID) : bool :=
  bool_decide (rid ∈ shared_lock_set_ txn).
Definition IsExclusiveLocked (txn : Transaction) (rid : RID) : bool :=
  bool_decide (rid ∈ exclusive_lock_set_ txn).

Definition is_exclusive (r : LockRequest) : bool :=
  bool_decide (lock_mode_ r = EXCLUSIVE).

(** The first loop of [NeedWait], over the whole queue. *)
Definition granted_conflict (lock_mode : LockMode) (queue : list LockRequest) : bool :=
  existsb (fun r => match lock_mode with
                    | SHARED => granted_ r && is_exclusive r
                    | EXCLUSIVE => granted_ r
                    end) queue.

(** The second loop of [NeedWait], over the requests ahead of the caller's:
    the transactions and the queue with the wounded requests erased, and
    [need_wait].  [None] when the caller has no request in the queue (the
    iterator would run past the end) or a request names a transaction the
    manager does not know. *)
Fixpoint NeedWait_scan (txns : gmap Z Transaction) (txn_id : Z) (lock_mode : LockMode)
         (queue : list LockRequest) (need_wait : bool)
  : option (gmap Z Transaction * list LockRequest * bool) :=
  match queue with
  | [] => None
  | r :: rest =>
      if txn_id_ r =? txn_id then Some (txns, queue, need_wait)
      else if txn_id_ r >? txn_id then
        if (bool_decide (lock_mode = SHARED) && is_exclusive r)
           || bool_decide (lock_mode = EXCLUSIVE)
        then
          conflict_txn ← txns !! txn_id_ r;
          if bool_decide (state_ conflict_txn = ABORTED)
          then
            '(txns, rest, need_wait) ← NeedWait_scan txns txn_id lock_mode rest need_wait;
            Some (txns, r :: rest, need_wait)
          else
            NeedWait_scan (<[txn_id_ r := SetState conflict_txn ABORTED]> txns)
                          txn_id lock_mode rest need_wait
        else
          '(txns, rest, need_wait) ← NeedWait_scan txns txn_id lock_mode rest need_wait;
          Some (txns, r :: rest, need_wait)
      else
        let need_wait :=
          need_wait || bool_decide (lock_mode = EXCLUSIVE) || is_exclusive r in
        '(txns, rest, need_wait) ← NeedWait_scan txns txn_id lock_mode rest need_wait;
        Some (txns, r :: rest, need_wait)
  end.

Definition NeedWait (s : t) (txn_id : Z) (rid : RID) (lock_mode : LockMode)
  : option (t * bool) :=
  let queue := request_queue_ (queue_at s rid) in
  if negb (granted_conflict lock_mode queue) then Some (s, false)
  else
    '(txns, queue, need_wait) ← NeedWait_scan (txn_map s) txn_id lock_mode queue false;
    Some (set_requests (mk (lock_table_ s) txns) rid queue, need_wait).

(** The loop of [NeedWaitForUpgrade]. *)
Fixpoint NeedWaitForUpgrade_scan (txns : gmap Z Transaction) (txn_id : Z)
         (queue : list LockRequest) (need_wait : bool)
  : option (gmap Z Transaction * list LockRequest * bool) :=
  match queue with
  | [] => None
  | r :: rest =>
      if txn_id_ r =? txn_id then Some (txns, queue, need_wait)
      else if txn_id_ r >? txn_id then
        conflict_txn ← txns !! txn_id_ r;
        NeedWaitForUpgrade_scan (<[txn_id_ r := SetState conflict_txn ABORTED]> txns)
                                txn_id rest need_wait
      else
        '(txns, rest, need_wait) ← NeedWaitForUpgrade_scan txns txn_id rest true;
        Some (txns, r :: rest, need_wait)
  end.

Definition NeedWaitForUpgrade (s : t) (txn_id : Z) (rid : RID) : option (t * bool) :=
  '(txns, queue, need_wait) ←
    NeedWaitForUpgrade_scan (txn_map s) txn_id (request_queue_ (queue_at s rid)) false;
  Some (set_requests (mk (lock_table_ s) txns) rid queue, need_wait).

(** [granted_ = true] on every request of the transaction. *)
Definition grant_all (txn_id : Z) (queue : list LockRequest) : list LockRequest :=
  map (fun r => if txn_id_ r =? txn_id then mkRequest (txn_id_ r) (lock_mode_ r) true else r)
      queue.

(** The loop of [LockUpgrade] that grants the first request of the
    transaction as EXCLUSIVE and clears [upgrading_], then breaks. *)
Fixpoint grant_upgrade (txn_id : Z) (queue : list LockRequest) : list LockRequest * bool :=
  match queue with
  | [] => ([], false)
  | r :: rest =>
      if txn_id_ r =? txn_id then (mkRequest (txn_id_ r) EXCLUSIVE true :: rest, true)
      else let '(rest, found) := grant_upgrade txn_id rest in (r :: rest, found)
  end.

(** The loop of [Unlock] that erases the first request of the transaction. *)
Fixpoint erase_request (txn_id : Z) (queue : list LockRequest) : list LockRequest * bool :=
  match queue with
  | [] => ([], false)
  | r :: rest =>
      if txn_id_ r =? txn_id then (rest, true)
      else let '(rest, found) := erase_request txn_id rest in (r :: rest, found)
  end.

Definition abort_with (s : t) (txn_id : Z) (txn : Transaction) (reason : AbortReason)
  : t * outcome :=
  (set_txn s txn_id (SetState txn ABORTED), Thrown txn_id reason).

(** The part shared by [LockShared] and [LockExclusive]: the request is
    appended, then waited for or granted. *)
Definition acquire (s : t) (txn_id : Z) (rid : RID) (lock_mode : LockMode)
  : option (t * outcome) :=
  let s := set_requests s rid
             (request_queue_ (queue_at s rid) ++ [mkRequest txn_id lock_mode false]) in
  match NeedWait s txn_id rid lock_mode with
  | None => None
  | Some (s, true) => Some (s, Blocked)
  | Some (s, false) =>
      let s := set_requests s rid (grant_all txn_id (request_queue_ (queue_at s rid))) in
      txn ← txn_map s !! txn_id;
      let txn := SetState txn GROWING in
      let txn :=
        match lock_mode with
        | SHARED => mkTxn (state_ txn) (isolation_level_ txn)
                          ({[rid]} ∪ shared_lock_set_ txn) (exclusive_lock_set_ txn)
        | EXCLUSIVE => mkTxn (state_ txn) (isolation_level_ txn)
                             (shared_lock_set_ txn) ({[rid]} ∪ exclusive_lock_set_ txn)
        end in
      Some (set_txn s txn_id txn, Returned true)
  end.

Definition LockShared (s : t) (txn_id : Z) (rid : RID) : option (t * outcome) :=
  txn ← txn_map s !! txn_id;
  if bool_decide (state_ txn = ABORTED) then Some (s, Returned false)
  else if bool_decide (state_ txn = SHRINKING)
          && bool_decide (isolation_level_ txn = REPEATABLE_READ)
  then Some (abort_with s txn_id txn LOCK_ON_SHRINKING)
  else if bool_decide (isolation_level_ txn = READ_UNCOMMITTED)
  then Some (abort_with s txn_id txn LOCKSHARED_ON_READ_UNCOMMITTED)
  else if IsSharedLocked txn rid then Some (s, Returned true)
  else acquire s txn_id rid SHARED.

Definition LockExclusive (s : t) (txn_id : Z) (rid : RID) : option (t * outcome) :=
  txn ← txn_map s !! txn_id;
  if bool_decide (state_ txn = ABORTED) then Some (s, Returned false)
  else if bool_decide (state_ txn = SHRINKING)
          && bool_decide (isolation_level_ txn = REPEATABLE_READ)
  then Some (abort_with s txn_id txn LOCK_ON_SHRINKING)
  else if IsExclusiveLocked txn rid then Some (s, Returned true)
  else acquire s txn_id rid EXCLUSIVE.

Definition LockUpgrade (s : t) (txn_id : Z) (rid : RID) : option (t * outcome) :=
  txn ← txn_map s !! txn_id;
  if bool_decide (state_ txn = ABORTED) || negb (IsSharedLocked txn rid)
     || bool_decide (upgrading_ (queue_at s rid) <> None)
  then Some (s, Returned false)
  else if IsExclusiveLocked txn rid then Some (s, Returned true)
  else if bool_decide (state_ txn = SHRINKING)
  then Some (abort_with s txn_id txn LOCK_ON_SHRINKING)
  else
    let s := set_upgrading s rid (Some txn_id) in
    match NeedWaitForUpgrade s txn_id rid with
    | None => None
    | Some (s, true) => Some (s, Blocked)
    | Some (s, false) =>
        let '(queue, found) := grant_upgrade txn_id (request_queue_ (queue_at s rid)) in
        let s := set_queue s rid
                   (mkQueue queue (if found then None else upgrading_ (queue_at s rid))) in
        txn ← txn_map s !! txn_id;
        let txn := mkTxn GROWING (isolation_level_ txn)
                         (shared_lock_set_ txn ∖ {[rid]})
                         ({[rid]} ∪ exclusive_lock_set_ txn) in
        Some (set_txn s txn_id txn, Returned true)
    end.

Definition Unlock (s : t) (txn_id : Z) (rid : RID) : option (t * bool) :=
  txn ← txn_map s !! txn_id;
  if negb (IsExclusiveLocked txn rid) && negb (IsSharedLocked txn rid) then Some (s, false)
  else
    let '(queue, is_found) := erase_request txn_id (request_queue_ (queue_at s rid)) in
    if negb is_found then Some (s, false)
    else
      let s := set_requests s rid queue in
      let txn :=
        if bool_decide (isolation_level_ txn = REPEATABLE_READ)
           && bool_decide (state_ txn = GROWING)
        then SetState txn SHRINKING else txn in
      let txn := mkTxn (state_ txn) (isolation_level_ txn)
                       (shared_lock_set_ txn ∖ {[rid]})
                       (exclusive_lock_set_ txn ∖ {[rid]}) in
      Some (set_txn s txn_id txn, true).

(** A transaction as the transaction manager creates it. *)
Definition Begin (s : t) (txn_id : Z) (isolation_level : IsolationLevel) : t :=
  set_txn s txn_id (mkTxn GROWING isolation_level ∅ ∅).

Definition init : t := mk ∅ ∅.

Definition state_of (s : t) (txn_id : Z) : option TransactionState :=
  state_ <$> txn_map s !! txn_id.
Definition isolation_of (s : t) (txn_id : Z) : option IsolationLevel :=
  isolation_level_ <$> txn_map s !! txn_id.
Definition requests_on (s : t) (rid : RID) : list LockRequest :=
  request_queue_ (queue_at s rid).

End LockManager.

(** ** Concrete runs *)

Module Runs.

Module BPI := BufferPoolManagerInstance.
Module PBPM := ParallelBufferPoolManager.
Module EHT := ExtendibleHashTable.
Module LM := LockManager.

(** *** Buffer pool *)

(** A pool of one frame built by the three-argument constructor, with an
    empty disk. *)
Definition single_frame_pool : gmap Z (list Z) * BPI.t := (∅, BPI.init 1 1 0).

(** Page 0 created and unpinned once: resident, clean, pin count 0. *)
Definition unpinned_page_pool : gmap Z (list Z) * BPI.t :=
  BPI.run_calls single_frame_pool [BPI.NewPage; BPI.UnpinPage 0 false].

(** [n] calls of the parallel pool's [NewPgImp]: the pool and the
    identifiers handed out, oldest first. *)
Fixpoint new_pages (n : nat) (p : PBPM.t) : option (PBPM.t * list Z) :=
  match n with
  | O => Some (p, [])
  | S n' =>
      match PBPM.NewPgImp p with
      | Some (p, Some (page_id, _)) =>
          match new_pages n' p with
          | Some (p, ids) => Some (p, page_id :: ids)
          | None => None
          end
      | _ => None
      end
  end.

(** Four instances of three frames each. *)
Definition four_instances : PBPM.t := PBPM.init 4 3.

(** The instance that holds [page_id] in its page table, if any. *)
Definition resident_in (p : PBPM.t) (index page_id : Z) : bool :=
  match PBPM.buffer_pool_manager_instances_ p !! index with
  | Some (Some inst) => bool_decide (is_Some (BPI.page_table_ inst !! page_id))
  | _ => false
  end.

(** *** Bucket pages and the index over [int] keys and values *)

Module Bucket := HashTableBucketPage.

(** The comparator of the [<int, int, IntComparator>] instantiation. *)
Definition IntComparator (lhs rhs : Z) : Z :=
  if lhs <? rhs then -1 else if rhs <? lhs then 1 else 0.

(** Buckets of four slots. *)
Definition capacity : nat := 4.

Definition int_zero_page : Bucket.bucket Z Z := Bucket.zero_page capacity (0, 0).
Definition int_bucket_Insert (b : Bucket.bucket Z Z) (key value : Z) : Bucket.bucket Z Z * bool :=
  Bucket.Insert capacity IntComparator Z.eqb (0, 0) b key value.
Definition int_bucket_GetValue (b : Bucket.bucket Z Z) (key : Z) (result : list Z)
  : list Z * bool :=
  Bucket.GetValue capacity IntComparator (0, 0) b key result.

(** A page whose slot 0 is readable while no occupied bit is set; no
    sequence of bucket operations produces it. *)
Definition readable_unoccupied_page : Bucket.bucket Z Z :=
  Bucket.mkBucket [0] [1] [(1, 5); (0, 0); (0, 0); (0, 0)].

(** The index over [int] keys and values with buckets of
    [BUCKET_ARRAY_SIZE] slots, the hash of a key being the key, and a
    directory of [1 << 9] slots. *)
Definition int_init (BUCKET_ARRAY_SIZE : nat) : EHT.t Z Z :=
  EHT.init BUCKET_ARRAY_SIZE (0, 0) 9.
Definition int_Insert (BUCKET_ARRAY_SIZE : nat) (h : EHT.t Z Z) (key value : Z)
  : EHT.t Z Z * bool :=
  EHT.Insert BUCKET_ARRAY_SIZE IntComparator Z.eqb (0, 0) id h key value.
Definition int_SplitInsert (BUCKET_ARRAY_SIZE : nat) (h : EHT.t Z Z) (key value : Z)
  : EHT.t Z Z * bool :=
  EHT.SplitInsert BUCKET_ARRAY_SIZE IntComparator Z.eqb (0, 0) id h key value.
Definition int_GetValue (BUCKET_ARRAY_SIZE : nat) (h : EHT.t Z Z) (key : Z) (result : list Z)
  : list Z * bool :=
  EHT.GetValue BUCKET_ARRAY_SIZE IntComparator (0, 0) id h key result.
Definition int_Merge_round (h : EHT.t Z Z) (key : Z) : option (EHT.t Z Z) :=
  EHT.Merge_round capacity (0, 0) id h key.
Definition int_reachable (BUCKET_ARRAY_SIZE : nat) : EHT.t Z Z -> Prop :=
  EHT.reachable BUCKET_ARRAY_SIZE IntComparator Z.eqb (0, 0) (0, 0) id 9.

(** [Insert(key, 10 * key)] for each key in turn. *)
Definition insert_keys (BUCKET_ARRAY_SIZE : nat) (h : EHT.t Z Z) (keys : list Z)
  : EHT.t Z Z :=
  fold_left (fun h key => (int_Insert BUCKET_ARRAY_SIZE h key (10 * key)).1) keys h.

(** One bucket's worth of multiples of four, and of odd keys. *)
Definition multiples_of_four (n : nat) : list Z := map (fun i : nat => 4 * Z.of_nat i) (seq 0 n).
Definition odd_keys (n : nat) : list Z := map (fun i : nat => 2 * Z.of_nat i + 1) (seq 0 n).

(** Global depth 2; the bucket of slot 0 is full and its split image, under
    slot 2, is empty: the insert of 16 split the bucket and failed. *)
Definition empty_split_image_table : EHT.t Z Z :=
  insert_keys capacity (int_init capacity) (multiples_of_four capacity ++ [16]).

(** The table after the round of Merge for key 2. *)
Definition merged_table : EHT.t Z Z :=
  default empty_split_image_table (int_Merge_round empty_split_image_table 2).

(** The multiples of four fill the bucket of slot 0; two more inserts of the
    next multiple split it twice and bring the global depth to 3.  The odd
    keys then fill the bucket under slots 1, 3, 5 and 7, which keeps local
    depth 1. *)
Definition depth_three_table (BUCKET_ARRAY_SIZE : nat) : EHT.t Z Z :=
  insert_keys BUCKET_ARRAY_SIZE (int_init BUCKET_ARRAY_SIZE)
    (multiples_of_four BUCKET_ARRAY_SIZE
       ++ [4 * Z.of_nat BUCKET_ARRAY_SIZE; 4 * Z.of_nat BUCKET_ARRAY_SIZE]
       ++ odd_keys BUCKET_ARRAY_SIZE).

(** What a split of the bucket under slots 1, 3, 5 and 7 by
    Insert(1001, 10010) leaves: whether Insert took the SplitInsert path and returned true, the
    key's directory index and the depths and pages of the four slots before,
    then the split image, the pages and the depths after. *)
Definition split_report_on (BUCKET_ARRAY_SIZE : nat) (h : EHT.t Z Z)
  : bool * Z * list Z * list Z * Z * list Z * list Z :=
  let '(h', inserted) := int_SplitInsert BUCKET_ARRAY_SIZE h 1001 10010 in
  let d := EHT.dir_page_ h in
  let d' := EHT.dir_page_ h' in
  (inserted && (int_Insert BUCKET_ARRAY_SIZE h 1001 10010).2,
   EHT.KeyToDirectoryIndex id 1001 d,
   map (HashTableDirectoryPage.GetLocalDepth d) [1; 3; 5; 7],
   map (HashTableDirectoryPage.GetBucketPageId d) [1; 3; 5; 7],
   HashTableDirectoryPage.GetSplitImageIndex d' 1,
   map (HashTableDirectoryPage.GetBucketPageId d') [1; 3; 5; 7],
   map (HashTableDirectoryPage.GetLocalDepth d') [1; 3; 5; 7]).

(** What Insert(1007, 10070) and the GetValue(1007) after it give: the flag of
    Insert, the result of GetValue on an empty vector, the key's directory
    index, the pages of the four slots, and what the new page 5 holds under
    the key. *)
Definition round_trip_report_on (BUCKET_ARRAY_SIZE : nat) (h : EHT.t Z Z)
  : bool * (list Z * bool) * Z * list Z * list Z :=
  let '(h', inserted) := int_Insert BUCKET_ARRAY_SIZE h 1007 10070 in
  (inserted,
   int_GetValue BUCKET_ARRAY_SIZE h' 1007 [],
   EHT.KeyToDirectoryIndex id 1007 (EHT.dir_page_ h'),
   map (HashTableDirectoryPage.GetBucketPageId (EHT.dir_page_ h')) [1; 3; 5; 7],
   (Bucket.GetValue BUCKET_ARRAY_SIZE IntComparator (0, 0)
      (EHT.FetchBucketPage BUCKET_ARRAY_SIZE (0, 0) h' 5) 1007 []).1).

Definition split_report (BUCKET_ARRAY_SIZE : nat) :=
  split_report_on BUCKET_ARRAY_SIZE (depth_three_table BUCKET_ARRAY_SIZE).
Definition round_trip_report (BUCKET_ARRAY_SIZE : nat) :=
  round_trip_report_on BUCKET_ARRAY_SIZE (depth_three_table BUCKET_ARRAY_SIZE).

(** A larger bucket, and both reports on the one table with buckets of that
    size. *)
Definition larger_capacity : nat := 56.
Definition larger_reports :=
  let h := depth_three_table larger_capacity in
  (split_report_on larger_capacity h, round_trip_report_on larger_capacity h).

(** *** Lock manager *)

(** A call on the state the earlier calls left, if they all came back. *)
Definition then_call (s : option LM.t) (call : LM.t -> option (LM.t * LM.outcome))
  : option (LM.t * LM.outcome) :=
  match s with
  | Some s => call s
  | None => None
  end.
Definition state_after (r : option (LM.t * LM.outcome)) : option LM.t := fst <$> r.

Definition rid1 : LM.RID := (1, 0).
Definition rid2 : LM.RID := (1, 1).
Definition rid3 : LM.RID := (1, 2).

(** Transactions 1 (older) and 2 (younger), both under REPEATABLE_READ. *)
Definition two_transactions : LM.t :=
  LM.Begin (LM.Begin LM.init 1 LM.REPEATABLE_READ) 2 LM.REPEATABLE_READ.

(** Both hold a granted shared lock on [rid1]; transaction 1 asked first. *)
Definition two_readers : option LM.t :=
  state_after
    (then_call (state_after (LM.LockShared two_transactions 1 rid1))
               (fun s => LM.LockShared s 2 rid1)).

(** The same with transaction 2 asking first. *)
Definition two_readers_younger_first : option LM.t :=
  state_after
    (then_call (state_after (LM.LockShared two_transactions 2 rid1))
               (fun s => LM.LockShared s 1 rid1)).

(** Transaction 1 after LockShared(rid1) and LockExclusive(rid2). *)
Definition grown : option LM.t :=
  state_after
    (then_call (state_after (LM.LockShared two_transactions 1 rid1))
               (fun s => LM.LockExclusive s 1 rid2)).

(** Then Unlock(rid1). *)
Definition unlocked : option (LM.t * bool) :=
  match grown with
  | Some s => LM.Unlock s 1 rid1
  | None => None
  end.

(** The state [unlocked] leaves, the initial one if a call went wrong. *)
Definition shrinking : LM.t := default two_transactions (fst <$> unlocked).

End Runs.

(** ** p0_starter.h *)

Module Primer.

(** [ExceptionType::OUT_OF_RANGE] of [common/exception.h], and the
    [std::bad_array_new_length] that [new T[len]] throws for a negative
    length. *)
Inductive ExceptionType : Type := OUT_OF_RANGE | BAD_ARRAY_NEW_LENGTH.

(** How a call ends: with a value, with an exception, or in a dereference
    of a null pointer. *)
Inductive result (A : Type) : Type :=
| Ok (a : A)
| Throw (e : ExceptionType)
| NullDereference.
Arguments Ok {A} a.
Arguments Throw {A} e.
Arguments NullDereference {A}.

Definition bind {A B : Type} (r : result A) (k : A -> result B) : result B :=
  match r with
  | Ok a => k a
  | Throw e => Throw e
  | NullDereference => NullDereference
  end.

(** [for (int i = 0; i < n; ++i) body] over a state, [l] being the values
    of [i]; an exception leaves the loop. *)
Fixpoint for_each {S : Type} (l : list nat) (body : S -> Z -> result S) (s : S) : result S :=
  match l with
  | [] => Ok s
  | i :: l' => bind (body s (Z.of_nat i)) (for_each l' body)
  end.

Definition upto (n : Z) : list nat := seq 0 (Z.to_nat n).

Section Matrix.
(** The element type with its [0], [+] and [*]. *)
Context {T : Type}.
Variable zero : T.
Variable add mul : T -> T -> T.

(** [rows_], [cols_] and the flattened array [linear_]; the row pointers
    [data_[i]] are [linear_ + i * cols], so [data_[i][j]] is
    [linear_[i * cols + j]]. *)
Record RowMatrix : Type := mkMatrix {
  rows_ : Z;
  cols_ : Z;
  linear_ : list T
}.

(** The constructors of [Matrix] and [RowMatrix]: [new T[rows * cols]],
    zeroed by [memset], and [new T *[rows]]. *)
Definition new_RowMatrix (rows cols : Z) : result RowMatrix :=
  if (rows * cols <? 0) || (rows <? 0) then Throw BAD_ARRAY_NEW_LENGTH
  else Ok (mkMatrix rows cols (replicate (Z.to_nat (rows * cols)) zero)).

Definition GetRowCount (m : RowMatrix) : Z := rows_ m.
Definition GetColumnCount (m : RowMatrix) : Z := cols_ m.

(** The position of [data_[i][j]] in [linear_]. *)
Definition position (m : RowMatrix) (i j : Z) : nat := Z.to_nat (i * cols_ m + j).

(** [data_[i][j]], read. *)
Definition element (m : RowMatrix) (i j : Z) : T :=
  default zero (linear_ m !! position m i j).

(** [data_[i][j] = val]. *)
Definition assign (m : RowMatrix) (i j : Z) (val : T) : RowMatrix :=
  mkMatrix (rows_ m) (cols_ m) (<[position m i j := val]> (linear_ m)).

Definition in_range (m : RowMatrix) (i j : Z) : bool :=
  (0 <=? i) && (i <? GetRowCount m) && ((0 <=? j) && (j <? GetColumnCount m)).

Definition GetElement (m : RowMatrix) (i j : Z) : result T :=
  if in_range m i j then Ok (element m i j) else Throw OUT_OF_RANGE.

Definition SetElement (m : RowMatrix) (i j : Z) (val : T) : result RowMatrix :=
  if in_range m i j then Ok (assign m i j val) else Throw OUT_OF_RANGE.

(** The two loops of [FillFrom], over the matrix and [index]. *)
Definition FillFrom_loops (m : RowMatrix) (source : list T) : result (RowMatrix * nat) :=
  for_each (upto (rows_ m))
    (fun st i =>
       for_each (upto (cols_ m))
         (fun '(m, index) j =>
            Ok (assign m i j (default zero (source !! index)), S index))
         st)
    (m, 0%nat).

Definition FillFrom (m : RowMatrix) (source : list T) : result RowMatrix :=
  if negb (Z.of_nat (length source) =? GetRowCount m * GetColumnCount m)
  then Throw OUT_OF_RANGE
  else bind (FillFrom_loops m source) (fun st => Ok st.1).

(** [RowMatrixOperations]; a returned [None] is [nullptr]. *)
Definition Add (matrixA matrixB : RowMatrix) : result (option RowMatrix) :=
  if negb (GetRowCount matrixA =? GetRowCount matrixB)
     || negb (GetColumnCount matrixA =? GetColumnCount matrixB)
  then Ok None
  else
    bind (new_RowMatrix (GetRowCount matrixA) (GetColumnCount matrixA))
      (fun ptr =>
         bind (for_each (upto (GetRowCount matrixA))
                 (fun ptr i =>
                    for_each (upto (GetColumnCount matrixB))
                      (fun ptr j =>
                         bind (GetElement matrixA i j) (fun a =>
                         bind (GetElement matrixB i j) (fun b =>
                         SetElement ptr i j (add a b))))
                      ptr)
                 ptr)
           (fun ptr => Ok (Some ptr))).

Definition Multiply (matrixA matrixB : RowMatrix) : result (option RowMatrix) :=
  if negb (GetColumnCount matrixA =? GetRowCount matrixB) then Ok None
  else
    bind (new_RowMatrix (GetRowCount matrixA) (GetColumnCount matrixB))
      (fun ptr =>
         bind (for_each (upto (GetRowCount matrixA))
                 (fun ptr i =>
                    for_each (upto (GetColumnCount matrixB))
                      (fun ptr j =>
                         bind (for_each (upto (GetColumnCount matrixA))
                                 (fun val k =>
                                    bind (GetElement matrixA i k) (fun a =>
                                    bind (GetElement matrixB k j) (fun b =>
                                    Ok (add val (mul a b)))))
                                 zero)
                           (fun val => SetElement ptr i j val))
                      ptr)
                 ptr)
           (fun ptr => Ok (Some ptr))).

Definition GEMM (matrixA matrixB matrixC : RowMatrix) : result (option RowMatrix) :=
  if negb (GetColumnCount matrixA =? GetRowCount matrixB) then Ok None
  else if negb (GetRowCount matrixA =? GetRowCount matrixC)
          || negb (GetColumnCount matrixB =? GetColumnCount matrixC)
  then Ok None
  else
    bind (Multiply matrixA matrixB)
      (fun multiply =>
         match multiply with
         | Some p => Add p matrixC
         | None => NullDereference
         end).

(** A matrix as the constructor builds it and the member functions keep
    it, with a column count that is not negative. *)
Definition constructed (m : RowMatrix) : Prop :=
  0 <= rows_ m /\ 0 <= cols_ m /\ Z.of_nat (length (linear_ m)) = rows_ m * cols_ m.

(** The sum the innermost loop of [Multiply] accumulates for [(i, j)]. *)
Definition dot (matrixA matrixB : RowMatrix) (i j : Z) : T :=
  fold_left (fun val k => add val (mul (element matrixA i (Z.of_nat k))
                                       (element matrixB (Z.of_nat k) j)))
            (upto (cols_ matrixA)) zero.

End Matrix.

Arguments RowMatrix : clear implicits.

End Primer.

(** ** Further notions used by the lemmas *)

Module ReplacerProps.

Import LRUReplacer.

(** The list holds no frame twice, and [location_map_] has a key for exactly
    the frames of the list. *)
Definition replacer_inv (r : t) : Prop :=
  List.NoDup (frame_id_list_ r)
  /\ forall frame_id : nat, frame_id ∈ location_map_ r <-> In frame_id (frame_id_list_ r).

(** The calls of the replacer's interface. *)
Inductive call : Type :=
| CallVictim
| CallPin (frame_id : nat)
| CallUnpin (frame_id : nat).

Definition run_call (r : t) (c : call) : t :=
  match c with
  | CallVictim => (Victim r).1
  | CallPin frame_id => Pin r frame_id
  | CallUnpin frame_id => Unpin r frame_id
  end.

(** [n] calls of [Victim]: the victims in the order they came out, and the
    replacer left; a call that finds no victim ends the run. *)
Fixpoint victims (n : nat) (r : t) : list nat * t :=
  match n with
  | O => ([], r)
  | S n' =>
      match Victim r with
      | (r', Some frame_id) => let '(l, r'') := victims n' r' in (frame_id :: l, r'')
      | (r', None) => ([], r')
      end
  end.

End ReplacerProps.

Module BucketProps.
Import HashTableBucketPage.

(** The number of set bits among the eight bits of a char. *)
Definition set_bits (v : Z) : nat :=
  length (List.filter (fun k : nat => Z.testbit v (Z.of_nat k)) (seq 0 CHAR_BIT_SIZE)).

Section Props.
Context {K V : Type}.
Variable BUCKET_ARRAY_SIZE : nat.

(** The slots whose readable bit is set, in increasing order. *)
Definition readable_slots (b : bucket K V) : list nat :=
  List.filter (IsReadable b) (seq 0 BUCKET_ARRAY_SIZE).

(** The readable bitmap holds chars, and the bits of its last char that
    stand for no slot are clear. *)
Definition bitmap_inv (b : bucket K V) : Prop :=
  (forall v : Z, In v (readable_ b) -> 0 <= v < 256)
  /\ forall i : nat, (BUCKET_ARRAY_SIZE <= i)%nat -> IsReadable b i = false.

End Props.
End BucketProps.

(** ** Further concrete pages *)

Module Pages.
Import Runs.

Definition int_bucket_Remove (b : Bucket.bucket Z Z) (key value : Z) : Bucket.bucket Z Z * bool :=
  Bucket.Remove capacity IntComparator Z.eqb (0, 0) (0, 0) b key value.

(** The page after Insert(1, 2) on a zeroed page. *)
Definition one_pair_page : Bucket.bucket Z Z := (int_bucket_Insert int_zero_page 1 2).1.

(** A page of four slots filled by four calls of Insert. *)
Definition full_page : Bucket.bucket Z Z :=
  (int_bucket_Insert
     (int_bucket_Insert
        (int_bucket_Insert (int_bucket_Insert int_zero_page 1 10).1 2 20).1 3 30).1 4 40).1.

End Pages.

Module PoolProps.
Import BufferPoolManagerInstance.

(** The bookkeeping of the frames.  The page array has [pool_size_] frames;
    the replacer's list and map agree; the free list has no duplicates, its
    frames are unpinned and no page-table entry points at them; the frames
    of the replacer are unpinned; a page-table entry points at a frame that
    holds its page; pin counts are not negative, and a frame with pin count
    zero is in the free list or in the replacer.  [taken] is a frame that
    the running call has picked and not installed yet. *)
Definition frames_inv (taken : option nat) (s : t) : Prop :=
  length (pages_ s) = pool_size_ s
  /\ ReplacerProps.replacer_inv (replacer_ s)
  /\ List.NoDup (free_list_ s)
  /\ (forall f : nat, In f (free_list_ s) ->
        (f < pool_size_ s)%nat /\ pin_count_ (page_at s f) = 0
        /\ forall page_id : Z, page_table_ s !! page_id <> Some f)
  /\ (forall f : nat, In f (LRUReplacer.frame_id_list_ (replacer_ s)) ->
        (f < pool_size_ s)%nat /\ pin_count_ (page_at s f) = 0)
  /\ (forall (page_id : Z) (f : nat), page_table_ s !! page_id = Some f ->
        (f < pool_size_ s)%nat /\ page_id_ (page_at s f) = page_id)
  /\ (forall f : nat, (f < pool_size_ s)%nat ->
        0 <= pin_count_ (page_at s f)
        /\ (pin_count_ (page_at s f) = 0 ->
            taken = Some f \/ In f (free_list_ s)
            \/ In f (LRUReplacer.frame_id_list_ (replacer_ s)))).

Definition pool_inv (s : t) : Prop := frames_inv None s.

(** Two states that differ at most in the bytes and the dirty flags of
    their pages. *)
Definition same_meta (s s' : t) : Prop :=
  num_instances_ s' = num_instances_ s
  /\ instance_index_ s' = instance_index_ s
  /\ next_page_id_ s' = next_page_id_ s
  /\ pool_size_ s' = pool_size_ s
  /\ length (pages_ s') = length (pages_ s)
  /\ replacer_ s' = replacer_ s
  /\ free_list_ s' = free_list_ s
  /\ page_table_ s' = page_table_ s
  /\ forall f : nat,
       pin_count_ (page_at s' f) = pin_count_ (page_at s f)
       /\ page_id_ (page_at s' f) = page_id_ (page_at s f).

(** The allocator hands out [instance_index_ + k * num_instances_]. *)
Definition ids_inv (s : t) : Prop :=
  exists k : Z, 0 <= k /\ next_page_id_ s = instance_index_ s + k * num_instances_ s.

(** What a call may do to the allocator: nothing, or one step. *)
Definition allocator_step (s s' : t) : Prop :=
  num_instances_ s' = num_instances_ s
  /\ instance_index_ s' = instance_index_ s
  /\ (next_page_id_ s' = next_page_id_ s
      \/ next_page_id_ s' = next_page_id_ s + num_instances_ s).

(** Reading a field of a state built by the setters. *)
Ltac pool_fields :=
  cbn [set_page_table set_replacer set_page set_free_list pool_size_ num_instances_
       instance_index_ next_page_id_ pages_ replacer_ free_list_ page_table_].

End PoolProps.

Module ParallelProps.
Import ParallelBufferPoolManager.

(** The calls of the public interface; a sequence of calls ends with [None]
    when one of them goes through a null instance pointer. *)
Inductive call : Type :=
| NewPage
| FetchPage (page_id : Z)
| UnpinPage (page_id : Z) (is_dirty : bool)
| FlushPage (page_id : Z)
| DeletePage (page_id : Z).

Definition run_call (p : t) (c : call) : option t :=
  match c with
  | NewPage => fst <$> NewPgImp p
  | FetchPage page_id => fst <$> FetchPgImp p page_id
  | UnpinPage page_id is_dirty => fst <$> UnpinPgImp p page_id is_dirty
  | FlushPage page_id => fst <$> FlushPgImp p page_id
  | DeletePage page_id => fst <$> DeletePgImp p page_id
  end.

Fixpoint run_calls (p : t) (cs : list call) : option t :=
  match cs with
  | [] => Some p
  | c :: cs' =>
      match run_call p c with
      | Some p' => run_calls p' cs'
      | None => None
      end
  end.

(** What an instance of the pool keeps. *)
Definition instance_inv (p : t) (i : nat) (inst : BPI.t) : Prop :=
  PoolProps.pool_inv inst
  /\ PoolProps.ids_inv inst
  /\ BPI.num_instances_ inst = Z.of_nat (num_instances_ p)
  /\ BPI.instance_index_ inst = Z.of_nat i
  /\ BPI.pool_size_ inst = pool_size_ p.

(** The map holds an instance under each index below [num_instances_] and
    null pointers elsewhere. *)
Definition instances_inv (p : t) : Prop :=
  (0 < num_instances_ p)%nat
  /\ (next_index_ p < num_instances_ p)%nat
  /\ (forall i : nat, (i < num_instances_ p)%nat ->
        exists inst : BPI.t,
          buffer_pool_manager_instances_ p !! Z.of_nat i = Some (Some inst)
          /\ instance_inv p i inst)
  /\ (forall (k : Z) (inst : BPI.t),
        buffer_pool_manager_instances_ p !! k = Some (Some inst) ->
        0 <= k < Z.of_nat (num_instances_ p)).

(** Every frame of every instance is pinned. *)
Definition all_pinned (p : t) : Prop :=
  forall (i : nat) (inst : BPI.t),
    buffer_pool_manager_instances_ p !! Z.of_nat i = Some (Some inst) ->
    forall f : nat, (f < pool_size_ p)%nat -> BPI.is_pinned inst f = true.

End ParallelProps.

Module LockProps.
Import LockManager.

(** What a lock call of transaction [txn_id] may do to another transaction
    [other]: nothing, or, when [other] is younger, set its state to
    ABORTED. *)
Definition kept_or_wounded (txn_id : Z) (txns txns' : gmap Z Transaction) (other : Z)
  : Prop :=
  txns' !! other = txns !! other
  \/ (txn_id < other
      /\ exists txn : Transaction,
           txns !! other = Some txn /\ txns' !! other = Some (SetState txn ABORTED)).

(** The transaction has no request in the queue. *)
Definition no_request_of (txn_id : Z) (queue : list LockRequest) : Prop :=
  forall r : LockRequest, In r queue -> txn_id_ r <> txn_id.

(** LockShared or LockExclusive, by the mode asked for. *)
Definition lock_call (lock_mode : LockMode) : t -> Z -> RID -> option (t * outcome) :=
  match lock_mode with
  | SHARED => LockShared
  | EXCLUSIVE => LockExclusive
  end.

End LockProps.

Module TableProps.
Import ExtendibleHashTable.

Section Props.
Context {K V : Type}.
Variable BUCKET_ARRAY_SIZE : nat.
Variable cmp : K -> K -> Z.
Variable value_eq : V -> V -> bool.
Variable default_mapping zeroed_mapping : K * V.
Variable hash_fn : K -> Z.

(** Every bucket page the index keeps came from a zeroed page by the bucket
    page's own operations. *)
Definition pages_reachable (h : t K V) : Prop :=
  forall (page_id : Z) (b : Bucket.bucket K V),
    bucket_pages_ h !! page_id = Some b ->
    Bucket.reachable BUCKET_ARRAY_SIZE cmp value_eq default_mapping zeroed_mapping b.

(** The bucket page the directory gives for the key. *)
Definition bucket_of (h : t K V) (key : K) : Bucket.bucket K V :=
  FetchBucketPage BUCKET_ARRAY_SIZE zeroed_mapping h (KeyToPageId hash_fn key (dir_page_ h)).

End Props.
End TableProps.

(** * Part II: lemmas *)

(** ** Bitmap arithmetic *)

Section BitmapFacts.
Import HashTableBucketPage.

Lemma bit_is_set_testbit (arr : list Z) (i : nat) :
  bit_is_set arr i
  = Z.testbit (char_at arr (i / CHAR_BIT_SIZE)) (Z.of_nat (i mod CHAR_BIT_SIZE)).
Proof.
  unfold bit_is_set. cbv zeta.
  set (a := char_at arr _). set (n := Z.of_nat _).
  assert (Hn : 0 <= n) by (subst n; lia).
  change 1 with (Z.ones 1) at 1.
  rewrite Z.land_ones by lia. rewrite Z.shiftr_div_pow2 by lia.
  change (2 ^ 1) with 2.
  rewrite <- (Z.testbit_spec' a n Hn).
  destruct (Z.testbit a n); reflexivity.
Qed.

Lemma bit_pos_lt (i : nat) : 0 <= Z.of_nat (i mod CHAR_BIT_SIZE) < 8.
Proof.
  unfold CHAR_BIT_SIZE. pose proof (Nat.mod_upper_bound i 8). lia.
Qed.

Lemma same_slot (i j : nat) :
  (i / CHAR_BIT_SIZE = j / CHAR_BIT_SIZE)%nat ->
  (i mod CHAR_BIT_SIZE = j mod CHAR_BIT_SIZE)%nat -> i = j.
Proof.
  unfold CHAR_BIT_SIZE. intros Hd Hm.
  rewrite (Nat.div_mod_eq i 8), (Nat.div_mod_eq j 8). lia.
Qed.

Lemma bit_is_set_bit_set (arr : list Z) (i j : nat) :
  (i / CHAR_BIT_SIZE < length arr)%nat ->
  bit_is_set (bit_set arr i) j = (Nat.eqb i j || bit_is_set arr j)%bool.
Proof.
  intros Hlen. rewrite !bit_is_set_testbit. unfold bit_set, char_at. cbv zeta.
  destruct (decide (i / CHAR_BIT_SIZE = j / CHAR_BIT_SIZE)%nat) as [Heq | Hne].
  - rewrite <- Heq. rewrite list_lookup_insert_eq by exact Hlen. cbn [default from_option]; unfold id.
    pose proof (bit_pos_lt i) as Hi. pose proof (bit_pos_lt j) as Hj.
    change 256 with (2 ^ 8).
    rewrite Z.mod_pow2_bits_low by lia.
    rewrite Z.lor_spec, Z.shiftl_1_l, Z.pow2_bits_eqb by lia.
    rewrite orb_comm. f_equal.
    destruct (Nat.eqb_spec i j) as [-> | Hij].
    + apply Z.eqb_refl.
    + apply Z.eqb_neq. intros Hm. apply Hij, same_slot; [exact Heq | lia].
  - rewrite list_lookup_insert_ne by exact Hne.
    destruct (Nat.eqb_spec i j) as [-> | _]; [congruence | reflexivity].
Qed.

Lemma bit_is_set_bit_clear (arr : list Z) (i j : nat) :
  (i / CHAR_BIT_SIZE < length arr)%nat ->
  bit_is_set (bit_clear arr i) j = (negb (Nat.eqb i j) && bit_is_set arr j)%bool.
Proof.
  intros Hlen. rewrite !bit_is_set_testbit. unfold bit_clear, char_at. cbv zeta.
  destruct (decide (i / CHAR_BIT_SIZE = j / CHAR_BIT_SIZE)%nat) as [Heq | Hne].
  - rewrite <- Heq. rewrite list_lookup_insert_eq by exact Hlen. cbn [default from_option]; unfold id.
    pose proof (bit_pos_lt i) as Hi. pose proof (bit_pos_lt j) as Hj.
    change 256 with (2 ^ 8).
    rewrite Z.mod_pow2_bits_low by lia.
    rewrite Z.land_spec, Z.lxor_spec, Z.shiftl_1_l, Z.pow2_bits_eqb by lia.
    change (2 ^ 32 - 1) with (Z.ones 32).
    rewrite Z.ones_spec_low by lia.
    rewrite andb_comm. f_equal. cbn [xorb].
    destruct (Nat.eqb_spec i j) as [-> | Hij].
    + rewrite Z.eqb_refl. reflexivity.
    + destruct (Z.eqb_spec (Z.of_nat (i mod CHAR_BIT_SIZE)) (Z.of_nat (j mod CHAR_BIT_SIZE)))
        as [Hm | _]; [| reflexivity].
      exfalso. apply Hij, same_slot; [exact Heq | lia].
  - rewrite list_lookup_insert_ne by exact Hne.
    destruct (Nat.eqb_spec i j) as [-> | _]; [congruence | reflexivity].
Qed.

Lemma bit_is_set_zero (n i : nat) : bit_is_set (replicate n 0) i = false.
Proof.
  rewrite bit_is_set_testbit. unfold char_at.
  destruct (replicate n 0 !! (i / CHAR_BIT_SIZE)%nat) as [z |] eqn:Hz; simpl.
  - apply lookup_replicate in Hz as [-> _]. apply Z.bits_0.
  - apply Z.bits_0.
Qed.

Lemma length_bit_set (arr : list Z) (i : nat) : length (bit_set arr i) = length arr.
Proof. unfold bit_set. cbv zeta. apply length_insert. Qed.

Lemma length_bit_clear (arr : list Z) (i : nat) : length (bit_clear arr i) = length arr.
Proof. unfold bit_clear. cbv zeta. apply length_insert. Qed.

(** Eight rounds are enough for the bit count of a char: on every byte
    more rounds count the same. *)
Lemma count_bits_rounds :
  forallb (fun v : nat => count_bits 16 (Z.of_nat v) 0 =? count_bits 8 (Z.of_nat v) 0)
          (seq 0 256) = true.
Proof. vm_compute. reflexivity. Qed.

End BitmapFacts.

(** ** Bucket pages *)

Section BucketFacts.
Import HashTableBucketPage.
Context {K V : Type}.
Variable BUCKET_ARRAY_SIZE : nat.
Variable cmp : K -> K -> Z.
Variable value_eq : V -> V -> bool.
Variable default_mapping zeroed_mapping : K * V.

Local Abbreviation bucket := (bucket K V).
Local Abbreviation GetValue := (GetValue BUCKET_ARRAY_SIZE cmp zeroed_mapping).
Local Abbreviation GetValue_loop := (GetValue_loop cmp zeroed_mapping).
Local Abbreviation value_if_match := (value_if_match cmp zeroed_mapping).
Local Abbreviation key_matches := (key_matches cmp zeroed_mapping).
Local Abbreviation pair_matches := (pair_matches cmp value_eq zeroed_mapping).
Local Abbreviation Insert := (Insert BUCKET_ARRAY_SIZE cmp value_eq zeroed_mapping).
Local Abbreviation Insert_loop := (Insert_loop cmp value_eq zeroed_mapping).
Local Abbreviation Remove := (Remove BUCKET_ARRAY_SIZE cmp value_eq default_mapping zeroed_mapping).
Local Abbreviation Remove_loop := (Remove_loop cmp value_eq default_mapping zeroed_mapping).
Local Abbreviation CopyMappingsAndResetPage := (CopyMappingsAndResetPage BUCKET_ARRAY_SIZE zeroed_mapping).
Local Abbreviation CopyMappings_loop := (CopyMappings_loop zeroed_mapping).
Local Abbreviation IsRepeat := (IsRepeat BUCKET_ARRAY_SIZE cmp value_eq zeroed_mapping).
Local Abbreviation IsRepeat_loop := (IsRepeat_loop cmp value_eq zeroed_mapping).
Local Abbreviation zero_page := (zero_page BUCKET_ARRAY_SIZE zeroed_mapping).
Local Abbreviation reachable := (reachable BUCKET_ARRAY_SIZE cmp value_eq default_mapping zeroed_mapping).
Local Abbreviation well_sized := (well_sized BUCKET_ARRAY_SIZE).
Local Abbreviation occupied_prefix := (occupied_prefix BUCKET_ARRAY_SIZE).
Local Abbreviation bucket_inv := (bucket_inv BUCKET_ARRAY_SIZE).
Local Abbreviation readable_values := (readable_values BUCKET_ARRAY_SIZE cmp zeroed_mapping).
Local Abbreviation readable_mappings := (readable_mappings BUCKET_ARRAY_SIZE zeroed_mapping).
Local Abbreviation readable_pair := (readable_pair BUCKET_ARRAY_SIZE cmp value_eq zeroed_mapping).
Local Abbreviation mapping_if_readable := (mapping_if_readable zeroed_mapping).

Implicit Types (b : bucket) (key : K) (value : V) (n i j : nat).

(** *** The scan of GetValue *)

Lemma GetValue_loop_run b key n i (result : list V) :
  GetValue_loop b key n i result
  = result ++ flat_map (value_if_match b key) (occupied_run b n i).
Proof.
  revert i result. induction n as [| n IH]; intros i result; cbn [HashTableBucketPage.GetValue_loop occupied_run].
  - cbn. symmetry. apply app_nil_r.
  - destruct (IsOccupied b i); cbn [negb flat_map].
    + rewrite IH. unfold HashTableBucketPage.value_if_match at 2.
      destruct (IsReadable b i && key_matches b i key)%bool.
      * rewrite <- app_assoc. reflexivity.
      * reflexivity.
    + symmetry. apply app_nil_r.
Qed.

Lemma empty_vector_true {A : Type} (v : list A) : empty_vector v = true <-> v = [].
Proof. destruct v; cbn; split; congruence. Qed.

Lemma flat_map_nonempty {A B : Type} (f : A -> list B) (l : list A) :
  flat_map f l <> [] <-> exists x, In x l /\ f x <> [].
Proof.
  induction l as [| a l IH]; cbn.
  - split; [congruence | intros (x & [] & _)].
  - split.
    + intros Hne. destruct (f a) as [| y ys] eqn:Hfa.
      * cbn in Hne. apply IH in Hne as (x & Hx & Hfx). eauto.
      * exists a. split; [auto | congruence].
    + intros (x & [-> | Hx] & Hfx) Heq; apply app_eq_nil in Heq as [Ha Hl].
      * contradiction.
      * apply IH in Hl; [exact Hl | eauto].
Qed.

Lemma In_occupied_run b n s i :
  In i (occupied_run b n s)
  <-> (s <= i < s + n)%nat /\ forall j, (s <= j <= i)%nat -> IsOccupied b j = true.
Proof.
  revert s. induction n as [| n IH]; intros s; cbn [occupied_run].
  - split; [intros [] | intros [? _]; lia].
  - destruct (IsOccupied b s) eqn:Hs.
    + cbn [In]. rewrite IH. split.
      * intros [<- | [Hb Hocc]].
        -- split; [lia |]. intros j Hj. replace j with s by lia. exact Hs.
        -- split; [lia |]. intros j Hj.
           destruct (decide (j = s)) as [-> | Hne]; [exact Hs | apply Hocc; lia].
      * intros [Hb Hocc]. destruct (decide (s = i)) as [-> | Hne]; [now left | right].
        split; [lia |]. intros j Hj. apply Hocc. lia.
    + split; [intros [] |]. intros [Hb Hocc].
      rewrite (Hocc s) in Hs by lia. discriminate.
Qed.

(** GetValue appends the values of the readable slots holding the key that
    lie before the first non-occupied slot, and its flag says whether the
    vector is non-empty after the call: it was non-empty on entry, or a value
    was appended. *)
Lemma GetValue_result_and_flag b key (out : list V) :
  (GetValue b key out).1
  = out ++ flat_map (value_if_match b key) (occupied_run b BUCKET_ARRAY_SIZE 0)
  /\ ((GetValue b key out).2 = true <->
      out <> [] \/
      exists i, (i < BUCKET_ARRAY_SIZE)%nat
                /\ (forall j, (j <= i)%nat -> IsOccupied b j = true)
                /\ IsReadable b i = true /\ key_matches b i key = true).
Proof.
  unfold HashTableBucketPage.GetValue. cbn [fst snd].
  rewrite GetValue_loop_run. split; [reflexivity |].
  rewrite negb_true_iff, <- not_true_iff_false, empty_vector_true.
  split.
  - intros Hne. destruct out as [| v out]; [right | left; discriminate].
    cbn [app] in Hne. apply flat_map_nonempty in Hne as (i & Hi & Hm).
    apply In_occupied_run in Hi as [Hb Hocc].
    unfold HashTableBucketPage.value_if_match in Hm.
    destruct (IsReadable b i) eqn:Hr; [| now cbn in Hm].
    destruct (key_matches b i key) eqn:Hk; [| now cbn in Hm].
    exists i. repeat split; try assumption; try lia.
    intros j Hj. apply Hocc. lia.
  - intros [Hout | (i & Hi & Hocc & Hr & Hk)] Heq; apply app_eq_nil in Heq as [Ho Hf].
    + contradiction.
    + revert Hf. apply flat_map_nonempty. exists i. split.
      * apply In_occupied_run. split; [lia |]. intros j Hj. apply Hocc. lia.
      * unfold HashTableBucketPage.value_if_match. rewrite Hr, Hk. discriminate.
Qed.

(** C9 (amended): for every bucket-page state and every output vector,
    GetValue appends to the vector, in slot order, the value of every
    readable slot that holds the key and lies before the first non-occupied
    slot; called with an empty vector it returns true exactly when at least
    one value was appended. *)
Theorem GetValue_appends_before_first_unoccupied b key :
  (forall out : list V,
      (GetValue b key out).1
      = out ++ flat_map (value_if_match b key) (occupied_run b BUCKET_ARRAY_SIZE 0))
  /\ ((GetValue b key []).2 = true <->
      exists i, (i < BUCKET_ARRAY_SIZE)%nat
                /\ (forall j, (j <= i)%nat -> IsOccupied b j = true)
                /\ IsReadable b i = true /\ key_matches b i key = true).
Proof.
  split.
  - intros out. apply GetValue_result_and_flag.
  - destruct (GetValue_result_and_flag b key []) as [_ Hflag]. rewrite Hflag.
    split; [intros [Hne | Hex]; [congruence | exact Hex] | intros Hex; right; exact Hex].
Qed.

(** *** The occupied prefix *)


Lemma slot_in_bitmap i :
  (i < BUCKET_ARRAY_SIZE)%nat ->
  (i / CHAR_BIT_SIZE < bitmap_size BUCKET_ARRAY_SIZE)%nat.
Proof.
  intros Hi. unfold bitmap_size, CHAR_BIT_SIZE.
  assert (i / 8 <= (BUCKET_ARRAY_SIZE - 1) / 8)%nat
    by (apply Nat.Div0.div_le_mono; lia).
  lia.
Qed.

Lemma zero_page_inv : bucket_inv zero_page.
Proof.
  unfold HashTableBucketPage.bucket_inv, HashTableBucketPage.zero_page. repeat split.
  - cbn. apply length_replicate.
  - cbn. apply length_replicate.
  - cbn. apply length_replicate.
  - exists 0%nat. split; [lia |]. intros i _.
    unfold IsOccupied. cbn. rewrite bit_is_set_zero. split; [discriminate | lia].
  - intros i _. unfold IsReadable. cbn. rewrite bit_is_set_zero. discriminate.
Qed.

Lemma Insert_loop_keep b key value n i (f0 : nat) r :
  Insert_loop b key value n i (Some f0) = Some r -> r = Some f0.
Proof.
  revert i. induction n as [| n IH]; intros i; cbn [HashTableBucketPage.Insert_loop].
  - congruence.
  - destruct (IsReadable b i); [destruct (pair_matches b i key value) |]; try discriminate;
      apply IH.
Qed.

Lemma Insert_loop_first_free b key value n i (f : nat) :
  Insert_loop b key value n i None = Some (Some f) ->
  (i <= f < i + n)%nat /\ IsReadable b f = false
  /\ forall j, (i <= j < f)%nat -> IsReadable b j = true.
Proof.
  revert i. induction n as [| n IH]; intros i; cbn [HashTableBucketPage.Insert_loop].
  - discriminate.
  - destruct (IsReadable b i) eqn:Hr.
    + destruct (pair_matches b i key value); [discriminate |].
      intros H. apply IH in H as (Hb & Hf & Hall).
      split; [lia |]. split; [exact Hf |].
      intros j Hj. destruct (decide (j = i)) as [-> | Hne]; [exact Hr | apply Hall; lia].
    + intros H. apply Insert_loop_keep in H. injection H as <-.
      split; [lia |]. split; [exact Hr |]. intros j Hj. lia.
Qed.

Lemma Insert_inv b key value : bucket_inv b -> bucket_inv (Insert b key value).1.
Proof.
  intros Hinv. unfold HashTableBucketPage.Insert.
  destruct (Insert_loop b key value BUCKET_ARRAY_SIZE 0 None) as [[f |] |] eqn:Hloop;
    cbn [fst]; try exact Hinv.
  apply Insert_loop_first_free in Hloop as (Hb & Hf & Hall).
  destruct Hinv as ((Ho & Hr & Ha) & (p & Hp & Hpre) & Hsub).
  assert (Hfo : (f / CHAR_BIT_SIZE < length (occupied_ b))%nat)
    by (rewrite Ho; apply slot_in_bitmap; lia).
  assert (Hfr : (f / CHAR_BIT_SIZE < length (readable_ b))%nat)
    by (rewrite Hr; apply slot_in_bitmap; lia).
  assert (Hocc : forall j, IsOccupied
            (SetReadable (SetOccupied (set_slot b f (key, value)) f) f) j
            = (Nat.eqb f j || IsOccupied b j)%bool).
  { intros j. unfold IsOccupied. cbn. apply bit_is_set_bit_set. exact Hfo. }
  assert (Hrd : forall j, IsReadable
            (SetReadable (SetOccupied (set_slot b f (key, value)) f) f) j
            = (Nat.eqb f j || IsReadable b j)%bool).
  { intros j. unfold IsReadable. cbn. apply bit_is_set_bit_set. exact Hfr. }
  assert (Hfp : (f <= p)%nat).
  { destruct (decide (f <= p)%nat) as [| Hgt]; [assumption | exfalso].
    assert (Hpr : IsReadable b p = true) by (apply Hall; lia).
    apply Hsub in Hpr; [| lia]. apply Hpre in Hpr; lia. }
  repeat split.
  - bucket_fields. rewrite length_bit_set. exact Ho.
  - bucket_fields. rewrite length_bit_set. exact Hr.
  - bucket_fields. rewrite length_insert. exact Ha.
  - exists (Nat.max p (S f)). split; [lia |]. intros j Hj. rewrite Hocc.
    rewrite orb_true_iff, Nat.eqb_eq, (Hpre j Hj). lia.
  - intros j Hj. rewrite Hocc, Hrd, !orb_true_iff.
    intros [He | Hrj]; [now left | right; apply Hsub; assumption].
Qed.

Lemma Remove_loop_cases b key value n i :
  (Remove_loop b key value n i).1 = b
  \/ exists idx, (idx < i + n)%nat
      /\ (Remove_loop b key value n i).1 = RemoveAt (set_slot b idx default_mapping) idx.
Proof.
  revert i. induction n as [| n IH]; intros i; cbn [HashTableBucketPage.Remove_loop].
  - now left.
  - destruct (negb (IsOccupied b i)); [now left |].
    destruct (IsReadable b i && IsOccupied b i && pair_matches b i key value)%bool.
    + right. exists i. split; [lia | reflexivity].
    + destruct (IH (S i)) as [Hb | (idx & Hidx & Heq)]; [now left | right].
      exists idx. split; [lia | exact Heq].
Qed.

Lemma Remove_inv b key value : bucket_inv b -> bucket_inv (Remove b key value).1.
Proof.
  intros Hinv. unfold HashTableBucketPage.Remove.
  destruct (Remove_loop_cases b key value BUCKET_ARRAY_SIZE 0) as [-> | (idx & Hidx & ->)];
    [exact Hinv |].
  destruct Hinv as ((Ho & Hr & Ha) & (p & Hp & Hpre) & Hsub).
  assert (Hfr : (idx / CHAR_BIT_SIZE < length (readable_ b))%nat)
    by (rewrite Hr; apply slot_in_bitmap; lia).
  repeat split.
  - exact Ho.
  - bucket_fields. rewrite length_bit_clear. exact Hr.
  - bucket_fields. rewrite length_insert. exact Ha.
  - exists p. split; [exact Hp |]. intros j Hj. apply (Hpre j Hj).
  - intros j Hj. unfold IsReadable, IsOccupied. bucket_fields.
    rewrite bit_is_set_bit_clear by exact Hfr. rewrite andb_true_iff.
    intros [_ Hrj]. apply (Hsub j Hj Hrj).
Qed.

Lemma reachable_inv b : reachable b -> bucket_inv b.
Proof.
  induction 1 as [| b key value _ IH | b key value _ IH | b result _ IH].
  - apply zero_page_inv.
  - apply Insert_inv, IH.
  - apply Remove_inv, IH.
  - apply zero_page_inv.
Qed.

(** *** The scans reach every readable slot *)

Lemma occupied_run_prefix b p n s :
  occupied_prefix b p -> (s + n <= BUCKET_ARRAY_SIZE)%nat ->
  occupied_run b n s = seq s (Nat.min n (p - s)).
Proof.
  intros [Hp Hpre]. revert s. induction n as [| n IH]; intros s Hs; cbn [occupied_run].
  - reflexivity.
  - destruct (IsOccupied b s) eqn:Ho.
    + apply Hpre in Ho; [| lia]. rewrite IH by lia.
      replace (Nat.min (S n) (p - s)) with (S (Nat.min n (p - S s))) by lia.
      reflexivity.
    + assert (~ (s < p)%nat) by (intros Hlt; apply Hpre in Hlt; [congruence | lia]).
      replace (Nat.min (S n) (p - s)) with 0%nat by lia. reflexivity.
Qed.

Lemma flat_map_nil {A B : Type} (f : A -> list B) (l : list A) :
  (forall x, In x l -> f x = []) -> flat_map f l = [].
Proof.
  induction l as [| a l IH]; intros H; cbn; [reflexivity |].
  rewrite (H a) by now left. apply IH. intros x Hx. apply H. now right.
Qed.

Lemma existsb_false {A : Type} (g : A -> bool) (l : list A) :
  (forall x, In x l -> g x = false) -> existsb g l = false.
Proof.
  induction l as [| a l IH]; intros H; cbn; [reflexivity |].
  rewrite (H a) by now left. apply IH. intros x Hx. apply H. now right.
Qed.

Lemma inv_run_split b :
  bucket_inv b ->
  exists p, occupied_run b BUCKET_ARRAY_SIZE 0 = seq 0 p
            /\ seq 0 BUCKET_ARRAY_SIZE = seq 0 p ++ seq p (BUCKET_ARRAY_SIZE - p)
            /\ forall i, In i (seq p (BUCKET_ARRAY_SIZE - p)) -> IsReadable b i = false.
Proof.
  intros (_ & (p & Hpre) & Hsub). exists p. pose proof Hpre as [Hp Hpre'].
  split; [| split].
  - rewrite (occupied_run_prefix b p) by (assumption || lia). f_equal. lia.
  - rewrite <- seq_app. f_equal. lia.
  - intros i Hi. apply in_seq in Hi.
    destruct (IsReadable b i) eqn:Hr; [| reflexivity].
    apply Hsub in Hr; [| lia]. apply Hpre' in Hr; lia.
Qed.

Lemma flat_map_run_all {A : Type} (f : nat -> list A) b :
  bucket_inv b -> (forall i, IsReadable b i = false -> f i = []) ->
  flat_map f (occupied_run b BUCKET_ARRAY_SIZE 0) = flat_map f (seq 0 BUCKET_ARRAY_SIZE).
Proof.
  intros Hinv Hf. destruct (inv_run_split b Hinv) as (p & -> & -> & Hrest).
  rewrite flat_map_app, (flat_map_nil f (seq p _)), app_nil_r; [reflexivity |].
  intros i Hi. apply Hf, Hrest, Hi.
Qed.

Lemma existsb_run_all (g : nat -> bool) b :
  bucket_inv b -> (forall i, IsReadable b i = false -> g i = false) ->
  existsb g (occupied_run b BUCKET_ARRAY_SIZE 0) = existsb g (seq 0 BUCKET_ARRAY_SIZE).
Proof.
  intros Hinv Hg. destruct (inv_run_split b Hinv) as (p & -> & -> & Hrest).
  rewrite existsb_app, (existsb_false g (seq p _)), orb_false_r; [reflexivity |].
  intros i Hi. apply Hg, Hrest, Hi.
Qed.

Lemma CopyMappings_loop_run b n i (result : list (K * V)) :
  CopyMappings_loop b n i result
  = result ++ flat_map (mapping_if_readable b) (occupied_run b n i).
Proof.
  revert i result. induction n as [| n IH]; intros i result;
    cbn [HashTableBucketPage.CopyMappings_loop occupied_run].
  - cbn. symmetry. apply app_nil_r.
  - destruct (IsOccupied b i); cbn [negb flat_map].
    + rewrite IH. unfold HashTableBucketPage.mapping_if_readable at 2.
      destruct (IsReadable b i).
      * rewrite <- app_assoc. reflexivity.
      * reflexivity.
    + symmetry. apply app_nil_r.
Qed.

Lemma IsRepeat_loop_run b key value n i :
  IsRepeat_loop b key value n i
  = existsb (fun i => IsReadable b i && pair_matches b i key value) (occupied_run b n i).
Proof.
  revert i. induction n as [| n IH]; intros i;
    cbn [HashTableBucketPage.IsRepeat_loop occupied_run].
  - reflexivity.
  - destruct (IsOccupied b i); cbn [negb existsb]; [| reflexivity].
    destruct (IsReadable b i && pair_matches b i key value)%bool; [reflexivity |].
    apply IH.
Qed.

Lemma Remove_loop_run b key value n i :
  (Remove_loop b key value n i).2
  = existsb (fun i => IsReadable b i && pair_matches b i key value) (occupied_run b n i).
Proof.
  revert i. induction n as [| n IH]; intros i;
    cbn [HashTableBucketPage.Remove_loop occupied_run].
  - reflexivity.
  - destruct (IsOccupied b i); cbn [negb existsb]; [| reflexivity].
    rewrite andb_true_r.
    destruct (IsReadable b i && pair_matches b i key value)%bool; [reflexivity |].
    apply IH.
Qed.

(** C10: in every bucket page reachable from the zeroed page through
    Insert, Remove and CopyMappingsAndResetPage the occupied bits are a
    contiguous prefix of the slots and every readable slot lies inside it,
    so that the scans stopping at the first non-occupied slot (GetValue,
    Remove, IsRepeat, CopyMappingsAndResetPage) see what a scan of all
    slots sees. *)
Theorem reachable_occupied_prefix b :
  reachable b ->
  (exists p, occupied_prefix b p)
  /\ (forall i j, (i < BUCKET_ARRAY_SIZE)%nat -> IsReadable b i = true ->
                  (j <= i)%nat -> IsOccupied b j = true)
  /\ (forall key (out : list V), (GetValue b key out).1 = out ++ readable_values b key)
  /\ (forall key value, (Remove b key value).2 = readable_pair b key value)
  /\ (forall key value, IsRepeat b key value = readable_pair b key value)
  /\ (forall out : list (K * V),
        (CopyMappingsAndResetPage b out).2 = out ++ readable_mappings b).
Proof.
  intros Hreach. pose proof (reachable_inv b Hreach) as Hinv.
  pose proof Hinv as (_ & (p & Hp & Hpre) & Hsub).
  split; [exists p; split; assumption |]. split; [| split; [| split; [| split]]].
  - intros i j Hi Hr Hj. apply Hsub in Hr; [| exact Hi].
    apply Hpre in Hr; [| exact Hi]. apply Hpre; lia.
  - intros key out. unfold HashTableBucketPage.GetValue. cbn [fst].
    rewrite GetValue_loop_run. f_equal. apply flat_map_run_all; [exact Hinv |].
    intros i Hi. unfold HashTableBucketPage.value_if_match. now rewrite Hi.
  - intros key value. unfold HashTableBucketPage.Remove. rewrite Remove_loop_run.
    apply existsb_run_all; [exact Hinv |]. intros i Hi. now rewrite Hi.
  - intros key value. unfold HashTableBucketPage.IsRepeat. rewrite IsRepeat_loop_run.
    apply existsb_run_all; [exact Hinv |]. intros i Hi. now rewrite Hi.
  - intros out. unfold HashTableBucketPage.CopyMappingsAndResetPage. cbn [snd].
    rewrite CopyMappings_loop_run. f_equal. apply flat_map_run_all; [exact Hinv |].
    intros i Hi. unfold HashTableBucketPage.mapping_if_readable. now rewrite Hi.
Qed.

End BucketFacts.

(** ** Buffer pool instance *)

Section BufferPoolFacts.
Import BufferPoolManagerInstance.

(** A call on a page that is not resident fails and changes nothing. *)
Lemma UnpinPgImp_not_resident (s : t) (page_id : Z) (is_dirty : bool) :
  page_table_ s !! page_id = None -> UnpinPgImp s page_id is_dirty = (s, false).
Proof. intros H. unfold UnpinPgImp. rewrite H. reflexivity. Qed.

Lemma page_at_set_page (s : t) (frame_id : nat) (p : Page) :
  (frame_id < length (pages_ s))%nat -> page_at (set_page s frame_id p) frame_id = p.
Proof.
  intros H. unfold page_at, set_page. cbn [pages_].
  rewrite list_lookup_insert_eq by exact H. reflexivity.
Qed.

(** A call on a resident page whose pin count is not positive fails. *)
Lemma UnpinPgImp_not_pinned (s : t) (page_id : Z) (frame_id : nat) (is_dirty : bool) :
  page_table_ s !! page_id = Some frame_id ->
  (frame_id < length (pages_ s))%nat ->
  pin_count_ (page_at s frame_id) <= 0 ->
  (UnpinPgImp s page_id is_dirty).2 = false.
Proof.
  intros Ht Hf Hp. unfold UnpinPgImp. rewrite Ht.
  destruct is_dirty.
  - rewrite page_at_set_page by exact Hf. cbn [pin_count_].
    destruct (Z.leb_spec (pin_count_ (page_at s frame_id)) 0); [reflexivity | lia].
  - destruct (Z.leb_spec (pin_count_ (page_at s frame_id)) 0); [reflexivity | lia].
Qed.

End BufferPoolFacts.

Section BufferPoolRuns.
Import BufferPoolManagerInstance Runs.

(** C6 (the code at the failing input): page 0 is resident, clean and has
    pin count 0; UnpinPage(0, true) returns false, and the page is dirty
    afterwards. *)
Theorem UnpinPgImp_failed_call_sets_dirty :
  let s := unpinned_page_pool.2 in
  page_table_ s !! 0 = Some 0%nat
  /\ pin_count_ (page_at s 0) = 0
  /\ is_dirty_ (page_at s 0) = false
  /\ (UnpinPgImp s 0 true).2 = false
  /\ is_dirty_ (page_at (UnpinPgImp s 0 true).1 0) = true.
Proof. vm_compute. repeat split; reflexivity. Qed.

(** C5 (the code at the failing input): after NewPage, UnpinPage(0) and
    DeletePage(0) on a pool of one frame, DeletePage has returned true and
    frame 0 is in the free list and in the replacer at once. *)
Theorem DeletePgImp_leaves_frame_in_replacer :
  let s := unpinned_page_pool.2 in
  page_table_ s !! 0 = Some 0%nat
  /\ exactly_one_place s 0 = true
  /\ (DeletePgImp s 0).2 = true
  /\ in_free_list (DeletePgImp s 0).1 0 = true
  /\ in_replacer (DeletePgImp s 0).1 0 = true
  /\ exactly_one_place (DeletePgImp s 0).1 0 = false
  /\ (DeletePgImp s 0).1
     = (run_calls single_frame_pool [NewPage; UnpinPage 0 false; DeletePage 0]).2.
Proof. vm_compute. repeat split; reflexivity. Qed.

End BufferPoolRuns.

(** ** Parallel buffer pool *)

Section ParallelFacts.
Import ParallelBufferPoolManager Runs.

(** With one frame per instance the pool capacity is the number of
    instances, and the routing index is [page_id mod N]. *)
Lemma instance_index_single_frame (num_instances : nat) (page_id : Z) :
  0 <= page_id < 2 ^ 64 -> (0 < num_instances)%nat -> Z.of_nat num_instances < 2 ^ 64 ->
  instance_index (init num_instances 1) page_id = page_id mod Z.of_nat num_instances.
Proof.
  intros Hp Hn Hlt. unfold instance_index, GetPoolSize, init. cbn [num_instances_ pool_size_].
  rewrite Z.mul_1_r, (Z.mod_small page_id) by lia.
  rewrite (Z.mod_small (Z.of_nat num_instances)) by lia. reflexivity.
Qed.

(** C1 (the code at the failing input): in a pool of four instances of three
    frames, six NewPage calls hand out pages 0 to 5; page 5 lives in instance
    1 = 5 mod 4, but GetBufferPoolManager computes index 5 = 5 mod 12, reads a
    null pointer there, and FetchPage, UnpinPage and FlushPage on page 5 go
    through it. *)
Theorem GetBufferPoolManager_routes_by_pool_capacity :
  match new_pages 6 four_instances with
  | Some (p, ids) =>
      ids = [0; 1; 2; 3; 4; 5]
      /\ resident_in p (5 mod 4) 5 = true
      /\ instance_index p 5 = 5
      /\ (GetBufferPoolManager p 5).2 = None
      /\ FetchPgImp p 5 = None
      /\ UnpinPgImp p 5 false = None
      /\ FlushPgImp p 5 = None
  | None => False
  end.
Proof. vm_compute. repeat split; reflexivity. Qed.

End ParallelFacts.

(** ** Bucket pages over int keys and values *)

Section BucketRuns.
Import HashTableBucketPage Runs.

(** C9 (counterexample): on a zeroed page and a vector that already holds 7,
    GetValue appends nothing and returns true; and on a page whose slot 0 is
    readable, holds key 1, and has no occupied bit, GetValue for key 1
    appends nothing. *)
Lemma GetValue_flag_counts_earlier_values :
  int_bucket_GetValue int_zero_page 1 [7] = ([7], true)
  /\ IsReadable readable_unoccupied_page 0 = true
  /\ key_matches IntComparator (0, 0) readable_unoccupied_page 0 1 = true
  /\ int_bucket_GetValue readable_unoccupied_page 1 [] = ([], false).
Proof. vm_compute. repeat split; reflexivity. Qed.

(** C10 (witness): the page reached by Insert(1, 2) on a zeroed page. *)
Lemma reachable_occupied_prefix_witness :
  let b := (int_bucket_Insert int_zero_page 1 2).1 in
  reachable capacity IntComparator Z.eqb (0, 0) (0, 0) b
  /\ (exists p, occupied_prefix capacity b p)
  /\ (forall key (out : list Z),
        (GetValue capacity IntComparator (0, 0) b key out).1
        = out ++ readable_values capacity IntComparator (0, 0) b key).
Proof.
  cbv zeta.
  assert (Hr : reachable capacity IntComparator Z.eqb (0, 0) (0, 0)
                 (int_bucket_Insert int_zero_page 1 2).1)
    by (apply reachable_Insert, reachable_zero).
  split; [exact Hr |].
  pose proof (reachable_occupied_prefix capacity IntComparator Z.eqb (0, 0) (0, 0) _ Hr)
    as (Hp & _ & Hg & _).
  split; [exact Hp | exact Hg].
Defined.

End BucketRuns.

(** ** The directory page and the index *)

Section DirectoryFacts.
Import HashTableDirectoryPage.

Lemma Size_nonneg (d : t) : 0 <= Size d.
Proof. unfold Size. apply Z.shiftl_nonneg. lia. Qed.

Lemma CanShrink_true (d : t) :
  CanShrink d = true
  <-> forall i, 0 <= i < Size d -> GetLocalDepth d i < GetGlobalDepth d.
Proof.
  unfold CanShrink, GetGlobalDepth. rewrite forallb_forall. split.
  - intros H i Hi. specialize (H (Z.to_nat i)).
    rewrite Z2Nat.id in H by lia. apply Z.ltb_lt, H, in_seq. lia.
  - intros H n Hn. apply in_seq in Hn. apply Z.ltb_lt, H.
    pose proof (Size_nonneg d). lia.
Qed.

Lemma in_slots (d : t) (i : Z) :
  0 <= i < Size d -> In i (map Z.of_nat (seq 0 (Z.to_nat (Size d)))).
Proof.
  intros Hi. apply in_map_iff. exists (Z.to_nat i). split; [lia |].
  apply in_seq. lia.
Qed.

Lemma coalescedb_true (d : t) : coalescedb d = true -> coalesced d.
Proof.
  unfold coalescedb, coalesced. cbv zeta. rewrite forallb_forall.
  intros H i j Hi Hj Hmod Hld.
  specialize (H i (in_slots d i Hi)). rewrite forallb_forall in H.
  specialize (H j (in_slots d j Hj)).
  rewrite Hmod, Hld, !Z.eqb_refl in H. cbn in H. apply Z.eqb_eq, H.
Qed.

Lemma DecrGlobalDepth_local_depths (d : t) :
  local_depths_ (DecrGlobalDepth d) = local_depths_ d.
Proof. unfold DecrGlobalDepth. destruct (CanShrink d); reflexivity. Qed.

Lemma DecrGlobalDepth_shrinks (d : t) :
  (forall i, 0 <= i < Size d -> GetLocalDepth d i < GetGlobalDepth d) ->
  GetGlobalDepth (DecrGlobalDepth d) = GetGlobalDepth d - 1.
Proof.
  intros H. apply CanShrink_true in H. unfold DecrGlobalDepth. rewrite H. reflexivity.
Qed.

Lemma DecrGlobalDepth_changed (d : t) :
  GetGlobalDepth (DecrGlobalDepth d) <> GetGlobalDepth d ->
  forall i, 0 <= i < Size d -> GetLocalDepth d i < GetGlobalDepth d.
Proof.
  intros H. apply CanShrink_true. unfold DecrGlobalDepth in H.
  destruct (CanShrink d); [reflexivity | contradiction].
Qed.

Lemma DecrGlobalDepth_keeps (d : t) :
  (exists i, 0 <= i < Size d /\ GetLocalDepth d i = GetGlobalDepth d) ->
  GetGlobalDepth (DecrGlobalDepth d) = GetGlobalDepth d.
Proof.
  intros (i & Hi & Heq). unfold DecrGlobalDepth.
  destruct (CanShrink d) eqn:Hc; [| reflexivity].
  pose proof (proj1 (CanShrink_true d) Hc i Hi). lia.
Qed.

End DirectoryFacts.

Section IndexFacts.
Import ExtendibleHashTable.
Context {K V : Type}.
Variable BUCKET_ARRAY_SIZE : nat.
Variable zeroed_mapping : K * V.
Variable hash_fn : K -> Z.

Local Abbreviation Merge_round := (Merge_round BUCKET_ARRAY_SIZE zeroed_mapping hash_fn).
Local Abbreviation KeyToDirectoryIndex := (KeyToDirectoryIndex hash_fn).

Lemma sweep_down_global_depth (body : Dir.t -> Z -> Dir.t) :
  (forall d idx, Dir.global_depth_ (body d idx) = Dir.global_depth_ d) ->
  forall n step d idx,
    Dir.global_depth_ (sweep_down n body step d idx) = Dir.global_depth_ d.
Proof.
  intros Hbody. induction n as [| n IH]; intros step d idx; cbn [sweep_down].
  - reflexivity.
  - destruct (idx <? step); [apply Hbody |]. rewrite IH. apply Hbody.
Qed.

Lemma sweep_up_global_depth (body : Dir.t -> Z -> Dir.t) :
  (forall d idx, Dir.global_depth_ (body d idx) = Dir.global_depth_ d) ->
  forall n step d idx,
    Dir.global_depth_ (sweep_up n body step d idx) = Dir.global_depth_ d.
Proof.
  intros Hbody. induction n as [| n IH]; intros step d idx; cbn [sweep_up].
  - reflexivity.
  - destruct (idx <? Dir.Size d); [| reflexivity]. rewrite IH. apply Hbody.
Qed.

(** The rounds given to the sweeps are enough: with a positive step the
    downward sweep breaks, and the upward sweep leaves the directory, before
    they run out, so more rounds change nothing. *)
Lemma sweep_down_rounds (body : Dir.t -> Z -> Dir.t) (step : Z) :
  0 < step ->
  forall n m d idx,
    0 <= idx -> (Z.to_nat idx < n)%nat -> (Z.to_nat idx < m)%nat ->
    sweep_down n body step d idx = sweep_down m body step d idx.
Proof.
  intros Hstep. induction n as [| n IH]; intros m d idx Hidx Hn Hm; [lia |].
  destruct m as [| m]; [lia |]. cbn [sweep_down].
  destruct (Z.ltb_spec idx step); [reflexivity |].
  apply IH; lia.
Qed.

Lemma sweep_up_rounds (body : Dir.t -> Z -> Dir.t) (step : Z) :
  0 < step ->
  (forall d idx, Dir.global_depth_ (body d idx) = Dir.global_depth_ d) ->
  forall n m d idx,
    (Z.to_nat (Dir.Size d - idx) <= n)%nat -> (Z.to_nat (Dir.Size d - idx) <= m)%nat ->
    sweep_up n body step d idx = sweep_up m body step d idx.
Proof.
  intros Hstep Hbody.
  assert (Hsize : forall d idx, Dir.Size (body d idx) = Dir.Size d)
    by (intros d idx; unfold Dir.Size; now rewrite Hbody).
  induction n as [| n IH]; intros m d idx Hn Hm.
  - destruct m as [| m]; [reflexivity |]. cbn [sweep_up].
    destruct (Z.ltb_spec idx (Dir.Size d)); [lia | reflexivity].
  - destruct m as [| m]; cbn [sweep_up].
    + destruct (Z.ltb_spec idx (Dir.Size d)); [lia | reflexivity].
    + destruct (Z.ltb_spec idx (Dir.Size d)); [| reflexivity].
      apply IH; rewrite Hsize; lia.
Qed.

Lemma sweep_rounds_suffice (body : Dir.t -> Z -> Dir.t) (step : Z) (d : Dir.t)
      (start : Z) (n : nat) :
  0 < step ->
  (forall d idx, Dir.global_depth_ (body d idx) = Dir.global_depth_ d) ->
  0 <= start < Dir.Size d ->
  (S (Z.to_nat (Dir.Size d)) <= n)%nat ->
  sweep_up n body step (sweep_down n body step d start) start = sweep body step d start.
Proof.
  intros Hstep Hbody Hstart Hn. unfold sweep. cbv zeta.
  rewrite (sweep_down_rounds body step Hstep n (S (Z.to_nat (Dir.Size d))) d start)
    by lia.
  apply sweep_up_rounds; try assumption;
    unfold Dir.Size; rewrite sweep_down_global_depth by assumption;
    fold (Dir.Size d); lia.
Qed.

Lemma coalesce_global_depth (d : Dir.t) (directory_idx : Z) :
  Dir.GetGlobalDepth (coalesce d directory_idx) = Dir.GetGlobalDepth d.
Proof.
  unfold coalesce, sweep, Dir.GetGlobalDepth. cbv zeta.
  rewrite sweep_up_global_depth, sweep_down_global_depth by reflexivity.
  reflexivity.
Qed.

(** C3: a round of Merge that coalesces an empty bucket into its split image
    of equal depth decrements the global depth only when every directory
    slot then has a local depth below the global depth; when some slot is
    left with a local depth equal to the global depth, the global depth stays
    as it was.  The local depths are those the coalescing left. *)
Theorem Merge_round_shrinks_only_below_global_depth
        (h h' : t K V) (key : K) :
  Merge_round h key = Some h' ->
  let c := coalesce (dir_page_ h) (KeyToDirectoryIndex key (dir_page_ h)) in
  Dir.GetGlobalDepth c = Dir.GetGlobalDepth (dir_page_ h)
  /\ Dir.local_depths_ (dir_page_ h') = Dir.local_depths_ c
  /\ ((forall i, 0 <= i < Dir.Size c -> Dir.GetLocalDepth c i < Dir.GetGlobalDepth c) ->
      Dir.GetGlobalDepth (dir_page_ h') = Dir.GetGlobalDepth (dir_page_ h) - 1)
  /\ (Dir.GetGlobalDepth (dir_page_ h') <> Dir.GetGlobalDepth (dir_page_ h) ->
      forall i, 0 <= i < Dir.Size c -> Dir.GetLocalDepth c i < Dir.GetGlobalDepth c)
  /\ ((exists i, 0 <= i < Dir.Size c /\ Dir.GetLocalDepth c i = Dir.GetGlobalDepth c) ->
      Dir.GetGlobalDepth (dir_page_ h') = Dir.GetGlobalDepth (dir_page_ h)).
Proof.
  unfold ExtendibleHashTable.Merge_round. cbv zeta.
  destruct (negb (Bucket.IsEmpty _)); [discriminate |].
  destruct (_ || _)%bool; [discriminate |].
  intros [= <-]. cbn [dir_page_].
  set (c := coalesce (dir_page_ h) (KeyToDirectoryIndex key (dir_page_ h))).
  pose proof (coalesce_global_depth (dir_page_ h) (KeyToDirectoryIndex key (dir_page_ h)))
    as Hgd. fold c in Hgd.
  split; [exact Hgd |]. split; [apply DecrGlobalDepth_local_depths |].
  rewrite <- Hgd. split; [apply DecrGlobalDepth_shrinks |].
  split; [apply DecrGlobalDepth_changed | apply DecrGlobalDepth_keeps].
Qed.

End IndexFacts.

Section IndexRuns.
Import ExtendibleHashTable Runs.

Lemma insert_keys_reachable (n : nat) (h : t Z Z) (keys : list Z) :
  int_reachable n h -> int_reachable n (insert_keys n h keys).
Proof.
  revert h. induction keys as [| key keys IH]; intros h Hh; cbn [insert_keys fold_left].
  - exact Hh.
  - apply IH. apply reachable_Insert, Hh.
Qed.

Lemma depth_three_table_reachable (n : nat) : int_reachable n (depth_three_table n).
Proof. apply insert_keys_reachable, reachable_init. Qed.

(** C3 (witness): at global depth 2, the empty split image under slot 2 is
    coalesced into the bucket of slot 0; every local depth is then 1, and
    the global depth goes from 2 to 1. *)
Lemma Merge_round_shrinks_witness :
  int_Merge_round empty_split_image_table 2 = Some merged_table
  /\ Dir.GetGlobalDepth (dir_page_ empty_split_image_table) = 2
  /\ Dir.GetGlobalDepth (dir_page_ merged_table)
     = Dir.GetGlobalDepth (dir_page_ empty_split_image_table) - 1.
Proof.
  assert (Hround : Merge_round capacity (0, 0) id empty_split_image_table 2
                   = Some merged_table) by (vm_compute; reflexivity).
  split; [exact Hround |]. split; [vm_compute; reflexivity |].
  pose proof (Merge_round_shrinks_only_below_global_depth
                capacity (0, 0) id empty_split_image_table merged_table 2 Hround) as H.
  cbv zeta in H. destruct H as (_ & _ & Hshrink & _).
  apply Hshrink. apply CanShrink_true. vm_compute. reflexivity.
Defined.

(** C2 (the code at the failing input): the table is reachable, the bucket
    under slots 1, 3, 5 and 7 (page 2) has local depth 1 and is full, and
    Insert(1001, 10010), whose key hashes to directory index 1, splits it
    with split image 3 and returns true.  Slots 3 and 7 get the new page 5 and depth 2, slot 1 keeps page 2
    with depth 2, and slot 5, whose low two bits equal those of slot 1, keeps
    page 2 with local depth 1.  The directory satisfies the coalescing
    invariant before the split. *)
Theorem SplitInsert_leaves_congruent_slot_depth :
  int_reachable capacity (depth_three_table capacity)
  /\ Dir.coalesced (dir_page_ (depth_three_table capacity))
  /\ split_report capacity
     = (true, 1, [1; 1; 1; 1], [2; 2; 2; 2], 3, [2; 5; 2; 5], [2; 2; 1; 2])
  /\ Z.land 5 (2 ^ 2 - 1) = Z.land 1 (2 ^ 2 - 1).
Proof.
  split; [apply depth_three_table_reachable |].
  split; [apply coalescedb_true; vm_compute; reflexivity |].
  split; vm_compute; reflexivity.
Qed.

(** C4 (the code at the failing input): in the same reachable table
    Insert(1007, 10070) returns true, and the GetValue(1007) that follows on
    an empty vector finds nothing and returns false: directory index 7 still
    points at the old page 2, while the pair went to the new page 5, which
    slots 1 and 5 point at. *)
Theorem Insert_true_then_GetValue_finds_nothing :
  int_reachable capacity (depth_three_table capacity)
  /\ round_trip_report capacity = (true, ([], false), 7, [5; 2; 5; 2], [10070]).
Proof.
  split; [apply depth_three_table_reachable |].
  vm_compute; reflexivity.
Qed.

(** Both runs end the same way with buckets of 56 slots: the capacity plays
    no part in them. *)
Lemma split_and_round_trip_with_larger_buckets :
  int_reachable larger_capacity (depth_three_table larger_capacity)
  /\ larger_reports
     = ((true, 1, [1; 1; 1; 1], [2; 2; 2; 2], 3, [2; 5; 2; 5], [2; 2; 1; 2]),
        (true, ([], false), 7, [5; 2; 5; 2], [10070])).
Proof.
  split; [apply depth_three_table_reachable |].
  vm_compute. reflexivity.
Qed.

End IndexRuns.

(** ** Lock manager *)

Section LockFacts.
Import LockManager.

Lemma state_of_Some (s : t) (txn_id : Z) (st : TransactionState) :
  state_of s txn_id = Some st ->
  exists txn, txn_map s !! txn_id = Some txn /\ state_ txn = st.
Proof.
  unfold state_of. destruct (txn_map s !! txn_id) as [txn |]; cbn; [| discriminate].
  intros [= <-]. eauto.
Qed.

Lemma isolation_of_Some (s : t) (txn_id : Z) (txn : Transaction) (lv : IsolationLevel) :
  isolation_of s txn_id = Some lv -> txn_map s !! txn_id = Some txn ->
  isolation_level_ txn = lv.
Proof. unfold isolation_of. intros H Ht. rewrite Ht in H. cbn in H. congruence. Qed.

Lemma state_of_set_txn (s : t) (txn_id : Z) (txn : Transaction) :
  state_of (set_txn s txn_id txn) txn_id = Some (state_ txn).
Proof. unfold state_of, set_txn. cbn [txn_map]. rewrite lookup_insert_eq. reflexivity. Qed.

Lemma Unlock_starts_shrinking (s s' : t) (txn_id : Z) (rid : RID) :
  isolation_of s txn_id = Some REPEATABLE_READ ->
  state_of s txn_id = Some GROWING ->
  Unlock s txn_id rid = Some (s', true) ->
  state_of s' txn_id = Some SHRINKING.
Proof.
  intros Hiso Hst. apply state_of_Some in Hst as (txn & Ht & Hs).
  pose proof (isolation_of_Some _ _ _ _ Hiso Ht) as Hlv.
  unfold Unlock. rewrite Ht. cbn [mbind option_bind].
  destruct (negb (IsExclusiveLocked txn rid) && negb (IsSharedLocked txn rid))%bool;
    [intros [= _ ?]; discriminate |].
  destruct (erase_request txn_id _) as [queue is_found].
  destruct is_found; cbn [negb]; [| intros [= _ ?]; discriminate].
  intros [= <-]. rewrite state_of_set_txn. cbn [state_].
  rewrite Hlv, Hs. reflexivity.
Qed.

Lemma LockShared_on_shrinking (s : t) (txn_id : Z) (rid : RID) :
  isolation_of s txn_id = Some REPEATABLE_READ ->
  state_of s txn_id = Some SHRINKING ->
  exists s', LockShared s txn_id rid = Some (s', Thrown txn_id LOCK_ON_SHRINKING)
             /\ state_of s' txn_id = Some ABORTED.
Proof.
  intros Hiso Hst. apply state_of_Some in Hst as (txn & Ht & Hs).
  pose proof (isolation_of_Some _ _ _ _ Hiso Ht) as Hlv.
  unfold LockShared. rewrite Ht. cbn [mbind option_bind]. rewrite Hs, Hlv.
  cbn. eexists. split; [reflexivity |]. apply state_of_set_txn.
Qed.

Lemma LockExclusive_on_shrinking (s : t) (txn_id : Z) (rid : RID) :
  isolation_of s txn_id = Some REPEATABLE_READ ->
  state_of s txn_id = Some SHRINKING ->
  exists s', LockExclusive s txn_id rid = Some (s', Thrown txn_id LOCK_ON_SHRINKING)
             /\ state_of s' txn_id = Some ABORTED.
Proof.
  intros Hiso Hst. apply state_of_Some in Hst as (txn & Ht & Hs).
  pose proof (isolation_of_Some _ _ _ _ Hiso Ht) as Hlv.
  unfold LockExclusive. rewrite Ht. cbn [mbind option_bind]. rewrite Hs, Hlv.
  cbn. eexists. split; [reflexivity |]. apply state_of_set_txn.
Qed.

End LockFacts.

Section LockRuns.
Import LockManager Runs.

(** C8: under REPEATABLE_READ an Unlock that releases a lock moves a
    GROWING transaction to SHRINKING; every LockShared and LockExclusive of
    a SHRINKING transaction throws TransactionAbortException with reason
    LOCK_ON_SHRINKING and leaves the transaction ABORTED; and the run
    LockShared(rid1), LockExclusive(rid2), Unlock(rid1), LockShared(rid3) of
    one transaction ends with that exception and the state ABORTED. *)
Theorem locking_after_unlock_aborts_under_repeatable_read :
  (forall (s s' : t) (txn_id : Z) (rid : RID),
      isolation_of s txn_id = Some REPEATABLE_READ ->
      state_of s txn_id = Some GROWING ->
      Unlock s txn_id rid = Some (s', true) ->
      state_of s' txn_id = Some SHRINKING)
  /\ (forall (s : t) (txn_id : Z) (rid : RID),
         isolation_of s txn_id = Some REPEATABLE_READ ->
         state_of s txn_id = Some SHRINKING ->
         (exists s', LockShared s txn_id rid = Some (s', Thrown txn_id LOCK_ON_SHRINKING)
                     /\ state_of s' txn_id = Some ABORTED)
         /\ (exists s', LockExclusive s txn_id rid = Some (s', Thrown txn_id LOCK_ON_SHRINKING)
                        /\ state_of s' txn_id = Some ABORTED))
  /\ (LockShared two_transactions 1 rid1 ≫= (fun r => Some r.2) = Some (Returned true)
      /\ then_call (state_after (LockShared two_transactions 1 rid1))
                   (fun s => LockExclusive s 1 rid2) ≫= (fun r => Some r.2)
         = Some (Returned true)
      /\ (grown ≫= fun s => state_of s 1) = Some GROWING
      /\ unlocked = Some (shrinking, true)
      /\ state_of shrinking 1 = Some SHRINKING
      /\ exists s', LockShared shrinking 1 rid3 = Some (s', Thrown 1 LOCK_ON_SHRINKING)
                    /\ state_of s' 1 = Some ABORTED).
Proof.
  split; [exact Unlock_starts_shrinking |].
  split; [intros s txn_id rid Hiso Hst; split;
          [apply LockShared_on_shrinking | apply LockExclusive_on_shrinking]; assumption |].
  split; [vm_compute; reflexivity |]. split; [vm_compute; reflexivity |].
  split; [vm_compute; reflexivity |]. split; [vm_compute; reflexivity |].
  split; [vm_compute; reflexivity |].
  apply LockShared_on_shrinking; vm_compute; reflexivity.
Qed.

(** C8 (witness): the general parts at the run's own states. *)
Lemma locking_after_unlock_witness :
  isolation_of shrinking 1 = Some REPEATABLE_READ
  /\ state_of shrinking 1 = Some SHRINKING
  /\ (exists s', LockShared shrinking 1 rid3 = Some (s', Thrown 1 LOCK_ON_SHRINKING)
                 /\ state_of s' 1 = Some ABORTED)
  /\ (exists s', LockExclusive shrinking 1 rid3 = Some (s', Thrown 1 LOCK_ON_SHRINKING)
                 /\ state_of s' 1 = Some ABORTED).
Proof.
  assert (Hiso : isolation_of shrinking 1 = Some REPEATABLE_READ) by (vm_compute; reflexivity).
  assert (Hst : state_of shrinking 1 = Some SHRINKING) by (vm_compute; reflexivity).
  split; [exact Hiso |]. split; [exact Hst |].
  exact (proj1 (proj2 locking_after_unlock_aborts_under_repeatable_read)
               shrinking 1 rid3 Hiso Hst).
Defined.

(** C7 (the code at the failing input): transactions 1 and 2 hold granted
    shared locks on rid1, the request of transaction 1 standing first.
    LockUpgrade of transaction 1 returns true and makes its request the
    granted EXCLUSIVE one, while the request of transaction 2 stays in the
    queue, granted, transaction 2 stays GROWING, and its next lock call
    returns true. *)
Theorem LockUpgrade_keeps_younger_reader_behind :
  match two_readers with
  | Some s =>
      requests_on s rid1 = [mkRequest 1 SHARED true; mkRequest 2 SHARED true]
      /\ match LockUpgrade s 1 rid1 with
         | Some (s', r) =>
             r = Returned true
             /\ requests_on s' rid1 = [mkRequest 1 EXCLUSIVE true; mkRequest 2 SHARED true]
             /\ state_of s' 2 = Some GROWING
             /\ (LockShared s' 2 rid2 ≫= fun r => Some r.2) = Some (Returned true)
         | None => False
         end
  | None => False
  end.
Proof. vm_compute. repeat split; reflexivity. Qed.

(** When the request of transaction 2 stands first, the upgrade wounds it:
    the request leaves the queue, transaction 2 is ABORTED and its next lock
    call returns false. *)
Lemma LockUpgrade_wounds_younger_reader_ahead :
  match two_readers_younger_first with
  | Some s =>
      requests_on s rid1 = [mkRequest 2 SHARED true; mkRequest 1 SHARED true]
      /\ match LockUpgrade s 1 rid1 with
         | Some (s', r) =>
             r = Returned true
             /\ requests_on s' rid1 = [mkRequest 1 EXCLUSIVE true]
             /\ state_of s' 2 = Some ABORTED
             /\ (LockShared s' 2 rid2 ≫= fun r => Some r.2) = Some (Returned false)
         | None => False
         end
  | None => False
  end.
Proof. vm_compute. repeat split; reflexivity. Qed.

End LockRuns.

(** ** The replacer *)

Section ReplacerFacts.
Import LRUReplacer ReplacerProps.

Lemma In_erase_node (frame_id x : nat) (l : list nat) :
  List.NoDup l -> (In x (erase_node frame_id l) <-> In x l /\ x <> frame_id).
Proof.
  induction l as [| f l IH]; intros Hnd; cbn [erase_node].
  - cbn. tauto.
  - apply List.NoDup_cons_iff in Hnd as [Hf Hnd].
    destruct (Nat.eqb_spec f frame_id) as [-> | Hne].
    + cbn [In]. split.
      * intros Hx. split; [now right |]. intros ->. contradiction.
      * intros [[<- | Hx] Hxf]; [contradiction | exact Hx].
    + cbn [In]. rewrite (IH Hnd). split.
      * intros [<- | [Hx Hxf]]; [split; [now left | exact Hne] | split; [now right | exact Hxf]].
      * intros [[<- | Hx] Hxf]; [now left | right; split; assumption].
Qed.

Lemma NoDup_erase_node (frame_id : nat) (l : list nat) :
  List.NoDup l -> List.NoDup (erase_node frame_id l).
Proof.
  induction l as [| f l IH]; intros Hnd; cbn [erase_node]; [exact Hnd |].
  pose proof Hnd as Hnd'. apply List.NoDup_cons_iff in Hnd as [Hf Hnd].
  destruct (Nat.eqb f frame_id); [exact Hnd |].
  apply List.NoDup_cons_iff. split; [| apply IH, Hnd].
  intros Hin. apply In_erase_node in Hin as [Hin _]; [contradiction | exact Hnd].
Qed.

Lemma erase_node_last (frame_id : nat) (l : list nat) :
  ~ In frame_id l -> erase_node frame_id (l ++ [frame_id]) = l.
Proof.
  induction l as [| f l IH]; intros Hnin; cbn [erase_node app].
  - now rewrite Nat.eqb_refl.
  - destruct (Nat.eqb_spec f frame_id) as [-> | Hne].
    + exfalso. apply Hnin. now left.
    + f_equal. apply IH. intros Hin. apply Hnin. now right.
Qed.

Lemma existsb_eqb_In (frame_id : nat) (l : list nat) :
  existsb (Nat.eqb frame_id) l = true <-> In frame_id l.
Proof.
  rewrite existsb_exists. split.
  - intros (x & Hx & Heq). apply Nat.eqb_eq in Heq. now subst.
  - intros H. exists frame_id. split; [exact H | apply Nat.eqb_refl].
Qed.

Lemma init_inv : replacer_inv init.
Proof.
  split; [constructor |]. intros f. cbn. split; [| intros []].
  intros H. now apply not_elem_of_empty in H.
Qed.

Lemma Victim_inv (r : t) : replacer_inv r -> replacer_inv (Victim r).1.
Proof.
  intros [Hnd Hmap]. unfold Victim.
  destruct (frame_id_list_ r) as [| f rest] eqn:Hl; cbn [fst].
  - split; [rewrite Hl; constructor |]. rewrite Hl. exact Hmap.
  - apply List.NoDup_cons_iff in Hnd as [Hf Hnd].
    split; [exact Hnd |]. intros x. cbn [location_map_ frame_id_list_].
    rewrite elem_of_difference, Hmap, not_elem_of_singleton. cbn [In]. split.
    + intros [[<- | Hx] Hne]; [contradiction | exact Hx].
    + intros Hx. split; [now right |]. intros ->. contradiction.
Qed.

Lemma Pin_inv (r : t) (frame_id : nat) : replacer_inv r -> replacer_inv (Pin r frame_id).
Proof.
  intros [Hnd Hmap]. unfold Pin.
  destruct (frame_id_list_ r) as [| f rest] eqn:Hl; [split; [now rewrite Hl |];
    now rewrite Hl |].
  destruct (decide (frame_id ∈ location_map_ r)) as [Hin | Hnin];
    [| split; [now rewrite Hl | now rewrite Hl]].
  rewrite <- Hl in *. split; cbn [location_map_ frame_id_list_].
  - apply NoDup_erase_node, Hnd.
  - intros x. rewrite elem_of_difference, Hmap, not_elem_of_singleton.
    symmetry. apply In_erase_node, Hnd.
Qed.

Lemma Unpin_inv (r : t) (frame_id : nat) :
  replacer_inv r -> replacer_inv (Unpin r frame_id).
Proof.
  intros [Hnd Hmap]. unfold Unpin.
  destruct (existsb (Nat.eqb frame_id) (frame_id_list_ r)) eqn:Hex; [now split |].
  assert (Hnin : ~ In frame_id (frame_id_list_ r)).
  { intros Hin. apply existsb_eqb_In in Hin. congruence. }
  split; cbn [location_map_ frame_id_list_].
  - apply List.NoDup_app; [exact Hnd | repeat constructor; intros [] |].
    intros x Hx [<- | []]. contradiction.
  - intros x. rewrite elem_of_union, elem_of_singleton, Hmap, in_app_iff. cbn [In].
    split; [intros [-> | Hx]; [right; now left | now left]
           | intros [Hx | [<- | []]]; [now right | now left]].
Qed.

(** X1: After any sequence of Victim, Pin and Unpin calls on a new replacer, the
    list holds no frame twice and location_map_ has a key for exactly the
    frames of the list. *)
Theorem replacer_keeps_list_and_map_in_step (calls : list call) :
  replacer_inv (fold_left run_call calls init).
Proof.
  assert (H : forall r, replacer_inv r -> replacer_inv (fold_left run_call calls r)).
  { induction calls as [| c calls IH]; intros r Hr; cbn [fold_left]; [exact Hr |].
    apply IH. destruct c; cbn [run_call];
      [apply Victim_inv | apply Pin_inv | apply Unpin_inv]; exact Hr. }
  apply H, init_inv.
Qed.

End ReplacerFacts.

Section ReplacerOrder.
Import LRUReplacer ReplacerProps.

Lemma Unpin_new_frame (r : t) (frame_id : nat) :
  ~ In frame_id (frame_id_list_ r) ->
  Unpin r frame_id = mk (frame_id_list_ r ++ [frame_id]) ({[frame_id]} ∪ location_map_ r).
Proof.
  intros Hnin. unfold Unpin.
  destruct (existsb (Nat.eqb frame_id) (frame_id_list_ r)) eqn:Hex; [| reflexivity].
  apply existsb_eqb_In in Hex. contradiction.
Qed.

(** X2: Unpin of a frame the replacer does not hold, then Pin of that frame,
    gives back the replacer as it was. *)
Theorem Pin_undoes_Unpin (r : t) (frame_id : nat) :
  replacer_inv r -> ~ In frame_id (frame_id_list_ r) ->
  Pin (Unpin r frame_id) frame_id = r.
Proof.
  intros [Hnd Hmap] Hnin. rewrite Unpin_new_frame by exact Hnin.
  unfold Pin. cbn [frame_id_list_ location_map_].
  destruct (frame_id_list_ r ++ [frame_id]) as [| f rest] eqn:Happ.
  { apply app_eq_nil in Happ as [_ Hcontra]. discriminate. }
  rewrite <- Happ. clear Happ f rest.
  destruct (decide (frame_id ∈ {[frame_id]} ∪ location_map_ r)) as [_ | Hcontra];
    [| exfalso; apply Hcontra; set_solver].
  rewrite erase_node_last by exact Hnin.
  assert (Hm : ({[frame_id]} ∪ location_map_ r) ∖ {[frame_id]} = location_map_ r).
  { assert (frame_id ∉ location_map_ r) by (rewrite Hmap; exact Hnin). set_solver. }
  rewrite Hm. destruct r; reflexivity.
Qed.

(** X2 (witness): frame 1 is in the replacer; frame 2 is unpinned and pinned again. *)
Lemma Pin_undoes_Unpin_witness :
  Pin (Unpin (Unpin init 1) 2) 2 = Unpin init 1.
Proof.
  apply Pin_undoes_Unpin.
  - apply Unpin_inv, init_inv.
  - vm_compute. intros [H | []]. discriminate.
Defined.

Lemma unpinned_list (fs : list nat) :
  forall r : t,
    List.NoDup fs -> (forall f, In f fs -> ~ In f (frame_id_list_ r)) ->
    frame_id_list_ (fold_left Unpin fs r) = frame_id_list_ r ++ fs.
Proof.
  induction fs as [| f fs IH]; intros r Hnd Hfresh; cbn [fold_left].
  - symmetry. apply app_nil_r.
  - apply List.NoDup_cons_iff in Hnd as [Hf Hnd].
    rewrite IH.
    + rewrite Unpin_new_frame by (apply Hfresh; now left).
      cbn [frame_id_list_]. rewrite <- app_assoc. reflexivity.
    + exact Hnd.
    + intros x Hx. rewrite Unpin_new_frame by (apply Hfresh; now left).
      cbn [frame_id_list_]. rewrite in_app_iff. cbn [In].
      intros [Hin | [<- | []]]; [| contradiction].
      apply (Hfresh x); [now right | exact Hin].
Qed.

Lemma empty_replacer (r : t) : replacer_inv r -> frame_id_list_ r = [] -> r = init.
Proof.
  intros [_ Hmap] Hl. destruct r as [l m]. cbn in *. subst l. unfold init. f_equal.
  apply set_eq. intros x. rewrite Hmap. cbn. split; [intros [] |].
  intros H. now apply not_elem_of_empty in H.
Qed.

Lemma victims_drain (n : nat) :
  forall r : t,
    replacer_inv r -> length (frame_id_list_ r) = n ->
    victims (S n) r = (frame_id_list_ r, init).
Proof.
  induction n as [| n IH]; intros r Hinv Hlen.
  - destruct (frame_id_list_ r) as [| f rest] eqn:Hl; [| discriminate].
    cbn [victims]. unfold Victim. rewrite Hl. f_equal. apply empty_replacer; assumption.
  - destruct (frame_id_list_ r) as [| f rest] eqn:Hl; [discriminate |].
    pose proof (Victim_inv r Hinv) as Hinv'.
    change (victims (S (S n)) r)
      with (match Victim r with
            | (r', Some frame_id) =>
                let '(l, r'') := victims (S n) r' in (frame_id :: l, r'')
            | (r', None) => ([], r')
            end).
    unfold Victim in *. rewrite Hl in *. cbn [fst] in Hinv'.
    rewrite (IH _ Hinv') by (cbn in *; lia). reflexivity.
Qed.

(** X3: Strict LRU by unpin time: when distinct frames are unpinned into a new
    replacer, the Victim calls give them back in the order of the Unpin
    calls; one call more finds no victim, and the replacer is as new. *)
Theorem victims_come_out_in_unpin_order (fs : list nat) :
  List.NoDup fs ->
  victims (S (length fs)) (fold_left Unpin fs init) = (fs, init).
Proof.
  intros Hnd.
  assert (Hl : frame_id_list_ (fold_left Unpin fs init) = fs).
  { rewrite unpinned_list; [reflexivity | exact Hnd | intros f _ []]. }
  rewrite <- Hl at 2. rewrite <- Hl at 3. rewrite Hl at 1.
  rewrite <- (f_equal (@length nat) Hl) at 1.
  apply victims_drain; [| reflexivity].
  assert (H : forall r, replacer_inv r -> replacer_inv (fold_left Unpin fs r)).
  { clear. induction fs as [| f fs IH]; intros r Hr; cbn [fold_left]; [exact Hr |].
    apply IH, Unpin_inv, Hr. }
  apply H, init_inv.
Qed.

(** X3 (witness): frames 3, 1, 2 unpinned in that order. *)
Lemma victims_come_out_in_unpin_order_witness :
  victims 4 (fold_left Unpin [3; 1; 2]%nat init) = ([3; 1; 2]%nat, init).
Proof.
  apply (victims_come_out_in_unpin_order [3; 1; 2]%nat).
  repeat constructor; cbn; intuition discriminate.
Defined.

End ReplacerOrder.

(** ** Bucket pages: what Insert, GetValue and Remove do together *)

Section BucketPairs.
Import HashTableBucketPage.
Context {K V : Type}.
Variable BUCKET_ARRAY_SIZE : nat.
Variable cmp : K -> K -> Z.
Variable value_eq : V -> V -> bool.
Variable default_mapping zeroed_mapping : K * V.

Local Abbreviation bucket := (bucket K V).
Local Abbreviation GetValue := (GetValue BUCKET_ARRAY_SIZE cmp zeroed_mapping).
Local Abbreviation key_matches := (key_matches cmp zeroed_mapping).
Local Abbreviation pair_matches := (pair_matches cmp value_eq zeroed_mapping).
Local Abbreviation Insert := (Insert BUCKET_ARRAY_SIZE cmp value_eq zeroed_mapping).
Local Abbreviation Insert_loop := (Insert_loop cmp value_eq zeroed_mapping).
Local Abbreviation Remove := (Remove BUCKET_ARRAY_SIZE cmp value_eq default_mapping zeroed_mapping).
Local Abbreviation Remove_loop := (Remove_loop cmp value_eq default_mapping zeroed_mapping).
Local Abbreviation IsRepeat := (IsRepeat BUCKET_ARRAY_SIZE cmp value_eq zeroed_mapping).
Local Abbreviation reachable :=
  (reachable BUCKET_ARRAY_SIZE cmp value_eq default_mapping zeroed_mapping).
Local Abbreviation bucket_inv := (bucket_inv BUCKET_ARRAY_SIZE).
Local Abbreviation readable_pair := (readable_pair BUCKET_ARRAY_SIZE cmp value_eq zeroed_mapping).
Local Abbreviation value_if_match := (value_if_match cmp zeroed_mapping).

Implicit Types (b : bucket) (key : K) (value : V) (n i j : nat).

(** The scan of Insert in one piece: the early return on a duplicate pair,
    otherwise the first slot that is not readable. *)
Lemma Insert_loop_find b key value n :
  forall i (free_slot : option nat),
    Insert_loop b key value n i free_slot
    = if existsb (fun j => IsReadable b j && pair_matches b j key value) (seq i n)
      then None
      else Some (match free_slot with
                 | Some f => Some f
                 | None => find (fun j => negb (IsReadable b j)) (seq i n)
                 end).
Proof.
  induction n as [| n IH]; intros i free_slot;
    cbn [HashTableBucketPage.Insert_loop seq existsb find].
  - destruct free_slot; reflexivity.
  - destruct (IsReadable b i) eqn:Hr; cbn [andb negb orb].
    + destruct (pair_matches b i key value); cbn [orb]; [reflexivity | apply IH].
    + rewrite IH. destruct (existsb _ (seq (S i) n)); [reflexivity |].
      destruct free_slot; reflexivity.
Qed.

Lemma readable_pair_true b key value :
  readable_pair b key value = true
  <-> exists i, (i < BUCKET_ARRAY_SIZE)%nat /\ IsReadable b i = true
                /\ pair_matches b i key value = true.
Proof.
  unfold HashTableBucketPage.readable_pair. rewrite existsb_exists. split.
  - intros (i & Hi & Hm). apply in_seq in Hi. apply andb_true_iff in Hm as [Hr Hp].
    exists i. repeat split; try assumption; lia.
  - intros (i & Hi & Hr & Hp). exists i. split; [apply in_seq; lia |].
    now rewrite Hr, Hp.
Qed.

Lemma find_free_slot b :
  find (fun j => negb (IsReadable b j)) (seq 0 BUCKET_ARRAY_SIZE) = None
  <-> forall i, (i < BUCKET_ARRAY_SIZE)%nat -> IsReadable b i = true.
Proof.
  split.
  - intros Hnone i Hi.
    pose proof (find_none _ _ Hnone i) as H. cbv beta in H.
    apply negb_false_iff, H, in_seq. lia.
  - intros Hall. destruct (find _ _) as [f |] eqn:Hf; [| reflexivity].
    apply find_some in Hf as [Hin Hneg]. apply in_seq in Hin.
    rewrite Hall in Hneg by lia. discriminate.
Qed.

(** X4: On any page, Insert returns false exactly in two cases: a readable slot
    already holds the pair, or every slot is readable. *)
Theorem Insert_fails_on_duplicate_or_full b key value :
  (Insert b key value).2 = false
  <-> (exists i, (i < BUCKET_ARRAY_SIZE)%nat /\ IsReadable b i = true
                 /\ pair_matches b i key value = true)
      \/ (forall i, (i < BUCKET_ARRAY_SIZE)%nat -> IsReadable b i = true).
Proof.
  rewrite <- readable_pair_true, <- find_free_slot.
  unfold HashTableBucketPage.Insert, HashTableBucketPage.readable_pair.
  rewrite Insert_loop_find.
  destruct (existsb _ _); cbn [snd]; [tauto |].
  destruct (find _ _); cbn [snd]; split; intros H; try discriminate; auto.
  destruct H; discriminate.
Qed.

(** What a successful Insert leaves: the pair sits in a readable slot. *)
Lemma Insert_stores_pair b key value :
  bucket_inv b -> (Insert b key value).2 = true ->
  exists f, (f < BUCKET_ARRAY_SIZE)%nat
            /\ IsReadable (Insert b key value).1 f = true
            /\ slot zeroed_mapping (Insert b key value).1 f = (key, value).
Proof.
  intros ((Ho & Hr & Ha) & _) Hok. unfold HashTableBucketPage.Insert in *.
  rewrite Insert_loop_find in *.
  destruct (existsb _ _); [discriminate |].
  destruct (find _ _) as [f |] eqn:Hfind; [| discriminate].
  apply find_some in Hfind as [Hin _]. apply in_seq in Hin.
  exists f. cbn [fst]. split; [lia |]. split.
  - unfold IsReadable. bucket_fields. rewrite bit_is_set_bit_set.
    + now rewrite Nat.eqb_refl.
    + rewrite Hr. apply slot_in_bitmap. lia.
  - unfold slot. bucket_fields. rewrite list_lookup_insert_eq by lia. reflexivity.
Qed.

Lemma Insert_makes_pair_readable b key value :
  bucket_inv b -> cmp key key = 0 -> value_eq value value = true ->
  (Insert b key value).2 = true ->
  readable_pair (Insert b key value).1 key value = true.
Proof.
  intros Hinv Hk Hv Hok.
  destruct (Insert_stores_pair b key value Hinv Hok) as (f & Hf & Hr & Hs).
  apply readable_pair_true. exists f. split; [exact Hf |]. split; [exact Hr |].
  unfold HashTableBucketPage.pair_matches, HashTableBucketPage.key_matches, KeyAt, ValueAt.
  rewrite Hs. cbn [fst snd]. now rewrite Hk, Hv.
Qed.

(** X5: On a page reached from the zeroed page, a pair that Insert stored is
    found by the GetValue that follows, whatever the output vector held:
    the value is among those appended and the call returns true.  The
    comparator has to find a key equal to itself. *)
Theorem Insert_then_GetValue_finds_value b key value (out : list V) :
  reachable b -> cmp key key = 0 ->
  (Insert b key value).2 = true ->
  exists before after,
    (GetValue (Insert b key value).1 key out).1 = out ++ before ++ value :: after
    /\ (GetValue (Insert b key value).1 key out).2 = true.
Proof.
  intros Hreach Hk Hok.
  pose proof (reachable_inv _ _ _ _ _ _ Hreach) as Hinv.
  pose proof (reachable_inv _ _ _ _ _ _ (reachable_Insert _ _ _ _ _ b key value Hreach))
    as Hinv'.
  destruct (Insert_stores_pair b key value Hinv Hok) as (f & Hf & Hr & Hs).
  set (b' := (Insert b key value).1) in *.
  assert (Hin : In value (flat_map (value_if_match b' key) (seq 0 BUCKET_ARRAY_SIZE))).
  { apply in_flat_map. exists f. split; [apply in_seq; lia |].
    unfold HashTableBucketPage.value_if_match, HashTableBucketPage.key_matches, KeyAt, ValueAt.
    rewrite Hr, Hs. cbn [fst snd]. rewrite Hk. now left. }
  apply in_split in Hin as (before & after & Hsplit).
  assert (Hres : (GetValue b' key out).1 = out ++ before ++ value :: after).
  { unfold HashTableBucketPage.GetValue. cbn [fst]. rewrite GetValue_loop_run.
    rewrite (flat_map_run_all BUCKET_ARRAY_SIZE (value_if_match b' key) b' Hinv').
    - now rewrite Hsplit.
    - intros i Hi. unfold HashTableBucketPage.value_if_match. now rewrite Hi. }
  exists before, after. split; [exact Hres |].
  unfold HashTableBucketPage.GetValue in *. cbn [fst snd] in *. rewrite Hres.
  destruct out, before; reflexivity.
Qed.

(** X6: A second Insert of a pair that Insert has just stored returns false and
    leaves the page as it is, and IsRepeat reports the pair. *)
Theorem Insert_twice_is_rejected b key value :
  reachable b -> cmp key key = 0 -> value_eq value value = true ->
  (Insert b key value).2 = true ->
  Insert (Insert b key value).1 key value = ((Insert b key value).1, false)
  /\ IsRepeat (Insert b key value).1 key value = true.
Proof.
  intros Hreach Hk Hv Hok.
  pose proof (reachable_inv _ _ _ _ _ _ Hreach) as Hinv.
  pose proof (reachable_inv _ _ _ _ _ _ (reachable_Insert _ _ _ _ _ b key value Hreach))
    as Hinv'.
  pose proof (Insert_makes_pair_readable b key value Hinv Hk Hv Hok) as Hpair.
  set (b' := (Insert b key value).1) in *. split.
  - unfold HashTableBucketPage.Insert at 1. rewrite Insert_loop_find.
    unfold HashTableBucketPage.readable_pair in Hpair. rewrite Hpair. reflexivity.
  - unfold HashTableBucketPage.IsRepeat. rewrite IsRepeat_loop_run.
    rewrite (existsb_run_all BUCKET_ARRAY_SIZE _ b' Hinv'); [exact Hpair |].
    intros i Hi. now rewrite Hi.
Qed.

(** Removing a pair that no readable slot holds returns false and leaves
    the page as it was. *)
Lemma Remove_loop_result b key value n :
  forall i,
    Remove_loop b key value n i = (b, false)
    \/ exists idx, (idx < i + n)%nat /\ IsReadable b idx = true
         /\ Remove_loop b key value n i
            = (RemoveAt (set_slot b idx default_mapping) idx, true).
Proof.
  induction n as [| n IH]; intros i; cbn [HashTableBucketPage.Remove_loop].
  - now left.
  - destruct (negb (IsOccupied b i)); [now left |].
    destruct (IsReadable b i) eqn:Hr; cbn [andb].
    + destruct (IsOccupied b i && pair_matches b i key value).
      * right. exists i. repeat split; [lia | exact Hr].
      * destruct (IH (S i)) as [-> | (idx & Hidx & Hri & ->)]; [now left | right].
        exists idx. repeat split; [lia | exact Hri].
    + destruct (IH (S i)) as [-> | (idx & Hidx & Hri & ->)]; [now left | right].
      exists idx. repeat split; [lia | exact Hri].
Qed.

Lemma Insert_result b key value :
  Insert b key value = (b, false)
  \/ exists f, (f < BUCKET_ARRAY_SIZE)%nat /\ IsReadable b f = false
       /\ Insert b key value
          = (SetReadable (SetOccupied (set_slot b f (key, value)) f) f, true).
Proof.
  unfold HashTableBucketPage.Insert. rewrite Insert_loop_find.
  destruct (existsb _ _); [now left |].
  destruct (find _ _) as [f |] eqn:Hfind; [right | now left].
  apply find_some in Hfind as [Hin Hneg]. apply in_seq in Hin.
  exists f. repeat split; [lia | now apply negb_true_iff].
Qed.

Lemma IsReadable_after_set b f (m : K * V) j :
  bucket_inv b -> (f < BUCKET_ARRAY_SIZE)%nat ->
  IsReadable (SetReadable (SetOccupied (set_slot b f m) f) f) j
  = (Nat.eqb f j || IsReadable b j)%bool.
Proof.
  intros ((_ & Hr & _) & _) Hf. unfold IsReadable. bucket_fields.
  apply bit_is_set_bit_set. rewrite Hr. now apply slot_in_bitmap.
Qed.

Lemma IsReadable_after_RemoveAt b idx (m : K * V) j :
  bucket_inv b -> (idx < BUCKET_ARRAY_SIZE)%nat ->
  IsReadable (RemoveAt (set_slot b idx m) idx) j
  = (negb (Nat.eqb idx j) && IsReadable b j)%bool.
Proof.
  intros ((_ & Hr & _) & _) Hf. unfold IsReadable. bucket_fields.
  apply bit_is_set_bit_clear. rewrite Hr. now apply slot_in_bitmap.
Qed.

Lemma Remove_flag_on_reachable b key value :
  bucket_inv b -> (Remove b key value).2 = readable_pair b key value.
Proof.
  intros Hinv. unfold HashTableBucketPage.Remove. rewrite Remove_loop_run.
  apply (existsb_run_all BUCKET_ARRAY_SIZE _ b Hinv).
  intros i Hi. now rewrite Hi.
Qed.

(** X7: On a page reached from the zeroed page, a Remove of a pair that no
    readable slot holds returns false and leaves the page as it was. *)
Theorem Remove_of_missing_pair_changes_nothing b key value :
  reachable b -> readable_pair b key value = false ->
  Remove b key value = (b, false).
Proof.
  intros Hreach Hnone.
  pose proof (reachable_inv _ _ _ _ _ _ Hreach) as Hinv.
  pose proof (Remove_flag_on_reachable b key value Hinv) as Hflag.
  rewrite Hnone in Hflag. unfold HashTableBucketPage.Remove in *.
  destruct (Remove_loop_result b key value BUCKET_ARRAY_SIZE 0)
    as [Heq | (idx & _ & _ & Heq)]; [exact Heq |].
  rewrite Heq in Hflag. discriminate.
Qed.

(** X8: A successful Remove frees its slot: the next Insert of a pair that the
    page does not hold succeeds, also when the page was full before. *)
Theorem Remove_makes_room_for_Insert b key value key' value' :
  reachable b -> (Remove b key value).2 = true ->
  readable_pair (Remove b key value).1 key' value' = false ->
  (Insert (Remove b key value).1 key' value').2 = true.
Proof.
  intros Hreach Hok Hnew.
  pose proof (reachable_inv _ _ _ _ _ _ Hreach) as Hinv.
  unfold HashTableBucketPage.Remove in *.
  destruct (Remove_loop_result b key value BUCKET_ARRAY_SIZE 0)
    as [Heq | (idx & Hidx & Hr & Heq)]; rewrite Heq in *; [discriminate |].
  cbn [fst snd] in *.
  set (b' := RemoveAt (set_slot b idx default_mapping) idx) in *.
  unfold HashTableBucketPage.Insert. rewrite Insert_loop_find.
  unfold HashTableBucketPage.readable_pair in Hnew. rewrite Hnew.
  destruct (find _ _) eqn:Hfind; [reflexivity | exfalso].
  pose proof (proj1 (find_free_slot b') Hfind idx ltac:(lia)) as Hfull. subst b'.
  rewrite IsReadable_after_RemoveAt in Hfull by (assumption || lia).
  rewrite Nat.eqb_refl in Hfull. discriminate.
Qed.

(** *** Counting the readable slots *)

Lemma count_bits_counter (rounds : nat) :
  forall v counter, count_bits rounds v counter = counter + count_bits rounds v 0.
Proof.
  induction rounds as [| r IH]; intros v counter; cbn [count_bits].
  - lia.
  - destruct (v =? 0); [lia |]. rewrite (IH _ (counter + 1)), (IH _ (0 + 1)). lia.
Qed.

Lemma count_bits_table :
  forallb (fun v : nat =>
             count_bits 8 (Z.of_nat v) 0 =? Z.of_nat (BucketProps.set_bits (Z.of_nat v)))
          (seq 0 256) = true.
Proof. vm_compute. reflexivity. Qed.

(** The loop [while (v) { v &= (v - 1); counter++; }] adds the number of set
    bits of the char. *)
Lemma count_bits_char (v counter : Z) :
  0 <= v < 256 ->
  count_bits 8 v counter = counter + Z.of_nat (BucketProps.set_bits v).
Proof.
  intros Hv. rewrite count_bits_counter. f_equal.
  pose proof count_bits_table as Ht. rewrite forallb_forall in Ht.
  specialize (Ht (Z.to_nat v)). rewrite Z2Nat.id in Ht by lia.
  apply Z.eqb_eq, Ht, in_seq. lia.
Qed.

Lemma seq_add (k s n : nat) : seq (k + s) n = map (Nat.add k) (seq s n).
Proof.
  induction k as [| k IH]; cbn [Nat.add].
  - symmetry. apply List.map_id.
  - rewrite <- seq_shift, IH, List.map_map. reflexivity.
Qed.

Lemma filter_map_length {A B : Type} (f : B -> bool) (g : A -> B) (l : list A) :
  length (List.filter f (map g l)) = length (List.filter (fun x => f (g x)) l).
Proof.
  induction l as [| x l IH]; cbn [map List.filter]; [reflexivity |].
  destruct (f (g x)); cbn [length]; now rewrite IH.
Qed.

Lemma filter_none {A : Type} (f : A -> bool) (l : list A) :
  (forall x, In x l -> f x = false) -> List.filter f l = [].
Proof.
  induction l as [| x l IH]; intros H; cbn [List.filter]; [reflexivity |].
  rewrite (H x) by now left. apply IH. intros y Hy. apply H. now right.
Qed.

Lemma bit_is_set_head (v : Z) (arr : list Z) (i : nat) :
  (i < 8)%nat -> bit_is_set (v :: arr) i = Z.testbit v (Z.of_nat i).
Proof.
  intros Hi. rewrite bit_is_set_testbit. unfold CHAR_BIT_SIZE.
  rewrite Nat.div_small, Nat.mod_small by lia. reflexivity.
Qed.

Lemma bit_is_set_tail (v : Z) (arr : list Z) (i : nat) :
  bit_is_set (v :: arr) (8 + i) = bit_is_set arr i.
Proof.
  rewrite !bit_is_set_testbit. unfold CHAR_BIT_SIZE.
  replace (8 + i)%nat with (i + 1 * 8)%nat by lia.
  rewrite Nat.div_add, Nat.Div0.mod_add by lia.
  replace (i / 8 + 1)%nat with (S (i / 8)) by lia. reflexivity.
Qed.

(** The loop of NumReadable over a bitmap of chars counts the set bits of
    the bitmap. *)
Lemma bitmap_count (arr : list Z) :
  (forall v, In v arr -> 0 <= v < 256) ->
  forall counter,
    fold_left (fun counter v => count_bits 8 v counter) arr counter
    = counter + Z.of_nat (length (List.filter (bit_is_set arr) (seq 0 (8 * length arr)))).
Proof.
  induction arr as [| v arr IH]; intros Hbytes counter; cbn [fold_left length].
  - cbn. lia.
  - rewrite IH by (intros w Hw; apply Hbytes; now right).
    rewrite count_bits_char by (apply Hbytes; now left).
    replace (8 * S (length arr))%nat with (8 + 8 * length arr)%nat by lia.
    rewrite seq_app, List.filter_app, List.length_app.
    rewrite (List.filter_ext_in (bit_is_set (v :: arr))
               (fun k : nat => Z.testbit v (Z.of_nat k)) (seq 0 8))
      by (intros i Hi; apply in_seq in Hi; apply bit_is_set_head; lia).
    change (0 + 8)%nat with (8 + 0)%nat. rewrite seq_add, filter_map_length.
    rewrite (List.filter_ext (fun x : nat => bit_is_set (v :: arr) (8 + x)) (bit_is_set arr))
      by (intros i; apply bit_is_set_tail).
    unfold BucketProps.set_bits, CHAR_BIT_SIZE. lia.
Qed.

Lemma bitmap_covers_slots : (BUCKET_ARRAY_SIZE <= 8 * bitmap_size BUCKET_ARRAY_SIZE)%nat.
Proof.
  unfold bitmap_size.
  pose proof (Nat.div_mod_eq (BUCKET_ARRAY_SIZE - 1) 8).
  pose proof (Nat.mod_upper_bound (BUCKET_ARRAY_SIZE - 1) 8). lia.
Qed.

Lemma NumReadable_count b :
  bucket_inv b -> BucketProps.bitmap_inv BUCKET_ARRAY_SIZE b ->
  NumReadable b = Z.of_nat (length (BucketProps.readable_slots BUCKET_ARRAY_SIZE b)).
Proof.
  intros ((_ & Hr & _) & _) [Hbytes Hpad]. unfold NumReadable.
  rewrite bitmap_count by exact Hbytes. rewrite Hr.
  pose proof bitmap_covers_slots as Hle.
  replace (8 * bitmap_size BUCKET_ARRAY_SIZE)%nat
    with (BUCKET_ARRAY_SIZE + (8 * bitmap_size BUCKET_ARRAY_SIZE - BUCKET_ARRAY_SIZE))%nat
    by lia.
  rewrite seq_app, List.filter_app, List.length_app.
  rewrite (filter_none (bit_is_set (readable_ b)) (seq (0 + BUCKET_ARRAY_SIZE) _)).
  - cbn [length]. unfold BucketProps.readable_slots. rewrite Nat.add_0_r. reflexivity.
  - intros i Hi. apply in_seq in Hi. apply Hpad. lia.
Qed.

Lemma In_insert {A : Type} (l : list A) :
  forall (pos : nat) (x y : A), In y (<[pos := x]> l) -> y = x \/ In y l.
Proof.
  induction l as [| a l IH]; intros pos x y; [intros [] |].
  destruct pos as [| pos]; cbn.
  - intros [<- | Hin]; [now left | right; now right].
  - intros [<- | Hin]; [right; now left |].
    destruct (IH pos x y Hin) as [-> | Hy]; [now left | right; now right].
Qed.

Lemma zero_page_bitmap_inv :
  BucketProps.bitmap_inv BUCKET_ARRAY_SIZE (zero_page BUCKET_ARRAY_SIZE zeroed_mapping).
Proof.
  split.
  - cbn [readable_ zero_page]. intros v Hv.
    apply list_elem_of_In, elem_of_replicate_inv in Hv. lia.
  - intros i _. apply bit_is_set_zero.
Qed.

Lemma Insert_bitmap_inv b key value :
  bucket_inv b -> BucketProps.bitmap_inv BUCKET_ARRAY_SIZE b ->
  BucketProps.bitmap_inv BUCKET_ARRAY_SIZE (Insert b key value).1.
Proof.
  intros Hinv [Hbytes Hpad].
  destruct (Insert_result b key value) as [-> | (f & Hf & _ & ->)]; cbn [fst];
    [now split |].
  split.
  - bucket_fields. unfold bit_set. cbv zeta. intros v Hv.
    apply In_insert in Hv as [-> | Hv]; [| now apply Hbytes].
    apply Z.mod_pos_bound. lia.
  - intros i Hi. rewrite IsReadable_after_set by assumption.
    rewrite Hpad by exact Hi. destruct (Nat.eqb_spec f i); [lia | reflexivity].
Qed.

Lemma Remove_bitmap_inv b key value :
  bucket_inv b -> BucketProps.bitmap_inv BUCKET_ARRAY_SIZE b ->
  BucketProps.bitmap_inv BUCKET_ARRAY_SIZE (Remove b key value).1.
Proof.
  intros Hinv [Hbytes Hpad]. unfold HashTableBucketPage.Remove.
  destruct (Remove_loop_result b key value BUCKET_ARRAY_SIZE 0)
    as [-> | (idx & Hidx & _ & ->)]; cbn [fst]; [now split |].
  split.
  - bucket_fields. unfold bit_clear. cbv zeta. intros v Hv.
    apply In_insert in Hv as [-> | Hv]; [| now apply Hbytes].
    apply Z.mod_pos_bound. lia.
  - intros i Hi. rewrite IsReadable_after_RemoveAt by (assumption || lia).
    rewrite Hpad by exact Hi. apply andb_false_r.
Qed.

Lemma reachable_bitmap_inv b : reachable b -> BucketProps.bitmap_inv BUCKET_ARRAY_SIZE b.
Proof.
  induction 1 as [| b key value Hb IH | b key value Hb IH | b result _ IH].
  - apply zero_page_bitmap_inv.
  - apply Insert_bitmap_inv; [eapply reachable_inv; exact Hb | exact IH].
  - apply Remove_bitmap_inv; [eapply reachable_inv; exact Hb | exact IH].
  - apply zero_page_bitmap_inv.
Qed.

(** X9: On a page reached from the zeroed page, NumReadable is the number of
    slots whose readable bit is set. *)
Theorem NumReadable_counts_readable_slots b :
  reachable b ->
  NumReadable b = Z.of_nat (length (BucketProps.readable_slots BUCKET_ARRAY_SIZE b)).
Proof.
  intros Hreach. apply NumReadable_count.
  - eapply reachable_inv, Hreach.
  - apply reachable_bitmap_inv, Hreach.
Qed.

Lemma filter_length_all {A : Type} (g : A -> bool) (l : list A) :
  length (List.filter g l) = length l <-> forall x, In x l -> g x = true.
Proof.
  induction l as [| x l IH]; cbn [List.filter length In]; [tauto |].
  pose proof (List.filter_length_le g l) as Hle.
  destruct (g x) eqn:Hx; cbn [length]; split.
  - intros Hlen y [<- | Hy]; [exact Hx | apply IH; [lia | exact Hy]].
  - intros Hall. f_equal. apply IH. intros y Hy. apply Hall. now right.
  - intros Hlen. lia.
  - intros Hall. rewrite Hall in Hx by now left. discriminate.
Qed.

Lemma filter_length_none {A : Type} (g : A -> bool) (l : list A) :
  length (List.filter g l) = 0%nat <-> forall x, In x l -> g x = false.
Proof.
  split.
  - intros Hlen x Hx. destruct (g x) eqn:Hg; [| reflexivity].
    assert (Hin : In x (List.filter g l)) by (apply List.filter_In; now split).
    destruct (List.filter g l); [destruct Hin | discriminate].
  - intros Hnone. now rewrite filter_none.
Qed.

(** X10: On a page reached from the zeroed page, IsFull holds exactly when every
    slot is readable and IsEmpty exactly when none is. *)
Theorem IsFull_and_IsEmpty_read_the_slots b :
  reachable b ->
  (IsFull BUCKET_ARRAY_SIZE b = true
   <-> forall i, (i < BUCKET_ARRAY_SIZE)%nat -> IsReadable b i = true)
  /\ (IsEmpty b = true
      <-> forall i, (i < BUCKET_ARRAY_SIZE)%nat -> IsReadable b i = false).
Proof.
  intros Hreach.
  pose proof (NumReadable_count b (reachable_inv _ _ _ _ _ _ Hreach)
                (reachable_bitmap_inv b Hreach)) as Hnum.
  unfold IsFull, IsEmpty. rewrite Hnum, !Z.eqb_eq. unfold BucketProps.readable_slots.
  split.
  - rewrite Nat2Z.inj_iff.
    replace (length (List.filter (IsReadable b) (seq 0 BUCKET_ARRAY_SIZE)) = BUCKET_ARRAY_SIZE)
      with (length (List.filter (IsReadable b) (seq 0 BUCKET_ARRAY_SIZE))
            = length (seq 0 BUCKET_ARRAY_SIZE)) by now rewrite length_seq.
    rewrite filter_length_all. split.
    + intros H i Hi. apply H, in_seq. lia.
    + intros H i Hi. apply in_seq in Hi. apply H. lia.
  - change 0 with (Z.of_nat 0). rewrite Nat2Z.inj_iff, filter_length_none. split.
    + intros H i Hi. apply H, in_seq. lia.
    + intros H i Hi. apply in_seq in Hi. apply H. lia.
Qed.

Lemma filter_length_set (g g' : nat -> bool) (f : nat) (l : list nat) :
  List.NoDup l -> In f l -> g f = false ->
  (forall j, g' j = (Nat.eqb f j || g j)%bool) ->
  length (List.filter g' l) = S (length (List.filter g l)).
Proof.
  intros Hnd Hin Hf Hg'.
  assert (Hsame : forall l', ~ In f l' -> List.filter g' l' = List.filter g l').
  { intros l' Hnot. apply List.filter_ext_in. intros j Hj. rewrite Hg'.
    destruct (Nat.eqb_spec f j) as [-> | _]; [contradiction | reflexivity]. }
  induction l as [| x l IH]; [destruct Hin |].
  apply List.NoDup_cons_iff in Hnd as [Hx Hnd]. cbn [List.filter].
  destruct (Nat.eq_dec x f) as [-> | Hne].
  - rewrite Hg', Nat.eqb_refl, Hf. cbn [orb length]. now rewrite Hsame.
  - destruct Hin as [-> | Hin]; [contradiction |].
    rewrite Hg'. destruct (Nat.eqb_spec f x) as [-> | _]; [contradiction |].
    cbn [orb]. destruct (g x); cbn [length]; rewrite IH by assumption; reflexivity.
Qed.

(** X11: A successful Insert adds one to NumReadable and a successful Remove
    takes one away; a failed call leaves the count. *)
Theorem NumReadable_follows_Insert_and_Remove b key value :
  reachable b ->
  NumReadable (Insert b key value).1
  = NumReadable b + (if (Insert b key value).2 then 1 else 0)
  /\ NumReadable (Remove b key value).1
     = NumReadable b - (if (Remove b key value).2 then 1 else 0).
Proof.
  intros Hreach.
  pose proof (reachable_inv _ _ _ _ _ _ Hreach) as Hinv.
  pose proof (reachable_bitmap_inv b Hreach) as Hbits.
  rewrite (NumReadable_count b Hinv Hbits).
  rewrite (NumReadable_count _
             (reachable_inv _ _ _ _ _ _ (reachable_Insert _ _ _ _ _ b key value Hreach))
             (reachable_bitmap_inv _ (reachable_Insert _ _ _ _ _ b key value Hreach))).
  rewrite (NumReadable_count _
             (reachable_inv _ _ _ _ _ _ (reachable_Remove _ _ _ _ _ b key value Hreach))
             (reachable_bitmap_inv _ (reachable_Remove _ _ _ _ _ b key value Hreach))).
  unfold BucketProps.readable_slots. split.
  - destruct (Insert_result b key value) as [-> | (f & Hf & Hr & ->)]; cbn [fst snd];
      [lia |].
    rewrite (filter_length_set (IsReadable b) _ f); [lia | apply List.seq_NoDup | | exact Hr |].
    + apply in_seq. lia.
    + intros j. now apply IsReadable_after_set.
  - unfold HashTableBucketPage.Remove.
    destruct (Remove_loop_result b key value BUCKET_ARRAY_SIZE 0)
      as [-> | (idx & Hidx & Hr & ->)]; cbn [fst snd]; [lia |].
    rewrite (filter_length_set
               (IsReadable (RemoveAt (set_slot b idx default_mapping) idx))
               (IsReadable b) idx (seq 0 BUCKET_ARRAY_SIZE));
      [lia | apply List.seq_NoDup | apply in_seq; lia | |].
    + rewrite IsReadable_after_RemoveAt by (assumption || lia).
      now rewrite Nat.eqb_refl.
    + intros j. rewrite IsReadable_after_RemoveAt by (assumption || lia).
      destruct (Nat.eqb_spec idx j) as [<- | _]; [now rewrite Hr | reflexivity].
Qed.

End BucketPairs.

Section BucketPairRuns.
Import HashTableBucketPage Runs Pages.

Local Abbreviation int_reachable_page := (reachable capacity IntComparator Z.eqb (0, 0) (0, 0)).
Local Abbreviation int_readable_pair := (readable_pair capacity IntComparator Z.eqb (0, 0)).

Lemma one_pair_page_reachable : int_reachable_page one_pair_page.
Proof. apply reachable_Insert, reachable_zero. Qed.

Lemma full_page_reachable : int_reachable_page full_page.
Proof. repeat apply reachable_Insert. apply reachable_zero. Qed.

(** X5 (witness): Insert(1, 2) on a zeroed page, then GetValue(1) into a vector that
    holds 7. *)
Lemma Insert_then_GetValue_finds_value_witness :
  int_reachable_page int_zero_page
  /\ IntComparator 1 1 = 0
  /\ (int_bucket_Insert int_zero_page 1 2).2 = true
  /\ exists before after,
       (int_bucket_GetValue (int_bucket_Insert int_zero_page 1 2).1 1 [7]).1
       = [7] ++ before ++ 2 :: after
       /\ (int_bucket_GetValue (int_bucket_Insert int_zero_page 1 2).1 1 [7]).2 = true.
Proof.
  split; [apply reachable_zero |]. split; [reflexivity |]. split; [reflexivity |].
  apply (Insert_then_GetValue_finds_value capacity IntComparator Z.eqb (0, 0) (0, 0)
           int_zero_page 1 2 [7]); [apply reachable_zero | reflexivity | reflexivity].
Defined.

(** X6 (witness): Insert(1, 2) twice on a zeroed page. *)
Lemma Insert_twice_is_rejected_witness :
  int_reachable_page int_zero_page
  /\ IntComparator 1 1 = 0 /\ (2 =? 2) = true
  /\ (int_bucket_Insert int_zero_page 1 2).2 = true
  /\ int_bucket_Insert (int_bucket_Insert int_zero_page 1 2).1 1 2
     = ((int_bucket_Insert int_zero_page 1 2).1, false)
  /\ IsRepeat capacity IntComparator Z.eqb (0, 0) (int_bucket_Insert int_zero_page 1 2).1 1 2
     = true.
Proof.
  split; [apply reachable_zero |]. do 3 (split; [reflexivity |]).
  apply (Insert_twice_is_rejected capacity IntComparator Z.eqb (0, 0) (0, 0)
           int_zero_page 1 2); [apply reachable_zero | reflexivity ..].
Defined.

(** X7 (witness): Remove(1, 3) on the page that holds (1, 2). *)
Lemma Remove_of_missing_pair_witness :
  int_reachable_page one_pair_page
  /\ int_readable_pair one_pair_page 1 3 = false
  /\ int_bucket_Remove one_pair_page 1 3 = (one_pair_page, false).
Proof.
  split; [apply one_pair_page_reachable |]. split; [reflexivity |].
  apply (Remove_of_missing_pair_changes_nothing capacity IntComparator Z.eqb (0, 0) (0, 0)
           one_pair_page 1 3); [apply one_pair_page_reachable | reflexivity].
Defined.

(** X8 (witness): Remove(2, 20) on the full page, then Insert(5, 50). *)
Lemma Remove_makes_room_for_Insert_witness :
  int_reachable_page full_page
  /\ (int_bucket_Remove full_page 2 20).2 = true
  /\ int_readable_pair (int_bucket_Remove full_page 2 20).1 5 50 = false
  /\ (int_bucket_Insert (int_bucket_Remove full_page 2 20).1 5 50).2 = true.
Proof.
  split; [apply full_page_reachable |]. do 2 (split; [reflexivity |]).
  apply (Remove_makes_room_for_Insert capacity IntComparator Z.eqb (0, 0) (0, 0)
           full_page 2 20 5 50); [apply full_page_reachable | reflexivity ..].
Defined.

(** X9 (witness): the full page has four readable slots. *)
Lemma NumReadable_counts_readable_slots_witness :
  int_reachable_page full_page
  /\ NumReadable full_page
     = Z.of_nat (length (BucketProps.readable_slots capacity full_page)).
Proof.
  split; [apply full_page_reachable |].
  apply (NumReadable_counts_readable_slots capacity IntComparator Z.eqb (0, 0) (0, 0)
           full_page), full_page_reachable.
Defined.

(** X10 (witness): the full page of four slots. *)
Lemma IsFull_and_IsEmpty_witness :
  int_reachable_page full_page
  /\ (IsFull capacity full_page = true
      <-> forall i, (i < capacity)%nat -> IsReadable full_page i = true)
  /\ (IsEmpty full_page = true
      <-> forall i, (i < capacity)%nat -> IsReadable full_page i = false).
Proof.
  split; [apply full_page_reachable |].
  apply (IsFull_and_IsEmpty_read_the_slots capacity IntComparator Z.eqb (0, 0) (0, 0)
           full_page), full_page_reachable.
Defined.

(** X11 (witness): Insert(5, 6) and Remove(5, 6) on the page that holds (1, 2). *)
Lemma NumReadable_follows_Insert_and_Remove_witness :
  int_reachable_page one_pair_page
  /\ NumReadable (int_bucket_Insert one_pair_page 5 6).1
     = NumReadable one_pair_page + (if (int_bucket_Insert one_pair_page 5 6).2 then 1 else 0)
  /\ NumReadable (int_bucket_Remove one_pair_page 5 6).1
     = NumReadable one_pair_page - (if (int_bucket_Remove one_pair_page 5 6).2 then 1 else 0).
Proof.
  split; [apply one_pair_page_reachable |].
  apply (NumReadable_follows_Insert_and_Remove capacity IntComparator Z.eqb (0, 0) (0, 0)
           one_pair_page 5 6), one_pair_page_reachable.
Defined.

End BucketPairRuns.

(** ** The buffer pool instance: what every sequence of calls keeps *)

Section PoolFacts.
Import BufferPoolManagerInstance PoolProps.

Local Abbreviation frames := LRUReplacer.frame_id_list_.

Lemma page_at_set_page_ne (s : t) (f g : nat) (p : Page) :
  f <> g -> page_at (set_page s f p) g = page_at s g.
Proof.
  intros Hne. unfold page_at, set_page. cbn [pages_].
  rewrite list_lookup_insert_ne by exact Hne. reflexivity.
Qed.

Lemma page_at_set_page_out (s : t) (f g : nat) (p : Page) :
  (length (pages_ s) <= f)%nat -> page_at (set_page s f p) g = page_at s g.
Proof.
  intros Hlen. unfold page_at, set_page. cbn [pages_].
  rewrite list_insert_ge by exact Hlen. reflexivity.
Qed.

Lemma page_at_set_replacer (s : t) (r : LRUReplacer.t) (g : nat) :
  page_at (set_replacer s r) g = page_at s g.
Proof. reflexivity. Qed.

Lemma same_meta_refl (s : t) : same_meta s s.
Proof. repeat split. Qed.

Lemma same_meta_trans (s1 s2 s3 : t) : same_meta s1 s2 -> same_meta s2 s3 -> same_meta s1 s3.
Proof.
  intros (A1 & A2 & A3 & H1 & H2 & H3 & H4 & H5 & H6)
         (B1 & B2 & B3 & K1 & K2 & K3 & K4 & K5 & K6).
  repeat split; try congruence.
  - rewrite (proj1 (K6 f)). apply H6.
  - rewrite (proj2 (K6 f)). apply H6.
Qed.

(** Writing bytes or a dirty flag into a frame. *)
Lemma same_meta_set_page (s : t) (f : nat) (p : Page) :
  page_id_ p = page_id_ (page_at s f) -> pin_count_ p = pin_count_ (page_at s f) ->
  same_meta s (set_page s f p).
Proof.
  intros Hid Hpin. repeat split; pool_fields.
  - apply length_insert.
  - destruct (decide (f = f0)) as [<- | Hne]; [| now rewrite page_at_set_page_ne].
    destruct (decide (f < length (pages_ s))%nat) as [Hlt | Hge].
    + now rewrite page_at_set_page.
    + rewrite page_at_set_page_out by lia. reflexivity.
  - destruct (decide (f = f0)) as [<- | Hne]; [| now rewrite page_at_set_page_ne].
    destruct (decide (f < length (pages_ s))%nat) as [Hlt | Hge].
    + now rewrite page_at_set_page.
    + rewrite page_at_set_page_out by lia. reflexivity.
Qed.

Lemma frames_inv_same_meta (taken : option nat) (s s' : t) :
  same_meta s s' -> frames_inv taken s -> frames_inv taken s'.
Proof.
  intros (_ & _ & _ & H1 & H2 & H3 & H4 & H5 & H6)
         (Hlen & Hrep & Hnd & Hfree & Hrepl & Htab & Hpin).
  unfold frames_inv. rewrite H1, H2, H3, H4, H5.
  split; [exact Hlen |]. split; [exact Hrep |]. split; [exact Hnd |].
  split; [| split; [| split]].
  - intros f Hf. destruct (Hfree f Hf) as (A & B & C). rewrite (proj1 (H6 f)). auto.
  - intros f Hf. destruct (Hrepl f Hf) as (A & B). rewrite (proj1 (H6 f)). auto.
  - intros page_id f Hf. destruct (Htab page_id f Hf) as (A & B).
    rewrite (proj2 (H6 f)). auto.
  - intros f Hf. destruct (Hpin f Hf) as (A & B). rewrite (proj1 (H6 f)). auto.
Qed.

Lemma init_pool_inv (pool_size : nat) (num_instances instance_index : Z) :
  pool_inv (init pool_size num_instances instance_index).
Proof.
  assert (Hpage : forall f, page_at (init pool_size num_instances instance_index) f = new_Page).
  { intros f. unfold page_at, init. cbn [pages_].
    destruct (replicate pool_size new_Page !! f) as [p |] eqn:Hp; [| reflexivity].
    apply lookup_replicate in Hp as [-> _]. reflexivity. }
  unfold pool_inv, frames_inv. cbn [init pages_ pool_size_ replacer_ free_list_ page_table_].
  split; [apply length_replicate |]. split; [apply init_inv |].
  split; [apply List.seq_NoDup |]. split; [| split; [| split]].
  - intros f Hf. apply in_seq in Hf. rewrite Hpage. repeat split; [lia |].
    intros page_id. rewrite lookup_empty. discriminate.
  - intros f [].
  - intros page_id f Hf. rewrite lookup_empty in Hf. discriminate.
  - intros f Hf. rewrite Hpage. split; [cbn; lia |].
    intros _. right. left. apply in_seq. lia.
Qed.

Lemma In_Pin (r : LRUReplacer.t) (f g : nat) :
  ReplacerProps.replacer_inv r ->
  (In g (frames (LRUReplacer.Pin r f)) <-> In g (frames r) /\ g <> f).
Proof.
  intros [Hnd Hmap]. unfold LRUReplacer.Pin.
  destruct (frames r) as [| x rest] eqn:Hl.
  - rewrite Hl. cbn. tauto.
  - destruct (decide (f ∈ LRUReplacer.location_map_ r)) as [Hin | Hnin].
    + cbn [LRUReplacer.frame_id_list_]. rewrite <- Hl in *. now apply In_erase_node.
    + rewrite Hl. rewrite Hmap in Hnin. split; [| tauto].
      intros Hg. split; [exact Hg |]. intros ->. contradiction.
Qed.

Lemma In_Unpin (r : LRUReplacer.t) (f g : nat) :
  In g (frames (LRUReplacer.Unpin r f)) <-> In g (frames r) \/ g = f.
Proof.
  unfold LRUReplacer.Unpin.
  destruct (existsb (Nat.eqb f) (frames r)) eqn:Hex.
  - apply existsb_eqb_In in Hex. split; [tauto |]. intros [Hg | ->]; assumption.
  - cbn [LRUReplacer.frame_id_list_]. rewrite in_app_iff. cbn. intuition congruence.
Qed.

(** What [pick_frame] hands over: a frame of the pool that is in no list any
    more, in a state that keeps the bookkeeping of all other frames. *)
Lemma pick_frame_takes (s s1 : t) (f : nat) :
  pool_inv s -> pick_frame s = Some (s1, f) ->
  frames_inv (Some f) s1
  /\ (f < pool_size_ s)%nat /\ ~ In f (free_list_ s1)
  /\ pin_count_ (page_at s f) = 0
  /\ pages_ s1 = pages_ s /\ page_table_ s1 = page_table_ s
  /\ pool_size_ s1 = pool_size_ s /\ num_instances_ s1 = num_instances_ s
  /\ instance_index_ s1 = instance_index_ s /\ next_page_id_ s1 = next_page_id_ s.
Proof.
  intros (Hlen & Hrep & Hnd & Hfree & Hrepl & Htab & Hpin). unfold pick_frame.
  destruct (last (free_list_ s)) as [f' |] eqn:Hlast.
  - intros [= <- <-]. apply last_Some in Hlast as [l Hl].
    rewrite Hl, List.removelast_last. rewrite Hl in Hnd, Hfree, Hpin.
    assert (Hnin : ~ In f' l).
    { apply List.NoDup_remove_2 in Hnd. now rewrite app_nil_r in Hnd. }
    assert (Hndl : List.NoDup l).
    { apply List.NoDup_remove_1 in Hnd. now rewrite app_nil_r in Hnd. }
    destruct (Hfree f' ltac:(apply in_app_iff; right; now left)) as (Hlt & Hp0 & _).
    repeat (split; [first [assumption | reflexivity] |]). split; [| repeat split; assumption].
    unfold frames_inv.
    cbn [set_free_list pages_ pool_size_ replacer_ free_list_ page_table_].
    change (page_at (set_free_list s l)) with (page_at s).
    split; [exact Hlen |]. split; [exact Hrep |]. split; [exact Hndl |].
    split; [| split; [| split]]; try assumption.
    + intros g Hg. apply Hfree, in_app_iff. now left.
    + intros g Hg. destruct (Hpin g Hg) as [H0 Hz]. split; [exact H0 |].
      intros Hzero. destruct (Hz Hzero) as [Hn | [Hin | Hin]]; [discriminate | |].
      * apply in_app_iff in Hin as [Hin | [<- | []]]; [right; now left | now left].
      * right. now right.
  - apply last_None in Hlast. rewrite Hlast in *.
    pose proof (Victim_inv _ Hrep) as Hvic. unfold LRUReplacer.Victim in *.
    destruct (frames (replacer_ s)) as [| f' rest] eqn:Hl; [discriminate |].
    intros [= <- <-]. cbn [fst] in Hvic.
    destruct (Hrepl f' ltac:(now left)) as (Hlt & Hp0).
    cbn [set_replacer pages_ pool_size_ replacer_ free_list_ page_table_
         num_instances_ instance_index_ next_page_id_].
    split; [| rewrite Hlast; repeat split; first [assumption | intros []]].
    unfold frames_inv.
    cbn [set_replacer pages_ pool_size_ replacer_ free_list_ page_table_
         LRUReplacer.frame_id_list_].
    match goal with |- context [page_at ?s'] => change (page_at s') with (page_at s) end.
    rewrite Hlast.
    split; [exact Hlen |]. split; [exact Hvic |]. split; [constructor |].
    split; [| split; [| split]]; try assumption.
    + intros g Hg. apply Hrepl. now right.
    + intros g Hg. destruct (Hpin g Hg) as [H0 Hz]. split; [exact H0 |].
      intros Hzero. destruct (Hz Hzero) as [Hn | [[] | [<- | Hin]]];
        [discriminate | now left | right; now right].
Qed.

(** Installing a page with a positive pin count in the frame that was
    taken, pinning the frame in the replacer, and leaving in the page table
    at most one entry for the frame, that of the installed page. *)
Lemma install_frame (s1 s2 : t) (f : nat) (p : Page) :
  frames_inv (Some f) s1 -> (f < pool_size_ s1)%nat -> ~ In f (free_list_ s1) ->
  1 <= pin_count_ p ->
  pool_size_ s2 = pool_size_ s1 -> length (pages_ s2) = length (pages_ s1) ->
  free_list_ s2 = free_list_ s1 ->
  replacer_ s2 = LRUReplacer.Pin (replacer_ s1) f ->
  page_at s2 f = p ->
  (forall g, g <> f -> page_at s2 g = page_at s1 g) ->
  (forall q g, page_table_ s2 !! q = Some g ->
     (g <> f /\ page_table_ s1 !! q = Some g) \/ (g = f /\ q = page_id_ p)) ->
  pool_inv s2.
Proof.
  intros (Hlen & Hrep & Hnd & Hfree & Hrepl & Htab & Hpin) Hf Hnin Hp
         Esize Elen Efree Erep Epage Eother Etab.
  unfold pool_inv, frames_inv. rewrite Esize, Elen, Efree, Erep.
  split; [exact Hlen |]. split; [now apply Pin_inv |]. split; [exact Hnd |].
  split; [| split; [| split]].
  - intros g Hg. assert (Hne : g <> f) by (intros ->; contradiction).
    destruct (Hfree g Hg) as (A & B & C). rewrite (Eother g Hne).
    repeat split; try assumption. intros q Hq.
    destruct (Etab q g Hq) as [[_ Hq'] | [Heq _]]; [now apply (C q) | contradiction].
  - intros g Hg. apply In_Pin in Hg as [Hg Hne]; [| exact Hrep].
    rewrite (Eother g Hne). now apply Hrepl.
  - intros q g Hq. destruct (Etab q g Hq) as [[Hne Hq'] | [-> ->]].
    + rewrite (Eother g Hne). now apply (Htab q).
    + rewrite Epage. split; [exact Hf | reflexivity].
  - intros g Hg. destruct (decide (g = f)) as [-> | Hne].
    + rewrite Epage. split; [lia |]. intros Hz. lia.
    + rewrite (Eother g Hne). destruct (Hpin g Hg) as [H0 Hz]. split; [exact H0 |].
      intros Hzero. destruct (Hz Hzero) as [[= ->] | [Hin | Hin]]; [contradiction | |].
      * right. now left.
      * right. right. apply In_Pin; [exact Hrep | now split].
Qed.

Lemma write_back_same_meta (d : gmap Z (list Z)) (s : t) (f : nat) :
  same_meta s (write_back d s f).2.
Proof.
  unfold write_back. destruct (is_dirty_ (page_at s f)); cbn [snd];
    [now apply same_meta_set_page | apply same_meta_refl].
Qed.

Lemma write_back_allocator (d : gmap Z (list Z)) (s : t) (f : nat) :
  num_instances_ (write_back d s f).2 = num_instances_ s
  /\ instance_index_ (write_back d s f).2 = instance_index_ s
  /\ next_page_id_ (write_back d s f).2 = next_page_id_ s.
Proof. unfold write_back. destruct (is_dirty_ (page_at s f)); repeat split. Qed.

Lemma NewPgImp_inv (d : gmap Z (list Z)) (s : t) :
  pool_inv s -> pool_inv (NewPgImp d s).1.2.
Proof.
  intros Hinv. unfold NewPgImp.
  destruct (no_frame_left s); [exact Hinv |].
  unfold AllocatePage. cbv zeta.
  match goal with |- context [pick_frame ?s0] => set (sa := s0) end.
  assert (Hsa : pool_inv sa) by exact Hinv.
  destruct (pick_frame sa) as [[s1 f] |] eqn:Hpick; [| exact Hsa].
  destruct (pick_frame_takes sa s1 f Hsa Hpick)
    as (Hinv1 & Hf & Hnin & _ & Hpages & Htable & Hsize & _).
  pose proof (write_back_same_meta d s1 f) as Hmeta.
  destruct (write_back d s1 f) as [dw sw]. cbn [fst snd] in *.
  pose proof (frames_inv_same_meta _ _ _ Hmeta Hinv1) as Hinvw.
  destruct Hmeta as (_ & _ & _ & M1 & M2 & M3 & M4 & M5 & M6).
  pose proof Hinvw as (Hlenw & _ & _ & _ & _ & Htabw & _).
  assert (Hfw : (f < pool_size_ sw)%nat) by (rewrite M1, Hsize; exact Hf).
  eapply (install_frame sw _ f
            (mkPage zeroed_data (next_page_id_ s) 1 (is_dirty_ (page_at sw f))));
    [exact Hinvw | exact Hfw | now rewrite M4 | ..]; pool_fields.
  2: reflexivity.
  2: apply length_insert.
  2: reflexivity.
  2: reflexivity.
  2: { unfold page_at at 1. pool_fields.
       rewrite list_lookup_insert_eq by (rewrite Hlenw; exact Hfw). reflexivity. }
  - cbn [pin_count_]. lia.
  - intros g Hne. unfold page_at. pool_fields.
    rewrite list_lookup_insert_ne by congruence. reflexivity.
  - cbn [page_id_]. intros q g. unfold table_insert.
    set (old := page_id_ (page_at sw f)).
    assert (Hold : forall q g, delete old (page_table_ sw) !! q = Some g ->
                               g <> f /\ page_table_ sw !! q = Some g).
    { intros q' g' Hq. apply lookup_delete_Some in Hq as [Hne Hq]. split; [| exact Hq].
      intros ->. apply Htabw in Hq as [_ Hid]. subst old. congruence. }
    destruct (delete old (page_table_ sw) !! next_page_id_ s) eqn:Hnew.
    + intros Hq. left. now apply Hold.
    + intros Hq. apply lookup_insert_Some in Hq as [[<- <-] | [Hne Hq]];
        [now right | left; now apply Hold].
Qed.

Lemma frames_inv_taken (s : t) (f : nat) : pool_inv s -> frames_inv (Some f) s.
Proof.
  intros (Hlen & Hrep & Hnd & Hfree & Hrepl & Htab & Hpin).
  repeat (split; [assumption |]).
  intros g Hg. destruct (Hpin g Hg) as [H0 Hz]. split; [exact H0 |].
  intros Hzero. destruct (Hz Hzero) as [[=] | H]; now right.
Qed.

(** Changing the pin count of a resident page: the frame is in the replacer
    afterwards exactly when the new count is zero. *)
Lemma repin_frame (s s2 : t) (page_id : Z) (f : nat) :
  pool_inv s -> page_table_ s !! page_id = Some f ->
  pool_size_ s2 = pool_size_ s -> length (pages_ s2) = length (pages_ s) ->
  free_list_ s2 = free_list_ s -> page_table_ s2 = page_table_ s ->
  (forall g, g <> f -> page_at s2 g = page_at s g) ->
  page_id_ (page_at s2 f) = page_id_ (page_at s f) ->
  0 <= pin_count_ (page_at s2 f) ->
  ReplacerProps.replacer_inv (replacer_ s2) ->
  (forall g, In g (frames (replacer_ s2))
             <-> (g <> f /\ In g (frames (replacer_ s)))
                 \/ (g = f /\ pin_count_ (page_at s2 f) = 0)) ->
  pool_inv s2.
Proof.
  intros (Hlen & Hrep & Hnd & Hfree & Hrepl & Htab & Hpin) Hres
         Esize Elen Efree Etab Eother Eid Epin Erep Ein.
  destruct (Htab _ _ Hres) as [Hf Hid].
  assert (Hnin : ~ In f (free_list_ s)).
  { intros Hin. destruct (Hfree f Hin) as (_ & _ & C). now apply (C page_id). }
  unfold pool_inv, frames_inv. rewrite Esize, Elen, Efree, Etab.
  split; [exact Hlen |]. split; [exact Erep |]. split; [exact Hnd |].
  split; [| split; [| split]].
  - intros g Hg. assert (Hne : g <> f) by (intros ->; contradiction).
    rewrite (Eother g Hne). now apply Hfree.
  - intros g Hg. apply Ein in Hg as [[Hne Hg] | [-> Hz]].
    + rewrite (Eother g Hne). now apply Hrepl.
    + split; assumption.
  - intros q g Hq. destruct (decide (g = f)) as [-> | Hne].
    + rewrite Eid. now apply Htab.
    + rewrite (Eother g Hne). now apply Htab.
  - intros g Hg. destruct (decide (g = f)) as [-> | Hne].
    + split; [exact Epin |]. intros Hz. right. right. apply Ein. now right.
    + rewrite (Eother g Hne). destruct (Hpin g Hg) as [H0 Hz]. split; [exact H0 |].
      intros Hzero. destruct (Hz Hzero) as [[=] | [Hin | Hin]]; [right; now left |].
      right. right. apply Ein. left. now split.
Qed.

Lemma FetchPgImp_inv (d : gmap Z (list Z)) (s : t) (page_id : Z) :
  pool_inv s -> pool_inv (FetchPgImp d s page_id).1.2.
Proof.
  intros Hinv. unfold FetchPgImp.
  destruct (page_table_ s !! page_id) as [f |] eqn:Hres.
  - cbn [fst snd]. pose proof Hinv as (Hlen & Hrep & _ & _ & Hrepl & Htab & Hpin).
    destruct (Htab _ _ Hres) as [Hf _]. destruct (Hpin f Hf) as [H0 _].
    change (page_at (set_replacer s (LRUReplacer.Pin (replacer_ s) f)) f)
      with (page_at s f).
    assert (Hat : forall p, page_at (set_page (set_replacer s (LRUReplacer.Pin (replacer_ s) f))
                                       f p) f = p).
    { intros p. apply page_at_set_page. pool_fields. now rewrite Hlen. }
    eapply (repin_frame s _ page_id f Hinv Hres); pool_fields;
      try reflexivity; rewrite ?Hat; cbn [page_id_ pin_count_].
    + apply length_insert.
    + intros g Hne. unfold page_at. pool_fields.
      rewrite list_lookup_insert_ne by congruence. reflexivity.
    + reflexivity.
    + lia.
    + now apply Pin_inv.
    + intros g. rewrite In_Pin by exact Hrep. split.
      * intros [Hg Hne]. left. now split.
      * intros [[Hne Hg] | [_ Hz]]; [now split | lia].
  - destruct (no_frame_left s); [exact Hinv |].
    destruct (pick_frame s) as [[s1 f] |] eqn:Hpick; [| exact Hinv].
    destruct (pick_frame_takes s s1 f Hinv Hpick)
      as (Hinv1 & Hf & Hnin & _ & Hpages & Htable & Hsize & _).
    pose proof (write_back_same_meta d s1 f) as Hmeta.
    destruct (write_back d s1 f) as [dw sw]. cbn [fst snd] in *.
    pose proof (frames_inv_same_meta _ _ _ Hmeta Hinv1) as Hinvw.
    destruct Hmeta as (_ & _ & _ & M1 & M2 & M3 & M4 & M5 & M6).
    pose proof Hinvw as (Hlenw & _ & _ & _ & _ & Htabw & Hpinw).
    assert (Hfw : (f < pool_size_ sw)%nat) by (rewrite M1, Hsize; exact Hf).
    assert (Hnone : page_table_ sw !! page_id = None) by (rewrite M5, Htable; exact Hres).
    eapply (install_frame sw _ f
              (mkPage (ReadPage dw page_id) page_id (pin_count_ (page_at sw f) + 1)
                      (is_dirty_ (page_at sw f))));
      [exact Hinvw | exact Hfw | now rewrite M4 | ..]; pool_fields.
    2: reflexivity.
    2: apply length_insert.
    2: reflexivity.
    2: reflexivity.
    2: { unfold page_at at 1. pool_fields.
         rewrite list_lookup_insert_eq by (rewrite Hlenw; exact Hfw). reflexivity. }
    + cbn [pin_count_]. destruct (Hpinw f Hfw) as [H0 _]. lia.
    + intros g Hne. unfold page_at. pool_fields.
      rewrite list_lookup_insert_ne by congruence. reflexivity.
    + cbn [page_id_]. intros q g Hq. unfold table_insert in Hq. rewrite Hnone in Hq.
      apply lookup_delete_Some in Hq as [Hne Hq].
      apply lookup_insert_Some in Hq as [[<- <-] | [Hne' Hq]]; [now right | left].
      split; [| exact Hq]. intros ->. apply Htabw in Hq as [_ Hid]. congruence.
Qed.

Lemma UnpinPgImp_inv (s : t) (page_id : Z) (is_dirty : bool) :
  pool_inv s -> pool_inv (UnpinPgImp s page_id is_dirty).1.
Proof.
  intros Hinv. unfold UnpinPgImp.
  destruct (page_table_ s !! page_id) as [f |] eqn:Hres; [| exact Hinv].
  set (s' := if is_dirty then _ else s).
  assert (Hmeta : same_meta s s').
  { subst s'. destruct is_dirty; [now apply same_meta_set_page | apply same_meta_refl]. }
  pose proof (frames_inv_same_meta _ _ _ Hmeta Hinv) as Hinv'. fold (pool_inv s') in Hinv'.
  assert (Hres' : page_table_ s' !! page_id = Some f).
  { destruct Hmeta as (_ & _ & _ & _ & _ & _ & _ & -> & _). exact Hres. }
  clearbody s'. clear Hmeta Hinv Hres s. cbv zeta.
  destruct (Z.leb_spec (pin_count_ (page_at s' f)) 0) as [Hle | Hgt]; [exact Hinv' |].
  cbn [fst]. pose proof Hinv' as (Hlen & Hrep & _ & _ & Hrepl & Htab & _).
  destruct (Htab _ _ Hres') as [Hf _].
  assert (Hat : forall p, page_at (set_page s' f p) f = p).
  { intros p. apply page_at_set_page. now rewrite Hlen. }
  assert (Hnotin : ~ In f (frames (replacer_ s'))).
  { intros Hin. apply Hrepl in Hin as [_ Hz]. lia. }
  rewrite Hat. cbn [pin_count_].
  destruct (Z.eqb_spec (pin_count_ (page_at s' f) - 1) 0) as [Hz | Hnz].
  - eapply (repin_frame s' _ page_id f Hinv' Hres'); pool_fields;
      try reflexivity; rewrite ?page_at_set_replacer, ?Hat; cbn [page_id_ pin_count_].
    + apply length_insert.
    + intros g Hne. unfold page_at. pool_fields.
      rewrite list_lookup_insert_ne by congruence. reflexivity.
    + reflexivity.
    + lia.
    + now apply Unpin_inv.
    + intros g. rewrite In_Unpin. split.
      * intros [Hg | ->]; [left | right; now split].
        split; [intros ->; contradiction | exact Hg].
      * intros [[_ Hg] | [-> _]]; [now left | now right].
  - eapply (repin_frame s' _ page_id f Hinv' Hres'); pool_fields;
      try reflexivity; rewrite ?page_at_set_replacer, ?Hat; cbn [page_id_ pin_count_].
    + apply length_insert.
    + intros g Hne. unfold page_at. pool_fields.
      rewrite list_lookup_insert_ne by congruence. reflexivity.
    + reflexivity.
    + lia.
    + exact Hrep.
    + intros g. split.
      * intros Hg. left. split; [intros ->; contradiction | exact Hg].
      * intros [[_ Hg] | [_ Hz]]; [exact Hg | lia].
Qed.

Lemma DeletePgImp_inv (s : t) (page_id : Z) :
  pool_inv s -> pool_inv (DeletePgImp s page_id).1.
Proof.
  intros Hinv. unfold DeletePgImp.
  destruct (page_table_ s !! page_id) as [f |] eqn:Hres; [| exact Hinv].
  cbv zeta. destruct (Z.eqb_spec (pin_count_ (page_at s f)) 0) as [Hz | Hnz];
    cbn [negb fst]; [| exact Hinv].
  destruct Hinv as (Hlen & Hrep & Hnd & Hfree & Hrepl & Htab & Hpin).
  destruct (Htab _ _ Hres) as [Hf Hid].
  assert (Hnin : ~ In f (free_list_ s)).
  { intros Hin. destruct (Hfree f Hin) as (_ & _ & C). now apply (C page_id). }
  set (p := mkPage _ _ _ _).
  assert (Hpins : forall g, pin_count_ (page_at (set_page (set_page_table s
                               (delete page_id (page_table_ s))) f p) g)
                            = pin_count_ (page_at s g)).
  { intros g. destruct (decide (f = g)) as [<- | Hne].
    - rewrite page_at_set_page by (pool_fields; now rewrite Hlen). reflexivity.
    - rewrite page_at_set_page_ne by exact Hne. reflexivity. }
  assert (Hother : forall q g, delete page_id (page_table_ s) !! q = Some g ->
                               g <> f /\ page_table_ s !! q = Some g).
  { intros q g Hq. apply lookup_delete_Some in Hq as [Hne Hq]. split; [| exact Hq].
    intros ->. apply Htab in Hq as [_ Hid']. congruence. }
  unfold pool_inv, frames_inv. pool_fields.
  match goal with |- context [page_at ?s2] =>
    change (page_at s2)
      with (page_at (set_page (set_page_table s (delete page_id (page_table_ s))) f p))
  end.
  split; [now rewrite length_insert |]. split; [exact Hrep |].
  split; [| split; [| split; [| split]]].
  - apply List.NoDup_app; [exact Hnd | repeat constructor; intros [] |].
    intros g Hg [<- | []]. contradiction.
  - intros g Hg. rewrite Hpins. apply in_app_iff in Hg as [Hg | [<- | []]].
    + destruct (Hfree g Hg) as (A & B & C). repeat split; try assumption.
      intros q Hq. apply Hother in Hq as [_ Hq]. now apply (C q).
    + repeat split; try assumption. intros q Hq. now apply Hother in Hq as [Hne _].
  - intros g Hg. rewrite Hpins. now apply Hrepl.
  - intros q g Hq. apply Hother in Hq as [Hne Hq].
    rewrite page_at_set_page_ne by congruence. now apply (Htab q).
  - intros g Hg. rewrite Hpins. destruct (Hpin g Hg) as [H0 Hzero]. split; [exact H0 |].
    intros Hg0. destruct (Hzero Hg0) as [[=] | [Hin | Hin]]; right.
    + left. apply in_app_iff. now left.
    + now right.
Qed.

Lemma FlushPgImp_same_meta (d : gmap Z (list Z)) (s : t) (page_id : Z) :
  same_meta s (FlushPgImp d s page_id).1.2.
Proof.
  unfold FlushPgImp. destruct (page_table_ s !! page_id) as [f |]; cbn [fst snd];
    [now apply same_meta_set_page | apply same_meta_refl].
Qed.

Lemma FlushAllPgs_loop_same_meta (l : list nat) :
  forall (d : gmap Z (list Z)) (s : t),
    same_meta s
      (fold_left
         (fun '(d, s) i =>
            let page := page_at s i in
            (WritePage d (page_id_ page) (data_ page),
             set_page s i (mkPage (data_ page) (page_id_ page) (pin_count_ page) false)))
         l (d, s)).2.
Proof.
  induction l as [| i l IH]; intros d s; cbn [fold_left].
  - apply same_meta_refl.
  - eapply same_meta_trans; [| apply IH]. now apply same_meta_set_page.
Qed.

Lemma FlushAllPgsImp_same_meta (d : gmap Z (list Z)) (s : t) :
  same_meta s (FlushAllPgsImp d s).2.
Proof. apply FlushAllPgs_loop_same_meta. Qed.

Lemma run_call_inv (ds : gmap Z (list Z) * t) (c : call) :
  pool_inv ds.2 -> pool_inv (run_call ds c).2.
Proof.
  destruct ds as [d s]. cbn [snd]. intros Hinv. destruct c; cbn [run_call].
  - pose proof (NewPgImp_inv d s Hinv) as H.
    destruct (NewPgImp d s) as [[d' s'] r]. exact H.
  - pose proof (FetchPgImp_inv d s page_id Hinv) as H.
    destruct (FetchPgImp d s page_id) as [[d' s'] r]. exact H.
  - now apply UnpinPgImp_inv.
  - pose proof (FlushPgImp_same_meta d s page_id) as H.
    destruct (FlushPgImp d s page_id) as [[d' s'] r].
    exact (frames_inv_same_meta _ _ _ H Hinv).
  - now apply DeletePgImp_inv.
  - exact (frames_inv_same_meta _ _ _ (FlushAllPgsImp_same_meta d s) Hinv).
Qed.

Lemma run_calls_inv (cs : list call) :
  forall ds, pool_inv ds.2 -> pool_inv (run_calls ds cs).2.
Proof.
  induction cs as [| c cs IH]; intros ds Hinv; cbn [run_calls fold_left]; [exact Hinv |].
  apply IH, run_call_inv, Hinv.
Qed.

Lemma reached_inv (d0 : gmap Z (list Z)) (pool_size : nat) (num_instances instance_index : Z)
      (cs : list call) :
  pool_inv (run_calls (d0, init pool_size num_instances instance_index) cs).2.
Proof. apply run_calls_inv, init_pool_inv. Qed.

(** X12: After any sequence of calls, no frame with a positive pin count is in
    the free list or in the replacer. *)
Theorem pinned_frame_is_in_no_list (d0 : gmap Z (list Z)) (pool_size : nat)
        (num_instances instance_index : Z) (cs : list call) (f : nat) :
  let s := (run_calls (d0, init pool_size num_instances instance_index) cs).2 in
  is_pinned s f && (in_free_list s f || in_replacer s f) = false.
Proof.
  cbv zeta.
  pose proof (reached_inv d0 pool_size num_instances instance_index cs)
    as (_ & _ & _ & Hfree & Hrepl & _).
  set (s := (run_calls _ cs).2) in *.
  unfold is_pinned, in_free_list, in_replacer.
  destruct (Z.ltb_spec 0 (pin_count_ (page_at s f))) as [Hpin | _]; [| reflexivity].
  cbn [andb]. apply orb_false_iff. split.
  - destruct (existsb _ (free_list_ s)) eqn:Hex; [| reflexivity].
    apply existsb_eqb_In, Hfree in Hex as (_ & Hz & _). lia.
  - destruct (existsb _ (frames (replacer_ s))) eqn:Hex; [| reflexivity].
    apply existsb_eqb_In, Hrepl in Hex as (_ & Hz). lia.
Qed.

Lemma run_call_pool_size (ds : gmap Z (list Z) * t) (c : call) :
  pool_size_ (run_call ds c).2 = pool_size_ ds.2.
Proof.
  destruct ds as [d s]. destruct c; cbn [run_call snd].
  - unfold NewPgImp, AllocatePage, pick_frame, write_back, LRUReplacer.Victim.
    repeat case_match; simplify_eq; reflexivity.
  - unfold FetchPgImp, pick_frame, write_back, LRUReplacer.Victim.
    repeat case_match; simplify_eq; reflexivity.
  - unfold UnpinPgImp. repeat case_match; reflexivity.
  - unfold FlushPgImp. repeat case_match; simplify_eq; reflexivity.
  - unfold DeletePgImp. repeat case_match; reflexivity.
  - exact (proj1 (proj2 (proj2 (proj2 (FlushAllPgsImp_same_meta d s))))).
Qed.

Lemma run_calls_pool_size (cs : list call) :
  forall ds, pool_size_ (run_calls ds cs).2 = pool_size_ ds.2.
Proof.
  induction cs as [| c cs IH]; intros ds; cbn [run_calls fold_left]; [reflexivity |].
  etransitivity; [apply IH | apply run_call_pool_size].
Qed.

(** X13: After any sequence of calls, a page-table entry points at a frame of the
    pool that holds the entry's page, and no other entry points at that
    frame. *)
Theorem page_table_entry_points_at_its_page (d0 : gmap Z (list Z)) (pool_size : nat)
        (num_instances instance_index : Z) (cs : list call) (page_id : Z) (f : nat) :
  let s := (run_calls (d0, init pool_size num_instances instance_index) cs).2 in
  page_table_ s !! page_id = Some f ->
  (f < pool_size)%nat
  /\ page_id_ (page_at s f) = page_id
  /\ forall page_id', page_table_ s !! page_id' = Some f -> page_id' = page_id.
Proof.
  cbv zeta. intros Hres.
  pose proof (reached_inv d0 pool_size num_instances instance_index cs)
    as (_ & _ & _ & _ & _ & Htab & _).
  pose proof (run_calls_pool_size cs (d0, init pool_size num_instances instance_index))
    as Hsize. cbn [snd init pool_size_] in Hsize.
  destruct (Htab _ _ Hres) as [Hf Hid]. rewrite Hsize in Hf.
  repeat split; try assumption.
  intros page_id' Hres'. destruct (Htab _ _ Hres') as [_ Hid']. congruence.
Qed.

Lemma write_back_clean (d : gmap Z (list Z)) (s : t) (f : nat) :
  (f < length (pages_ s))%nat -> is_dirty_ (page_at (write_back d s f).2 f) = false.
Proof.
  intros Hf. unfold write_back. destruct (is_dirty_ (page_at s f)) eqn:Hd; cbn [snd].
  - now rewrite page_at_set_page.
  - exact Hd.
Qed.

Lemma no_frame_left_spec (s : t) :
  no_frame_left s = true <-> free_list_ s = [] /\ frames (replacer_ s) = [].
Proof.
  unfold no_frame_left, LRUReplacer.Size. destruct (free_list_ s) as [| f l].
  - rewrite Nat.eqb_eq, length_zero_iff_nil. tauto.
  - split; [discriminate | intros [[=] _]].
Qed.

Lemma pick_frame_None (s : t) : pick_frame s = None -> no_frame_left s = true.
Proof.
  unfold pick_frame, LRUReplacer.Victim. intros H. apply no_frame_left_spec.
  destruct (last (free_list_ s)) eqn:Hlast; [discriminate |].
  apply last_None in Hlast. split; [exact Hlast |].
  destruct (frames (replacer_ s)); [reflexivity | discriminate].
Qed.

(** With the bookkeeping in place, no frame is left exactly when every
    frame is pinned. *)
Lemma no_frame_left_all_pinned (s : t) :
  pool_inv s ->
  (no_frame_left s = true
   <-> forall f, (f < pool_size_ s)%nat -> is_pinned s f = true).
Proof.
  intros (_ & _ & _ & Hfree & Hrepl & _ & Hpin). rewrite no_frame_left_spec.
  unfold is_pinned. split.
  - intros [Hl Hr] f Hf. destruct (Hpin f Hf) as [H0 Hz]. apply Z.ltb_lt.
    destruct (Z.eq_dec (pin_count_ (page_at s f)) 0) as [Hzero | Hne]; [| lia].
    rewrite Hl, Hr in Hz. destruct (Hz Hzero) as [[=] | [[] | []]].
  - intros Hall. split.
    + destruct (free_list_ s) as [| f l]; [reflexivity |].
      destruct (Hfree f ltac:(now left)) as (Hf & Hz & _).
      specialize (Hall f Hf). apply Z.ltb_lt in Hall. lia.
    + destruct (frames (replacer_ s)) as [| f l]; [reflexivity |].
      destruct (Hrepl f ltac:(now left)) as (Hf & Hz).
      specialize (Hall f Hf). apply Z.ltb_lt in Hall. lia.
Qed.

(** X14: NewPgImp, and FetchPgImp of a page that is not resident, return nullptr
    exactly when every frame of the pool is pinned, and a failed call leaves
    the pool and the allocator as they were. *)
Theorem no_frame_exactly_when_all_pinned (d0 : gmap Z (list Z)) (pool_size : nat)
        (num_instances instance_index : Z) (cs : list call) :
  let s := (run_calls (d0, init pool_size num_instances instance_index) cs).2 in
  forall d : gmap Z (list Z),
    ((NewPgImp d s).2 = None
     <-> forall f, (f < pool_size)%nat -> is_pinned s f = true)
    /\ (forall page_id, page_table_ s !! page_id = None ->
          ((FetchPgImp d s page_id).2 = None
           <-> forall f, (f < pool_size)%nat -> is_pinned s f = true))
    /\ ((forall f, (f < pool_size)%nat -> is_pinned s f = true) ->
        NewPgImp d s = (d, s, None)
        /\ forall page_id, page_table_ s !! page_id = None ->
                           FetchPgImp d s page_id = (d, s, None)).
Proof.
  cbv zeta. intros d.
  pose proof (reached_inv d0 pool_size num_instances instance_index cs) as Hinv.
  pose proof (run_calls_pool_size cs (d0, init pool_size num_instances instance_index))
    as Hsize. cbn [snd init pool_size_] in Hsize.
  set (s := (run_calls _ cs).2) in *.
  pose proof (no_frame_left_all_pinned s Hinv) as Hiff. rewrite Hsize in Hiff.
  assert (Hnew : (NewPgImp d s).2 = None -> no_frame_left s = true).
  { unfold NewPgImp. destruct (no_frame_left s) eqn:Hleft; [reflexivity |].
    unfold AllocatePage. cbv zeta.
    match goal with |- context [pick_frame ?s0] => set (sa := s0) end.
    destruct (pick_frame sa) as [[s1 f] |] eqn:Hpick.
    - destruct (write_back d s1 f). discriminate.
    - intros _. apply pick_frame_None in Hpick.
      change (no_frame_left s = true) in Hpick. congruence. }
  assert (Hfetch : forall page_id, page_table_ s !! page_id = None ->
                     (FetchPgImp d s page_id).2 = None -> no_frame_left s = true).
  { intros page_id Hres. unfold FetchPgImp. rewrite Hres.
    destruct (no_frame_left s) eqn:Hleft; [reflexivity |].
    destruct (pick_frame s) as [[s1 f] |] eqn:Hpick.
    - destruct (write_back d s1 f). discriminate.
    - intros _. apply pick_frame_None in Hpick. congruence. }
  assert (Hnew' : no_frame_left s = true -> NewPgImp d s = (d, s, None)).
  { intros Hleft. unfold NewPgImp. now rewrite Hleft. }
  assert (Hfetch' : forall page_id, page_table_ s !! page_id = None ->
                      no_frame_left s = true -> FetchPgImp d s page_id = (d, s, None)).
  { intros page_id Hres Hleft. unfold FetchPgImp. now rewrite Hres, Hleft. }
  split; [| split].
  - rewrite <- Hiff. split; [exact Hnew |]. intros Hleft. now rewrite Hnew'.
  - intros page_id Hres. rewrite <- Hiff. split; [now apply Hfetch |].
    intros Hleft. now rewrite Hfetch'.
  - intros Hall. apply Hiff in Hall. split; [now apply Hnew' |].
    intros page_id Hres. now apply Hfetch'.
Qed.

Lemma FetchPgImp_result (d d' : gmap Z (list Z)) (s s' : t) (page_id : Z) (f : nat) :
  pool_inv s -> FetchPgImp d s page_id = (d', s', Some f) ->
  (f < pool_size_ s)%nat
  /\ page_id_ (page_at s' f) = page_id
  /\ (page_table_ s !! page_id = None ->
      pin_count_ (page_at s' f) = 1 /\ data_ (page_at s' f) = ReadPage d' page_id)
  /\ (forall f0, page_table_ s !! page_id = Some f0 ->
        f = f0 /\ d' = d
        /\ pin_count_ (page_at s' f) = pin_count_ (page_at s f) + 1
        /\ data_ (page_at s' f) = data_ (page_at s f)).
Proof.
  intros Hinv. unfold FetchPgImp.
  destruct (page_table_ s !! page_id) as [f0 |] eqn:Hres.
  - intros [= <- <- <-]. destruct Hinv as (Hlen & _ & _ & _ & _ & Htab & _).
    destruct (Htab _ _ Hres) as [Hf Hid].
    rewrite page_at_set_page by (pool_fields; now rewrite Hlen).
    rewrite page_at_set_replacer. cbn [page_id_ pin_count_ data_].
    repeat split; try assumption; try discriminate; simplify_eq; reflexivity.
  - destruct (no_frame_left s); [discriminate |].
    destruct (pick_frame s) as [[s1 f1] |] eqn:Hpick; [| discriminate].
    destruct (pick_frame_takes s s1 f1 Hinv Hpick)
      as (Hinv1 & Hf & Hnin & Hz & Hpages & Htable & Hsize & _).
    pose proof (write_back_same_meta d s1 f1) as Hmeta.
    destruct (write_back d s1 f1) as [dw sw]. cbn [fst snd] in *.
    destruct Hmeta as (_ & _ & _ & M1 & M2 & M3 & M4 & M5 & M6).
    intros [= <- <- <-].
    assert (Hat : forall g, page_at s1 g = page_at s g)
      by (intros g; unfold page_at; now rewrite Hpages).
    split; [exact Hf |]. split; [| split; [| discriminate]].
    + unfold page_at at 1. pool_fields.
      rewrite list_lookup_insert_eq
        by (rewrite M2, Hpages; destruct Hinv as [-> _]; exact Hf).
      reflexivity.
    + intros _.
      match goal with |- context [page_at (set_replacer ?x ?r) f1] =>
        assert (Hp : page_at (set_replacer x r) f1
                     = mkPage (ReadPage dw page_id) page_id
                              (pin_count_ (page_at sw f1) + 1) (is_dirty_ (page_at sw f1)))
      end.
      { unfold page_at at 1. pool_fields.
        rewrite list_lookup_insert_eq
          by (rewrite M2, Hpages; destruct Hinv as [-> _]; exact Hf).
        reflexivity. }
      rewrite Hp. cbn [pin_count_ data_].
      rewrite (proj1 (M6 f1)), Hat, Hz. split; reflexivity.
Qed.

(** X15: After any sequence of calls, the frame FetchPgImp returns holds the page
    that was asked for and is pinned: a page that was resident has one more
    pin and keeps its bytes; a page that was not has pin count one and the
    bytes the disk holds for it. *)
Theorem FetchPgImp_returns_the_page_pinned (d0 : gmap Z (list Z)) (pool_size : nat)
        (num_instances instance_index : Z) (cs : list call)
        (d d' : gmap Z (list Z)) (s' : t) (page_id : Z) (f : nat) :
  let s := (run_calls (d0, init pool_size num_instances instance_index) cs).2 in
  FetchPgImp d s page_id = (d', s', Some f) ->
  (f < pool_size)%nat
  /\ page_id_ (page_at s' f) = page_id
  /\ is_pinned s' f = true
  /\ (page_table_ s !! page_id = None ->
      pin_count_ (page_at s' f) = 1 /\ data_ (page_at s' f) = ReadPage d' page_id)
  /\ (forall f0, page_table_ s !! page_id = Some f0 ->
        f = f0 /\ d' = d
        /\ pin_count_ (page_at s' f) = pin_count_ (page_at s f) + 1
        /\ data_ (page_at s' f) = data_ (page_at s f)).
Proof.
  cbv zeta. intros Hfetch.
  pose proof (reached_inv d0 pool_size num_instances instance_index cs) as Hinv.
  pose proof (run_calls_pool_size cs (d0, init pool_size num_instances instance_index))
    as Hsize. cbn [snd init pool_size_] in Hsize.
  set (s := (run_calls _ cs).2) in *.
  destruct (FetchPgImp_result d d' s s' page_id f Hinv Hfetch) as (Hf & Hid & Hmiss & Hhit).
  rewrite Hsize in Hf. split; [exact Hf |]. split; [exact Hid |].
  split; [| split; [exact Hmiss | exact Hhit]].
  unfold is_pinned. apply Z.ltb_lt.
  destruct (page_table_ s !! page_id) as [f0 |] eqn:Hres.
  - destruct (Hhit f0 eq_refl) as (<- & _ & -> & _).
    destruct Hinv as (_ & _ & _ & _ & _ & Htab & Hpin).
    destruct (Htab _ _ Hres) as [Hf' _]. destruct (Hpin f Hf') as [H0 _]. lia.
  - destruct (Hmiss eq_refl) as [-> _]. lia.
Qed.

Lemma NewPgImp_result (d d' : gmap Z (list Z)) (s s' : t) (page_id : Z) (f : nat) :
  pool_inv s -> NewPgImp d s = (d', s', Some (page_id, f)) ->
  (f < pool_size_ s)%nat
  /\ page_id = next_page_id_ s
  /\ next_page_id_ s' = next_page_id_ s + num_instances_ s
  /\ page_at s' f = mkPage zeroed_data page_id 1 false
  /\ ReadPage d' page_id = zeroed_data
  /\ (page_table_ s !! page_id = None -> page_table_ s' !! page_id = Some f).
Proof.
  intros Hinv. unfold NewPgImp.
  destruct (no_frame_left s); [discriminate |].
  unfold AllocatePage. cbv zeta.
  match goal with |- context [pick_frame ?s0] => set (sa := s0) end.
  assert (Hsa : pool_inv sa) by exact Hinv.
  destruct (pick_frame sa) as [[s1 f1] |] eqn:Hpick; [| discriminate].
  destruct (pick_frame_takes sa s1 f1 Hsa Hpick)
    as (Hinv1 & Hf & Hnin & Hz & Hpages & Htable & Hsize & Hnum & Hidx & Hnext).
  pose proof (write_back_same_meta d s1 f1) as Hmeta.
  pose proof (write_back_clean d s1 f1) as Hclean.
  destruct (write_back d s1 f1) as [dw sw]. cbn [fst snd] in *.
  destruct Hmeta as (A1 & A2 & A3 & M1 & M2 & M3 & M4 & M5 & M6).
  intros [= <- <- <- <-].
  assert (Hlen : (f1 < length (pages_ s1))%nat).
  { rewrite Hpages. change (pages_ sa) with (pages_ s). destruct Hinv as [-> _]. exact Hf. }
  split; [exact Hf |]. split; [reflexivity |]. split; [| split; [| split]].
  - pool_fields. rewrite A3, Hnext. reflexivity.
  - unfold page_at at 1. pool_fields.
    rewrite list_lookup_insert_eq by (rewrite M2; exact Hlen).
    cbn [default from_option id]. rewrite Hclean by exact Hlen. reflexivity.
  - unfold ReadPage, WritePage. rewrite lookup_insert_eq. reflexivity.
  - intros Hnone. pool_fields. unfold table_insert.
    assert (Hdel : delete (page_id_ (page_at sw f1)) (page_table_ sw) !! next_page_id_ s
                   = None).
    { apply lookup_delete_None. right. rewrite M5, Htable. exact Hnone. }
    rewrite Hdel. apply lookup_insert_eq.
Qed.

(** X16: After any sequence of calls, the frame NewPgImp returns holds the new
    page zeroed, clean and with pin count one, the disk holds zeroes
    for it, and the page is resident unless its identifier already was in
    the page table. *)
Theorem NewPgImp_returns_a_zeroed_pinned_page (d0 : gmap Z (list Z)) (pool_size : nat)
        (num_instances instance_index : Z) (cs : list call)
        (d d' : gmap Z (list Z)) (s' : t) (page_id : Z) (f : nat) :
  let s := (run_calls (d0, init pool_size num_instances instance_index) cs).2 in
  NewPgImp d s = (d', s', Some (page_id, f)) ->
  (f < pool_size)%nat
  /\ page_at s' f = mkPage zeroed_data page_id 1 false
  /\ ReadPage d' page_id = zeroed_data
  /\ (page_table_ s !! page_id = None -> page_table_ s' !! page_id = Some f).
Proof.
  cbv zeta. intros Hnew.
  pose proof (reached_inv d0 pool_size num_instances instance_index cs) as Hinv.
  pose proof (run_calls_pool_size cs (d0, init pool_size num_instances instance_index))
    as Hsize. cbn [snd init pool_size_] in Hsize.
  set (s := (run_calls _ cs).2) in *.
  destruct (NewPgImp_result d d' s s' page_id f Hinv Hnew)
    as (Hf & _ & _ & Hpage & Hdisk & Htab).
  rewrite Hsize in Hf. repeat split; assumption.
Qed.

Lemma run_call_allocator (ds : gmap Z (list Z) * t) (c : call) :
  allocator_step ds.2 (run_call ds c).2.
Proof.
  destruct ds as [d s]. unfold allocator_step. destruct c; cbn [run_call snd].
  - unfold NewPgImp, AllocatePage, pick_frame, write_back, LRUReplacer.Victim.
    repeat case_match; simplify_eq; pool_fields; auto.
  - unfold FetchPgImp, pick_frame, write_back, LRUReplacer.Victim.
    repeat case_match; simplify_eq; pool_fields; auto.
  - unfold UnpinPgImp. repeat case_match; pool_fields; auto.
  - unfold FlushPgImp. repeat case_match; simplify_eq; pool_fields; auto.
  - unfold DeletePgImp. repeat case_match; pool_fields; auto.
  - destruct (FlushAllPgsImp_same_meta d s) as (A1 & A2 & A3 & _). auto.
Qed.

Lemma run_calls_allocator (cs : list call) :
  forall ds,
    num_instances_ (run_calls ds cs).2 = num_instances_ ds.2
    /\ instance_index_ (run_calls ds cs).2 = instance_index_ ds.2
    /\ exists k, 0 <= k
         /\ next_page_id_ (run_calls ds cs).2 = next_page_id_ ds.2 + k * num_instances_ ds.2.
Proof.
  induction cs as [| c cs IH]; intros ds; cbn [run_calls fold_left].
  - repeat split. exists 0. split; lia.
  - destruct (IH (run_call ds c)) as (Hn & Hi & k & Hk & Hnext).
    destruct (run_call_allocator ds c) as (Sn & Si & Snext).
    unfold run_calls in *. rewrite Hn, Hi, Hnext, Sn, Si.
    split; [reflexivity |]. split; [reflexivity |].
    destruct Snext as [-> | ->]; [exists k | exists (k + 1)]; split; lia.
Qed.


(** X18: After any sequence of calls, UnpinPgImp on a resident page returns true
    exactly when the page is pinned and then lowers the pin count by one;
    afterwards the frame is in the replacer exactly when its pin count is
    zero, and the page is dirty when it was or when the caller says so,
    also when the call returns false. *)
Theorem UnpinPgImp_on_resident_page (d0 : gmap Z (list Z)) (pool_size : nat)
        (num_instances instance_index : Z) (cs : list call)
        (page_id : Z) (is_dirty : bool) (f : nat) :
  let s := (run_calls (d0, init pool_size num_instances instance_index) cs).2 in
  let s' := (UnpinPgImp s page_id is_dirty).1 in
  page_table_ s !! page_id = Some f ->
  (UnpinPgImp s page_id is_dirty).2 = (0 <? pin_count_ (page_at s f))
  /\ pin_count_ (page_at s' f) = Z.max 0 (pin_count_ (page_at s f) - 1)
  /\ in_replacer s' f = (pin_count_ (page_at s' f) =? 0)
  /\ is_dirty_ (page_at s' f) = is_dirty || is_dirty_ (page_at s f).
Proof.
  cbv zeta. intros Hres.
  pose proof (reached_inv d0 pool_size num_instances instance_index cs) as Hinv.
  set (s := (run_calls _ cs).2) in *.
  pose proof (UnpinPgImp_inv s page_id is_dirty Hinv) as Hinv'.
  destruct Hinv as (Hlen & Hrep & _ & Hfree & Hrepl & Htab & Hpin).
  destruct (Htab _ _ Hres) as [Hf _]. destruct (Hpin f Hf) as [H0 Hzero].
  assert (Hat : forall s0 p, pages_ s0 = pages_ s -> page_at (set_page s0 f p) f = p).
  { intros s0 p Hs0. apply page_at_set_page. now rewrite Hs0, Hlen. }
  assert (Hsame : forall s2, frames (replacer_ s2) = frames (replacer_ s) ->
            in_replacer s2 f = (pin_count_ (page_at s f) =? 0)).
  { intros s2 Hs2. unfold in_replacer. rewrite Hs2.
    destruct (Z.eqb_spec (pin_count_ (page_at s f)) 0) as [Hz | Hnz].
    - apply existsb_eqb_In. destruct (Hzero Hz) as [[=] | [Hin | Hin]]; [| exact Hin].
      destruct (Hfree f Hin) as (_ & _ & C). now destruct (C page_id).
    - destruct (existsb _ _) eqn:Hex; [| reflexivity].
      apply existsb_eqb_In, Hrepl in Hex as [_ Hz]. contradiction. }
  unfold UnpinPgImp in *. rewrite Hres in *. cbv zeta in *.
  set (s1 := if is_dirty then _ else s) in *.
  assert (Hs1 : pages_ s1 = pages_ s \/ is_dirty = true).
  { subst s1. destruct is_dirty; [now right | now left]. }
  assert (Hp1 : pin_count_ (page_at s1 f) = pin_count_ (page_at s f)
                /\ is_dirty_ (page_at s1 f) = is_dirty || is_dirty_ (page_at s f)
                /\ length (pages_ s1) = length (pages_ s)
                /\ replacer_ s1 = replacer_ s).
  { subst s1. destruct is_dirty; [| repeat split].
    rewrite Hat by reflexivity. pool_fields. rewrite length_insert. repeat split. }
  destruct Hp1 as (Hpin1 & Hdirty1 & Hlen1 & Hrep1). clearbody s1.
  rewrite Hpin1 in *.
  destruct (Z.leb_spec (pin_count_ (page_at s f)) 0) as [Hle | Hgt]; cbn [fst snd] in *.
  - assert (Hz : pin_count_ (page_at s f) = 0) by lia.
    rewrite Hpin1, Hz. cbn [Z.max Z.ltb Z.eqb Z.compare Z.sub Z.add Z.opp Z.pos_sub].
    repeat split; try assumption.
    rewrite (Hsame s1) by now rewrite Hrep1. now rewrite Hz.
  - assert (Hat1 : forall p, page_at (set_page s1 f p) f = p).
    { intros p. apply page_at_set_page. now rewrite Hlen1, Hlen. }
    rewrite Hat1 in *. cbn [pin_count_] in *.
    destruct (Z.eqb_spec (pin_count_ (page_at s f) - 1) 0) as [Hz | Hnz].
    + rewrite page_at_set_replacer, Hat1. cbn [pin_count_ is_dirty_].
      split; [symmetry; apply Z.ltb_lt; lia |]. split; [lia |]. split; [| exact Hdirty1].
      rewrite Hz. unfold in_replacer. pool_fields.
      apply existsb_eqb_In, In_Unpin. now right.
    + rewrite Hat1. cbn [pin_count_ is_dirty_].
      split; [symmetry; apply Z.ltb_lt; lia |]. split; [lia |]. split; [| exact Hdirty1].
      destruct (Z.eqb_spec (pin_count_ (page_at s f) - 1) 0) as [| _]; [contradiction |].
      unfold in_replacer. pool_fields. rewrite Hrep1.
      destruct (existsb _ _) eqn:Hex; [| reflexivity].
      apply existsb_eqb_In, Hrepl in Hex as [_ Hz]. lia.
Qed.

End PoolFacts.

Section PoolFactRuns.
Import BufferPoolManagerInstance.

(** Instance 1 of two, with two frames, after one NewPage: page 1 sits in
    frame 1 with pin count one. *)
Local Abbreviation second_instance := (run_calls (∅, init 2 2 1) [NewPage]).
(** A pool of one frame whose page 0 was created and unpinned. *)
Local Abbreviation unpinned_pool := (run_calls (∅, init 1 1 0) [NewPage; UnpinPage 0 false]).
Local Abbreviation fetched := (FetchPgImp unpinned_pool.1 unpinned_pool.2 0).
Local Abbreviation created := (NewPgImp second_instance.1 second_instance.2).

(** X13 (witness): page 1 in frame 1 of the second instance. *)
Lemma page_table_entry_points_at_its_page_witness :
  page_table_ second_instance.2 !! 1 = Some 1%nat
  /\ (1 < 2)%nat
  /\ page_id_ (page_at second_instance.2 1) = 1
  /\ forall page_id', page_table_ second_instance.2 !! page_id' = Some 1%nat -> page_id' = 1.
Proof.
  assert (H : page_table_ second_instance.2 !! 1 = Some 1%nat) by (vm_compute; reflexivity).
  split; [exact H |].
  exact (page_table_entry_points_at_its_page ∅ 2 2 1 [NewPage] 1 1 H).
Defined.

(** X15 (witness): FetchPage(0) on the pool whose page 0 is resident and unpinned. *)
Lemma FetchPgImp_returns_the_page_pinned_witness :
  fetched = (fetched.1.1, fetched.1.2, Some 0%nat)
  /\ (0 < 1)%nat
  /\ page_id_ (page_at fetched.1.2 0) = 0
  /\ is_pinned fetched.1.2 0 = true
  /\ (page_table_ unpinned_pool.2 !! 0 = None ->
      pin_count_ (page_at fetched.1.2 0) = 1
      /\ data_ (page_at fetched.1.2 0) = ReadPage fetched.1.1 0)
  /\ (forall f0, page_table_ unpinned_pool.2 !! 0 = Some f0 ->
        0%nat = f0 /\ fetched.1.1 = unpinned_pool.1
        /\ pin_count_ (page_at fetched.1.2 0) = pin_count_ (page_at unpinned_pool.2 0) + 1
        /\ data_ (page_at fetched.1.2 0) = data_ (page_at unpinned_pool.2 0)).
Proof.
  assert (H : fetched = (fetched.1.1, fetched.1.2, Some 0%nat)) by (vm_compute; reflexivity).
  split; [exact H |].
  exact (FetchPgImp_returns_the_page_pinned ∅ 1 1 0 [NewPage; UnpinPage 0 false]
           unpinned_pool.1 fetched.1.1 fetched.1.2 0 0 H).
Defined.

(** X16 (witness): the second NewPage of the second instance, which hands out page 3 in frame 0. *)
Lemma NewPgImp_returns_a_zeroed_pinned_page_witness :
  created = (created.1.1, created.1.2, Some (3, 0%nat))
  /\ (0 < 2)%nat
  /\ page_at created.1.2 0 = mkPage zeroed_data 3 1 false
  /\ ReadPage created.1.1 3 = zeroed_data
  /\ (page_table_ second_instance.2 !! 3 = None -> page_table_ created.1.2 !! 3 = Some 0%nat).
Proof.
  assert (H : created = (created.1.1, created.1.2, Some (3, 0%nat)))
    by (vm_compute; reflexivity).
  split; [exact H |].
  exact (NewPgImp_returns_a_zeroed_pinned_page ∅ 2 2 1 [NewPage]
           second_instance.1 created.1.1 created.1.2 3 0 H).
Defined.


(** X18 (witness): UnpinPage(1, true) on the page the second instance holds pinned once. *)
Lemma UnpinPgImp_on_resident_page_witness :
  page_table_ second_instance.2 !! 1 = Some 1%nat
  /\ (UnpinPgImp second_instance.2 1 true).2
     = (0 <? pin_count_ (page_at second_instance.2 1))
  /\ pin_count_ (page_at (UnpinPgImp second_instance.2 1 true).1 1)
     = Z.max 0 (pin_count_ (page_at second_instance.2 1) - 1)
  /\ in_replacer (UnpinPgImp second_instance.2 1 true).1 1
     = (pin_count_ (page_at (UnpinPgImp second_instance.2 1 true).1 1) =? 0)
  /\ is_dirty_ (page_at (UnpinPgImp second_instance.2 1 true).1 1)
     = true || is_dirty_ (page_at second_instance.2 1).
Proof.
  assert (H : page_table_ second_instance.2 !! 1 = Some 1%nat) by (vm_compute; reflexivity).
  split; [exact H |].
  exact (UnpinPgImp_on_resident_page ∅ 2 2 1 [NewPage] 1 true 1 H).
Defined.

End PoolFactRuns.

(** ** The parallel pool: what every sequence of calls keeps *)

Section ParallelPoolFacts.
Import ParallelBufferPoolManager ParallelProps PoolProps.

Lemma instances_lookup (f : nat -> option BPI.t) (n : nat) :
  forall (s : nat) (k : Z),
    (list_to_map (map (fun i : nat => (Z.of_nat i, f i)) (seq s n)) : gmap Z (option BPI.t))
      !! k
    = if decide (Z.of_nat s <= k < Z.of_nat (s + n)) then Some (f (Z.to_nat k)) else None.
Proof.
  induction n as [| n IH]; intros s k; cbn [seq map list_to_map foldr].
  - rewrite lookup_empty. destruct (decide _); [lia | reflexivity].
  - cbn [fst snd]. destruct (decide (Z.of_nat s = k)) as [<- | Hne].
    + rewrite lookup_insert_eq, Nat2Z.id. destruct (decide _); [reflexivity | lia].
    + rewrite lookup_insert_ne by exact Hne. rewrite IH.
      repeat destruct (decide _); (reflexivity || lia).
Qed.

Lemma ids_inv_init (pool_size : nat) (num_instances instance_index : Z) :
  ids_inv (BPI.init pool_size num_instances instance_index).
Proof. exists 0. cbn. split; lia. Qed.

Lemma ids_inv_step (s s' : BPI.t) :
  allocator_step s s' -> ids_inv s -> ids_inv s'.
Proof.
  intros (Hn & Hi & Hnext) (k & Hk & Hs). unfold ids_inv. rewrite Hn, Hi.
  destruct Hnext as [-> | ->]; [exists k | exists (k + 1)]; split; lia.
Qed.

Lemma init_instances_inv (num_instances pool_size : nat) :
  (0 < num_instances)%nat -> instances_inv (init num_instances pool_size).
Proof.
  intros Hn. unfold instances_inv, init.
  cbn [num_instances_ next_index_ buffer_pool_manager_instances_ pool_size_].
  split; [exact Hn |]. split; [exact Hn |]. split.
  - intros i Hi. eexists. split.
    + rewrite instances_lookup. destruct (decide _) as [_ | Hno]; [| lia].
      rewrite Nat2Z.id. reflexivity.
    + split; [apply init_pool_inv |]. split; [apply ids_inv_init |]. repeat split.
  - intros k inst Hk. rewrite instances_lookup in Hk.
    destruct (decide _) as [Hin | _]; [lia | discriminate].
Qed.

(** What the calls of an instance keep of it. *)
Lemma instance_call_keeps (p : t) (i : nat) (d : gmap Z (list Z)) (inst : BPI.t)
      (c : BPI.call) :
  instance_inv p i inst -> instance_inv p i (BPI.run_call (d, inst) c).2.
Proof.
  intros (Hinv & Hids & Hn & Hi & Hsize).
  destruct (run_call_allocator (d, inst) c) as (Sn & Si & Snext).
  pose proof (run_call_allocator (d, inst) c) as Hstep.
  split; [now apply (run_call_inv (d, inst) c) |].
  split; [now apply (ids_inv_step inst) |].
  rewrite Sn, Si, (run_call_pool_size (d, inst) c). repeat split; assumption.
Qed.

Lemma insert_instance_inv (p : t) (k : Z) (next : nat) (d : gmap Z (list Z))
      (inst0 inst : BPI.t) :
  instances_inv p ->
  buffer_pool_manager_instances_ p !! k = Some (Some inst0) ->
  (forall i, instance_inv p i inst0 -> instance_inv p i inst) ->
  (next < num_instances_ p)%nat ->
  instances_inv (mk (num_instances_ p) (pool_size_ p) next
                    (<[k := Some inst]> (buffer_pool_manager_instances_ p)) d).
Proof.
  intros (Hn & Hnext & Hinst & Hnull) Hlook Hkeep Hlt. unfold instances_inv.
  cbn [num_instances_ next_index_ buffer_pool_manager_instances_ pool_size_].
  pose proof (Hnull k inst0 Hlook) as Hk.
  split; [exact Hn |]. split; [exact Hlt |]. split.
  - intros i Hi. destruct (Hinst i Hi) as (insti & Hlooki & Hinvi).
    destruct (decide (k = Z.of_nat i)) as [Heq | Hne].
    + exists inst. rewrite Heq, lookup_insert_eq. split; [reflexivity |].
      rewrite Heq, Hlooki in Hlook. injection Hlook as <-.
      apply (Hkeep i) in Hinvi. exact Hinvi.
    + exists insti. rewrite lookup_insert_ne by exact Hne. split; [exact Hlooki | exact Hinvi].
  - intros k' inst' Hk'. destruct (decide (k = k')) as [<- | Hne]; [exact Hk |].
    rewrite lookup_insert_ne in Hk' by exact Hne. now apply (Hnull k' inst').
Qed.

Lemma store_inv (p : t) (page_id : Z) (d : gmap Z (list Z)) (inst0 inst : BPI.t) :
  instances_inv p ->
  buffer_pool_manager_instances_ p !! instance_index p page_id = Some (Some inst0) ->
  (forall i, instance_inv p i inst0 -> instance_inv p i inst) ->
  instances_inv (store p page_id d inst).
Proof.
  intros Hinv Hlook Hkeep. unfold store.
  apply (insert_instance_inv p _ _ d inst0 inst Hinv Hlook Hkeep). apply Hinv.
Qed.

Lemma instances_inv_null_entry (p : t) (k : Z) :
  instances_inv p -> buffer_pool_manager_instances_ p !! k = None ->
  instances_inv (set_instances p (<[k := None]> (buffer_pool_manager_instances_ p))).
Proof.
  intros (Hn & Hnext & Hinst & Hnull) Hnone. unfold instances_inv, set_instances.
  cbn [num_instances_ next_index_ buffer_pool_manager_instances_ pool_size_].
  split; [exact Hn |]. split; [exact Hnext |]. split.
  - intros i Hi. destruct (Hinst i Hi) as (insti & Hlooki & Hinvi).
    exists insti. split; [| exact Hinvi]. rewrite lookup_insert_ne; [exact Hlooki |].
    intros Heq. rewrite Heq, Hlooki in Hnone. discriminate.
  - intros k' inst' Hk'. destruct (decide (k = k')) as [<- | Hne].
    + rewrite lookup_insert_eq in Hk'. discriminate.
    + rewrite lookup_insert_ne in Hk' by exact Hne. now apply (Hnull k' inst').
Qed.

Lemma FetchPgImp_instances_inv (p p' : t) (page_id : Z) (r : option nat) :
  instances_inv p -> FetchPgImp p page_id = Some (p', r) -> instances_inv p'.
Proof.
  intros Hinv. unfold FetchPgImp, GetBufferPoolManager.
  destruct (buffer_pool_manager_instances_ p !! instance_index p page_id)
    as [[inst |] |] eqn:Hlook; try discriminate.
  pose proof (fun i => instance_call_keeps p i (disk_ p) inst (BPI.FetchPage page_id))
    as Hkeep. cbn [BPI.run_call] in Hkeep.
  destruct (BPI.FetchPgImp (disk_ p) inst page_id) as [[d' inst'] r'].
  intros [= <- <-]. now apply (store_inv p page_id d' inst inst').
Qed.

Lemma UnpinPgImp_instances_inv (p p' : t) (page_id : Z) (is_dirty r : bool) :
  instances_inv p -> UnpinPgImp p page_id is_dirty = Some (p', r) -> instances_inv p'.
Proof.
  intros Hinv. unfold UnpinPgImp, GetBufferPoolManager.
  destruct (buffer_pool_manager_instances_ p !! instance_index p page_id)
    as [[inst |] |] eqn:Hlook; try discriminate.
  pose proof (fun i => instance_call_keeps p i (disk_ p) inst (BPI.UnpinPage page_id is_dirty))
    as Hkeep. cbn [BPI.run_call snd] in Hkeep.
  destruct (BPI.UnpinPgImp inst page_id is_dirty) as [inst' r'].
  intros [= <- <-]. now apply (store_inv p page_id (disk_ p) inst inst').
Qed.

Lemma FlushPgImp_instances_inv (p p' : t) (page_id : Z) (r : bool) :
  instances_inv p -> FlushPgImp p page_id = Some (p', r) -> instances_inv p'.
Proof.
  intros Hinv. unfold FlushPgImp, GetBufferPoolManager.
  destruct (buffer_pool_manager_instances_ p !! instance_index p page_id)
    as [[inst |] |] eqn:Hlook; try discriminate.
  pose proof (fun i => instance_call_keeps p i (disk_ p) inst (BPI.FlushPage page_id))
    as Hkeep. cbn [BPI.run_call] in Hkeep.
  destruct (BPI.FlushPgImp (disk_ p) inst page_id) as [[d' inst'] r'].
  intros [= <- <-]. now apply (store_inv p page_id d' inst inst').
Qed.

Lemma DeletePgImp_instances_inv (p p' : t) (page_id : Z) (r : bool) :
  instances_inv p -> DeletePgImp p page_id = Some (p', r) -> instances_inv p'.
Proof.
  intros Hinv. unfold DeletePgImp, GetBufferPoolManager.
  destruct (buffer_pool_manager_instances_ p !! instance_index p page_id)
    as [[inst |] |] eqn:Hlook.
  - pose proof (fun i => instance_call_keeps p i (disk_ p) inst (BPI.DeletePage page_id))
      as Hkeep. cbn [BPI.run_call snd] in Hkeep.
    destruct (BPI.DeletePgImp inst page_id) as [inst' r'].
    intros [= <- <-]. now apply (store_inv p page_id (disk_ p) inst inst').
  - intros [= <- <-]. exact Hinv.
  - intros [= <- <-]. now apply instances_inv_null_entry.
Qed.

Lemma instance_NewPgImp_None (d : gmap Z (list Z)) (s : BPI.t) :
  (BPI.NewPgImp d s).2 = None ->
  BPI.no_frame_left s = true /\ BPI.NewPgImp d s = (d, s, None).
Proof.
  unfold BPI.NewPgImp. destruct (BPI.no_frame_left s) eqn:Hleft; [now split |].
  unfold BPI.AllocatePage. cbv zeta.
  match goal with |- context [BPI.pick_frame ?s0] => set (sa := s0) end.
  destruct (BPI.pick_frame sa) as [[s1 f] |] eqn:Hpick.
  - destruct (BPI.write_back d s1 f). discriminate.
  - apply pick_frame_None in Hpick. change (BPI.no_frame_left s = true) in Hpick. congruence.
Qed.

Lemma instance_NewPgImp_Some (d d' : gmap Z (list Z)) (s s' : BPI.t) (page : Z * nat) :
  BPI.NewPgImp d s = (d', s', Some page) -> BPI.no_frame_left s = false.
Proof.
  unfold BPI.NewPgImp. destruct (BPI.no_frame_left s); [discriminate | reflexivity].
Qed.

Lemma round_robin_index (saved k n : nat) :
  (saved < n)%nat -> (0 < k < n)%nat -> ((saved + k) mod n)%nat <> saved.
Proof.
  intros Hs Hk Heq. destruct (Nat.lt_ge_cases (saved + k) n) as [Hlt | Hge].
  - rewrite Nat.mod_small in Heq by exact Hlt. lia.
  - replace (saved + k)%nat with ((saved + k - n) + 1 * n)%nat in Heq by lia.
    rewrite Nat.Div0.mod_add, Nat.mod_small in Heq by lia. lia.
Qed.

(** The loop of NewPgImp from the k-th instance in round-robin order: it
    comes back to the start after trying every instance in vain and leaves
    the pool as it was, or it takes the page of the first instance that has
    a frame left. *)
Lemma NewPg_loop_run (n : nat) :
  forall (p : t) (k : nat),
    instances_inv p -> (k < num_instances_ p)%nat -> n = (num_instances_ p - k)%nat ->
    let N := num_instances_ p in
    let saved := next_index_ p in
    let at_ (j : nat) := buffer_pool_manager_instances_ p !! Z.of_nat ((saved + j) mod N) in
    (NewPg_loop n p ((saved + k) mod N) saved = Some (p, None)
     /\ forall j inst, (k <= j < N)%nat -> at_ j = Some (Some inst) ->
                       BPI.no_frame_left inst = true)
    \/ exists (j : nat) (inst inst' : BPI.t) (d' : gmap Z (list Z)) (page : Z * nat),
         (k <= j < N)%nat /\ at_ j = Some (Some inst)
         /\ (forall j' inst0, (k <= j' < j)%nat -> at_ j' = Some (Some inst0) ->
                              BPI.no_frame_left inst0 = true)
         /\ BPI.NewPgImp (disk_ p) inst = (d', inst', Some page)
         /\ NewPg_loop n p ((saved + k) mod N) saved
            = Some (mk N (pool_size_ p) ((saved + 1) mod N)
                       (<[Z.of_nat ((saved + j) mod N) := Some inst']>
                          (buffer_pool_manager_instances_ p)) d',
                    Some page).
Proof.
  induction n as [| n IH]; intros p k Hinv Hk Hn; cbv zeta; [lia |].
  pose proof Hinv as (HN & Hsaved & Hinst & _).
  set (N := num_instances_ p) in *. set (saved := next_index_ p) in *.
  assert (Hidx : ((saved + k) mod N < N)%nat) by (apply Nat.mod_upper_bound; lia).
  destruct (Hinst _ Hidx) as (inst & Hlook & _).
  cbn [NewPg_loop]. rewrite Hlook.
  destruct (BPI.NewPgImp (disk_ p) inst) as [[d' inst'] r] eqn:Hnew.
  destruct r as [page |].
  - right. exists k, inst, inst', d', page.
    split; [lia |]. split; [exact Hlook |]. split; [intros; lia |].
    split; [exact Hnew | reflexivity].
  - destruct (instance_NewPgImp_None (disk_ p) inst) as [Hleft Heq];
      [now rewrite Hnew |].
    rewrite Hnew in Heq. injection Heq as -> ->.
    assert (Hsame : mk (num_instances_ p) (pool_size_ p) (next_index_ p)
                       (<[Z.of_nat ((saved + k) mod N) := Some inst]>
                          (buffer_pool_manager_instances_ p)) (disk_ p) = p).
    { rewrite insert_id by exact Hlook. now destruct p. }
    rewrite Hsame. fold N.
    rewrite Nat.Div0.add_mod_idemp_l, <- Nat.add_assoc.
    destruct (Nat.eqb_spec ((saved + (k + 1)) mod N) saved) as [Hback | Hon].
    + left. split; [reflexivity |]. intros j inst0 Hj Hat.
      assert (j = k).
      { destruct (decide (k + 1 = N)%nat); [lia |].
        exfalso. apply (round_robin_index saved (k + 1) N); [exact Hsaved | lia | exact Hback]. }
      subst j. rewrite Hlook in Hat. now injection Hat as <-.
    + assert (Hk1 : (k + 1 < N)%nat).
      { destruct (decide (k + 1 = N)%nat) as [Heq | Hne]; [| lia].
        exfalso. apply Hon. rewrite Heq.
        replace (saved + N)%nat with (saved + 1 * N)%nat by lia.
        rewrite Nat.Div0.mod_add. now apply Nat.mod_small. }
      destruct (IH p (k + 1)%nat Hinv Hk1 ltac:(lia)) as [[Hloop Hnone] | Hsome].
      * left. split; [exact Hloop |]. intros j inst0 Hj Hat.
        destruct (decide (j = k)) as [-> | Hne].
        -- fold N saved in Hat. rewrite Hlook in Hat. now injection Hat as <-.
        -- apply (Hnone j inst0); [lia | exact Hat].
      * right. destruct Hsome as (j & inst1 & inst1' & d1 & page & Hj & Hat & Hbefore & Hnew1 & Hloop).
        exists j, inst1, inst1', d1, page.
        split; [lia |]. split; [exact Hat |]. split; [| split; [exact Hnew1 | exact Hloop]].
        intros j' inst0 Hj' Hat'. destruct (decide (j' = k)) as [-> | Hne].
        -- fold N saved in Hat'. rewrite Hlook in Hat'. now injection Hat' as <-.
        -- apply (Hbefore j' inst0); [lia | exact Hat'].
Qed.

Lemma NewPgImp_run (p : t) :
  instances_inv p ->
  let N := num_instances_ p in
  let saved := next_index_ p in
  let at_ (j : nat) := buffer_pool_manager_instances_ p !! Z.of_nat ((saved + j) mod N) in
  (NewPgImp p = Some (p, None)
   /\ forall j inst, (j < N)%nat -> at_ j = Some (Some inst) ->
                     BPI.no_frame_left inst = true)
  \/ exists (j : nat) (inst inst' : BPI.t) (d' : gmap Z (list Z)) (page : Z * nat),
       (j < N)%nat /\ at_ j = Some (Some inst)
       /\ (forall j' inst0, (j' < j)%nat -> at_ j' = Some (Some inst0) ->
                            BPI.no_frame_left inst0 = true)
       /\ BPI.NewPgImp (disk_ p) inst = (d', inst', Some page)
       /\ NewPgImp p
          = Some (mk N (pool_size_ p) ((saved + 1) mod N)
                     (<[Z.of_nat ((saved + j) mod N) := Some inst']>
                        (buffer_pool_manager_instances_ p)) d',
                  Some page).
Proof.
  intros Hinv. cbv zeta. pose proof Hinv as (HN & Hsaved & _).
  pose proof (NewPg_loop_run (num_instances_ p) p 0 Hinv HN ltac:(lia)) as Hrun.
  cbv zeta in Hrun. rewrite Nat.add_0_r, (Nat.mod_small (next_index_ p)) in Hrun by exact Hsaved.
  unfold NewPgImp.
  destruct Hrun as [[Hloop Hnone] | (j & inst & inst' & d' & page & Hj & Hat & Hbefore & Hnew & Hloop)].
  - left. split; [exact Hloop |]. intros j inst Hj. apply Hnone. lia.
  - right. exists j, inst, inst', d', page.
    split; [lia |]. split; [exact Hat |]. split; [| split; [exact Hnew | exact Hloop]].
    intros j' inst0 Hj'. apply Hbefore. lia.
Qed.

Lemma NewPgImp_instances_inv (p p' : t) (r : option (Z * nat)) :
  instances_inv p -> NewPgImp p = Some (p', r) -> instances_inv p'.
Proof.
  intros Hinv Hnew.
  destruct (NewPgImp_run p Hinv)
    as [[Heq _] | (j & inst & inst' & d' & page & Hj & Hat & _ & Hinst & Heq)];
    rewrite Heq in Hnew; injection Hnew as <- <-; [exact Hinv |].
  apply (insert_instance_inv p _ _ d' inst inst' Hinv Hat).
  - intros i Hi.
    pose proof (instance_call_keeps p i (disk_ p) inst BPI.NewPage Hi) as Hkeep.
    cbn [BPI.run_call] in Hkeep. now rewrite Hinst in Hkeep.
  - apply Nat.mod_upper_bound. destruct Hinv as (HN & _). lia.
Qed.

Lemma run_call_instances_inv (p p' : t) (c : call) :
  instances_inv p -> run_call p c = Some p' -> instances_inv p'.
Proof.
  intros Hinv. destruct c; cbn [run_call]; intros Hrun;
    apply fmap_Some in Hrun as ([p1 r] & Hcall & ->); cbn [fst].
  - now apply (NewPgImp_instances_inv p p1 r).
  - now apply (FetchPgImp_instances_inv p p1 page_id r).
  - now apply (UnpinPgImp_instances_inv p p1 page_id is_dirty r).
  - now apply (FlushPgImp_instances_inv p p1 page_id r).
  - now apply (DeletePgImp_instances_inv p p1 page_id r).
Qed.

Lemma run_calls_instances_inv (cs : list call) :
  forall p p', instances_inv p -> run_calls p cs = Some p' -> instances_inv p'.
Proof.
  induction cs as [| c cs IH]; intros p p' Hinv; cbn [run_calls].
  - now intros [= <-].
  - destruct (run_call p c) as [p1 |] eqn:Hcall; [| discriminate].
    apply IH. now apply (run_call_instances_inv p p1 c).
Qed.

Lemma run_call_sizes (p p' : t) (c : call) :
  run_call p c = Some p' ->
  num_instances_ p' = num_instances_ p /\ pool_size_ p' = pool_size_ p.
Proof.
  assert (Hloop : forall n p index saved p' r,
             NewPg_loop n p index saved = Some (p', r) ->
             num_instances_ p' = num_instances_ p /\ pool_size_ p' = pool_size_ p).
  { induction n as [| n IH]; intros q index saved q' r; cbn [NewPg_loop]; [discriminate |].
    destruct (buffer_pool_manager_instances_ q !! Z.of_nat index) as [[inst |] |];
      try discriminate.
    destruct (BPI.NewPgImp (disk_ q) inst) as [[d' inst'] [page |]].
    - intros [= <- <-]. split; reflexivity.
    - destruct (Nat.eqb _ saved); [intros [= <- <-]; split; reflexivity |].
      intros Hrec. apply IH in Hrec. exact Hrec. }
  destruct c; cbn [run_call]; intros Hrun;
    apply fmap_Some in Hrun as ([p1 r] & Hcall & ->); cbn [fst].
  - unfold NewPgImp in Hcall. now apply Hloop in Hcall.
  - unfold FetchPgImp, GetBufferPoolManager in Hcall.
    repeat case_match; simplify_eq; split; reflexivity.
  - unfold UnpinPgImp, GetBufferPoolManager in Hcall.
    repeat case_match; simplify_eq; split; reflexivity.
  - unfold FlushPgImp, GetBufferPoolManager in Hcall.
    repeat case_match; simplify_eq; split; reflexivity.
  - unfold DeletePgImp, GetBufferPoolManager in Hcall.
    repeat case_match; simplify_eq; split; reflexivity.
Qed.

Lemma run_calls_sizes (cs : list call) :
  forall p p', run_calls p cs = Some p' ->
               num_instances_ p' = num_instances_ p /\ pool_size_ p' = pool_size_ p.
Proof.
  induction cs as [| c cs IH]; intros p p'; cbn [run_calls].
  - intros [= <-]. split; reflexivity.
  - destruct (run_call p c) as [p1 |] eqn:Hcall; [| discriminate].
    intros Hrest. apply IH in Hrest as [-> ->]. now apply (run_call_sizes p p1 c).
Qed.

(** X19: After any sequence of calls that went through no null pointer, with at
    least one instance and one frame and a capacity that fits size_t,
    GetBufferPoolManager finds an instance for a page identifier exactly
    when the identifier modulo the capacity is below the number of
    instances, and the instance it finds is then the one that allocates the
    identifier: its index is the identifier modulo the number of instances. *)
Theorem GetBufferPoolManager_finds_the_owner_or_nothing (num_instances pool_size : nat)
        (cs : list call) (p : t) (page_id : Z) :
  (0 < num_instances)%nat -> (0 < pool_size)%nat ->
  Z.of_nat num_instances * Z.of_nat pool_size < 2 ^ 64 ->
  0 <= page_id < 2 ^ 31 ->
  run_calls (init num_instances pool_size) cs = Some p ->
  ((GetBufferPoolManager p page_id).2 = None
   <-> Z.of_nat num_instances
       <= page_id mod (Z.of_nat num_instances * Z.of_nat pool_size))
  /\ forall inst : BPI.t,
       (GetBufferPoolManager p page_id).2 = Some inst ->
       BPI.instance_index_ inst = page_id mod Z.of_nat num_instances
       /\ BPI.num_instances_ inst = Z.of_nat num_instances.
Proof.
  intros HN HP Hcap Hid Hrun.
  pose proof (run_calls_instances_inv cs _ p (init_instances_inv num_instances pool_size HN) Hrun)
    as (_ & _ & Hinst & Hnull).
  destruct (run_calls_sizes cs _ p Hrun) as [Hn Hp]. cbn [init num_instances_ pool_size_] in Hn, Hp.
  rewrite Hn in *. clear Hrun.
  assert (Hidx : instance_index p page_id
                 = page_id mod (Z.of_nat num_instances * Z.of_nat pool_size)).
  { unfold instance_index, GetPoolSize. rewrite Hn, Hp.
    rewrite (Z.mod_small page_id) by lia.
    rewrite (Z.mod_small (_ * _)) by lia. reflexivity. }
  set (cap := Z.of_nat num_instances * Z.of_nat pool_size) in *.
  assert (Hcap0 : 0 < cap) by (subst cap; nia).
  pose proof (Z.mod_pos_bound page_id cap Hcap0) as Hbound.
  unfold GetBufferPoolManager. rewrite Hidx.
  destruct (decide (page_id mod cap < Z.of_nat num_instances)) as [Hlt | Hge].
  - destruct (Hinst (Z.to_nat (page_id mod cap)) ltac:(lia))
      as (inst & Hlook & _ & _ & Hnum & Hindex & _).
    rewrite Z2Nat.id in Hlook, Hindex by lia. rewrite Hlook. cbn [snd].
    rewrite Hn in Hnum.
    split; [split; [discriminate | lia] |].
    intros inst0 [= <-]. split; [| exact Hnum]. rewrite Hindex.
    apply (Z.mod_unique_pos page_id (Z.of_nat num_instances)
             (Z.of_nat pool_size * (page_id / cap)) (page_id mod cap)); [lia |].
    pose proof (Z.div_mod page_id cap ltac:(lia)) as Hdiv. subst cap. nia.
  - destruct (buffer_pool_manager_instances_ p !! (page_id mod cap)) as [[inst |] |] eqn:Hlook;
      cbn [snd].
    + apply Hnull in Hlook. lia.
    + split; [split; [lia | reflexivity] | discriminate].
    + split; [split; [lia | reflexivity] | discriminate].
Qed.

Lemma round_robin_reaches (saved i n : nat) :
  (saved < n)%nat -> (i < n)%nat -> exists j, (j < n)%nat /\ ((saved + j) mod n)%nat = i.
Proof.
  intros Hs Hi. exists ((i + n - saved) mod n)%nat.
  split; [apply Nat.mod_upper_bound; lia |].
  rewrite Nat.Div0.add_mod_idemp_r.
  replace (saved + (i + n - saved))%nat with (i + 1 * n)%nat by lia.
  rewrite Nat.Div0.mod_add. now apply Nat.mod_small.
Qed.


(** X19 (witness): four instances of three frames and page 5, whose index modulo the
    capacity 12 is 5. *)
Lemma GetBufferPoolManager_finds_the_owner_or_nothing_witness :
  (0 < 4)%nat /\ (0 < 3)%nat /\ Z.of_nat 4 * Z.of_nat 3 < 2 ^ 64 /\ 0 <= 5 < 2 ^ 31
  /\ run_calls (init 4 3) [] = Some (init 4 3)
  /\ ((GetBufferPoolManager (init 4 3) 5).2 = None
      <-> Z.of_nat 4 <= 5 mod (Z.of_nat 4 * Z.of_nat 3))
  /\ forall inst : BPI.t,
       (GetBufferPoolManager (init 4 3) 5).2 = Some inst ->
       BPI.instance_index_ inst = 5 mod Z.of_nat 4
       /\ BPI.num_instances_ inst = Z.of_nat 4.
Proof.
  split; [lia |]. split; [lia |]. split; [cbn; lia |]. split; [lia |].
  split; [reflexivity |].
  apply (GetBufferPoolManager_finds_the_owner_or_nothing 4 3 [] (init 4 3) 5);
    [lia | lia | cbn; lia | lia | reflexivity].
Defined.


End ParallelPoolFacts.

(** ** The lock manager: wound-wait *)

Section LockWoundWait.
Import LockManager LockProps.

Lemma kept_or_wounded_refl (txn_id : Z) (txns : gmap Z Transaction) (other : Z) :
  kept_or_wounded txn_id txns txns other.
Proof. now left. Qed.

Lemma kept_or_wounded_trans (txn_id : Z) (a b c : gmap Z Transaction) (other : Z) :
  kept_or_wounded txn_id a b other -> kept_or_wounded txn_id b c other ->
  kept_or_wounded txn_id a c other.
Proof.
  intros [Hab | (Hlt & txn & Ha & Hb)] [Hbc | (Hlt' & txn' & Hb' & Hc)].
  - left. congruence.
  - right. split; [exact Hlt' |]. exists txn'. split; [congruence | exact Hc].
  - right. split; [exact Hlt |]. exists txn. split; [exact Ha | congruence].
  - right. split; [exact Hlt |]. exists txn. split; [exact Ha |].
    rewrite Hc. rewrite Hb in Hb'. injection Hb' as <-. reflexivity.
Qed.

Lemma kept_or_wounded_insert (txn_id : Z) (txns : gmap Z Transaction) (younger other : Z)
      (txn : Transaction) :
  txn_id < younger -> txns !! younger = Some txn ->
  kept_or_wounded txn_id txns (<[younger := SetState txn ABORTED]> txns) other.
Proof.
  intros Hlt Hlook. destruct (decide (younger = other)) as [<- | Hne].
  - right. split; [exact Hlt |]. exists txn. split; [exact Hlook | apply lookup_insert_eq].
  - left. now apply lookup_insert_ne.
Qed.

(** The second loop of NeedWait aborts only transactions younger than the
    caller, and it asks the caller to wait only for a request of an older
    transaction that stands ahead of the caller's. *)
Lemma NeedWait_scan_spec (txn_id : Z) (lock_mode : LockMode) (queue : list LockRequest) :
  forall (txns txns' : gmap Z Transaction) (queue' : list LockRequest)
         (need_wait need_wait' : bool),
    NeedWait_scan txns txn_id lock_mode queue need_wait = Some (txns', queue', need_wait') ->
    (forall other, kept_or_wounded txn_id txns txns' other)
    /\ (need_wait' = true ->
        need_wait = true
        \/ exists r, In r queue /\ txn_id_ r < txn_id
                     /\ (lock_mode = EXCLUSIVE \/ lock_mode_ r = EXCLUSIVE)).
Proof.
  induction queue as [| r rest IH]; intros txns txns' queue' need_wait need_wait';
    cbn [NeedWait_scan]; [discriminate |].
  destruct (Z.eqb_spec (txn_id_ r) txn_id) as [Heq | Hne].
  { intros [= <- <- <-]. split; [intros other; apply kept_or_wounded_refl | now left]. }
  assert (Hrest : forall txns0 nw0,
             (match NeedWait_scan txns0 txn_id lock_mode rest nw0 with
              | Some (txns1, rest1, nw1) => Some (txns1, r :: rest1, nw1)
              | None => None
              end) = Some (txns', queue', need_wait') ->
             exists rest1, NeedWait_scan txns0 txn_id lock_mode rest nw0
                           = Some (txns', rest1, need_wait')).
  { intros txns0 nw0 H.
    destruct (NeedWait_scan txns0 txn_id lock_mode rest nw0) as [[[t1 r1] n1] |];
      [| discriminate].
    injection H as <- <- <-. now exists r1. }
  destruct (Z.gtb_spec (txn_id_ r) txn_id) as [Hgt | Hle].
  - destruct (bool_decide (lock_mode = SHARED) && is_exclusive r
              || bool_decide (lock_mode = EXCLUSIVE)).
    + destruct (txns !! txn_id_ r) as [conflict_txn |] eqn:Hlook; [| discriminate].
      cbn [mbind option_bind].
      destruct (bool_decide (state_ conflict_txn = ABORTED)).
      * intros H. apply Hrest in H as (rest1 & H). apply IH in H as [Hw Hn].
        split; [exact Hw |]. intros Hnw. destruct (Hn Hnw) as [-> | (r0 & Hin & Hr0)];
          [now left | right]. exists r0. split; [now right | exact Hr0].
      * intros H. apply IH in H as [Hw Hn]. split.
        -- intros other. eapply kept_or_wounded_trans; [| apply Hw].
           now apply kept_or_wounded_insert.
        -- intros Hnw. destruct (Hn Hnw) as [-> | (r0 & Hin & Hr0)]; [now left | right].
           exists r0. split; [now right | exact Hr0].
    + intros H. apply Hrest in H as (rest1 & H). apply IH in H as [Hw Hn].
      split; [exact Hw |]. intros Hnw. destruct (Hn Hnw) as [-> | (r0 & Hin & Hr0)];
        [now left | right]. exists r0. split; [now right | exact Hr0].
  - cbv zeta. intros H. apply Hrest in H as (rest1 & H). apply IH in H as [Hw Hn].
    split; [exact Hw |]. intros Hnw. destruct (Hn Hnw) as [Hor | (r0 & Hin & Hr0)].
    + apply orb_true_iff in Hor as [Hor | Hex].
      * apply orb_true_iff in Hor as [-> | Hmode]; [now left | right].
        exists r. split; [now left |]. split; [lia |]. left.
        now apply bool_decide_eq_true in Hmode.
      * right. exists r. split; [now left |]. split; [lia |]. right.
        now apply bool_decide_eq_true in Hex.
    + right. exists r0. split; [now right | exact Hr0].
Qed.

Lemma NeedWaitForUpgrade_scan_spec (txn_id : Z) (queue : list LockRequest) :
  forall (txns txns' : gmap Z Transaction) (queue' : list LockRequest)
         (need_wait need_wait' : bool),
    NeedWaitForUpgrade_scan txns txn_id queue need_wait = Some (txns', queue', need_wait') ->
    (forall other, kept_or_wounded txn_id txns txns' other)
    /\ (need_wait' = true ->
        need_wait = true \/ exists r, In r queue /\ txn_id_ r < txn_id).
Proof.
  induction queue as [| r rest IH]; intros txns txns' queue' need_wait need_wait';
    cbn [NeedWaitForUpgrade_scan]; [discriminate |].
  destruct (Z.eqb_spec (txn_id_ r) txn_id) as [Heq | Hne].
  { intros [= <- <- <-]. split; [intros other; apply kept_or_wounded_refl | now left]. }
  destruct (Z.gtb_spec (txn_id_ r) txn_id) as [Hgt | Hle].
  - destruct (txns !! txn_id_ r) as [conflict_txn |] eqn:Hlook; [| discriminate].
    cbn [mbind option_bind]. intros H. apply IH in H as [Hw Hn]. split.
    + intros other. eapply kept_or_wounded_trans; [| apply Hw].
      now apply kept_or_wounded_insert.
    + intros Hnw. destruct (Hn Hnw) as [-> | (r0 & Hin & Hr0)]; [now left | right].
      exists r0. split; [now right | exact Hr0].
  - intros H.
    destruct (NeedWaitForUpgrade_scan txns txn_id rest true) as [[[t1 r1] n1] |] eqn:Hrec;
      [| discriminate].
    injection H as <- <- <-. apply IH in Hrec as [Hw _].
    split; [exact Hw |]. intros _. right. exists r. split; [now left | lia].
Qed.

Lemma NeedWait_spec (s s' : t) (txn_id : Z) (rid : RID) (lock_mode : LockMode)
      (need_wait : bool) :
  NeedWait s txn_id rid lock_mode = Some (s', need_wait) ->
  (forall other, kept_or_wounded txn_id (txn_map s) (txn_map s') other)
  /\ (need_wait = true ->
      exists r, In r (request_queue_ (queue_at s rid)) /\ txn_id_ r < txn_id
                /\ (lock_mode = EXCLUSIVE \/ lock_mode_ r = EXCLUSIVE)).
Proof.
  unfold NeedWait. cbv zeta.
  destruct (granted_conflict lock_mode (request_queue_ (queue_at s rid))); cbn [negb].
  - destruct (NeedWait_scan (txn_map s) txn_id lock_mode (request_queue_ (queue_at s rid)) false)
      as [[[txns queue] nw] |] eqn:Hscan; [| discriminate].
    cbn [mbind option_bind]. intros [= <- <-].
    apply NeedWait_scan_spec in Hscan as [Hw Hn]. split; [exact Hw |].
    intros Hnw. destruct (Hn Hnw) as [[=] | H]. exact H.
  - intros [= <- <-]. split; [intros other; apply kept_or_wounded_refl | discriminate].
Qed.

Lemma NeedWaitForUpgrade_spec (s s' : t) (txn_id : Z) (rid : RID) (need_wait : bool) :
  NeedWaitForUpgrade s txn_id rid = Some (s', need_wait) ->
  (forall other, kept_or_wounded txn_id (txn_map s) (txn_map s') other)
  /\ (need_wait = true ->
      exists r, In r (request_queue_ (queue_at s rid)) /\ txn_id_ r < txn_id).
Proof.
  unfold NeedWaitForUpgrade.
  destruct (NeedWaitForUpgrade_scan (txn_map s) txn_id (request_queue_ (queue_at s rid)) false)
    as [[[txns queue] nw] |] eqn:Hscan; [| discriminate].
  cbn [mbind option_bind]. intros [= <- <-].
  apply NeedWaitForUpgrade_scan_spec in Hscan as [Hw Hn]. split; [exact Hw |].
  intros Hnw. destruct (Hn Hnw) as [[=] | H]. exact H.
Qed.

Lemma kept_set_txn (txn_id other : Z) (txns txns' : gmap Z Transaction) (txn : Transaction) :
  other <> txn_id -> kept_or_wounded txn_id txns txns' other ->
  kept_or_wounded txn_id txns (<[txn_id := txn]> txns') other.
Proof.
  intros Hne [Hsame | (Hlt & txn0 & Ha & Hb)].
  - left. rewrite lookup_insert_ne by congruence. exact Hsame.
  - right. split; [exact Hlt |]. exists txn0. split; [exact Ha |].
    rewrite lookup_insert_ne by congruence. exact Hb.
Qed.

Lemma queue_at_set_requests (s : t) (rid : RID) (l : list LockRequest) :
  request_queue_ (queue_at (set_requests s rid l) rid) = l.
Proof.
  unfold queue_at, set_requests, set_queue. cbn [lock_table_].
  rewrite lookup_insert_eq. reflexivity.
Qed.

Lemma acquire_spec (s s' : t) (txn_id : Z) (rid : RID) (lock_mode : LockMode) (o : outcome) :
  acquire s txn_id rid lock_mode = Some (s', o) ->
  (forall other, other <> txn_id -> kept_or_wounded txn_id (txn_map s) (txn_map s') other)
  /\ (o = Blocked ->
      exists r, In r (request_queue_ (queue_at s rid)) /\ txn_id_ r < txn_id
                /\ (lock_mode = EXCLUSIVE \/ lock_mode_ r = EXCLUSIVE)).
Proof.
  unfold acquire. cbv zeta.
  set (s1 := set_requests s rid _).
  destruct (NeedWait s1 txn_id rid lock_mode) as [[s2 [|]] |] eqn:Hneed; [| | discriminate].
  - intros [= <- <-]. apply NeedWait_spec in Hneed as [Hw Hn]. split.
    + intros other _. apply Hw.
    + intros _. destruct (Hn eq_refl) as (r & Hin & Hlt & Hmode).
      subst s1. rewrite queue_at_set_requests in Hin.
      apply in_app_iff in Hin as [Hin | [<- | []]]; [| cbn in Hlt; lia].
      exists r. repeat split; assumption.
  - match goal with |- context [txn_map ?s3 !! txn_id] =>
      destruct (txn_map s3 !! txn_id) as [txn |] eqn:Htxn end; [| discriminate].
    cbn [mbind option_bind]. intros [= <- <-].
    apply NeedWait_spec in Hneed as [Hw _]. split; [| discriminate].
    intros other Hne. unfold set_txn. cbn [txn_map].
    apply kept_set_txn; [exact Hne | apply Hw].
Qed.

Lemma abort_with_spec (s : t) (txn_id other : Z) (txn : Transaction) (reason : AbortReason) :
  other <> txn_id ->
  kept_or_wounded txn_id (txn_map s) (txn_map (abort_with s txn_id txn reason).1) other.
Proof.
  intros Hne. left. unfold abort_with, set_txn. cbn [fst txn_map].
  now apply lookup_insert_ne.
Qed.

Lemma LockShared_spec (s s' : t) (txn_id : Z) (rid : RID) (o : outcome) :
  LockShared s txn_id rid = Some (s', o) ->
  (forall other, other <> txn_id -> kept_or_wounded txn_id (txn_map s) (txn_map s') other)
  /\ (o = Blocked ->
      exists r, In r (requests_on s rid) /\ txn_id_ r < txn_id /\ lock_mode_ r = EXCLUSIVE).
Proof.
  unfold LockShared, requests_on, abort_with.
  destruct (txn_map s !! txn_id) as [txn |]; [| discriminate]. cbn [mbind option_bind].
  repeat case_match.
  1-4: intros [= <- <-]; (split; [| discriminate]); intros other Hne;
       first [apply kept_or_wounded_refl
             | now apply (abort_with_spec s txn_id other txn LOCK_ON_SHRINKING)].
  intros Hacq. apply acquire_spec in Hacq as [Hw Hb]. split; [exact Hw |].
  intros Ho. destruct (Hb Ho) as (r & Hin & Hlt & [[=] | Hmode]). now exists r.
Qed.

Lemma LockExclusive_spec (s s' : t) (txn_id : Z) (rid : RID) (o : outcome) :
  LockExclusive s txn_id rid = Some (s', o) ->
  (forall other, other <> txn_id -> kept_or_wounded txn_id (txn_map s) (txn_map s') other)
  /\ (o = Blocked -> exists r, In r (requests_on s rid) /\ txn_id_ r < txn_id).
Proof.
  unfold LockExclusive, requests_on, abort_with.
  destruct (txn_map s !! txn_id) as [txn |]; [| discriminate]. cbn [mbind option_bind].
  repeat case_match.
  1-3: intros [= <- <-]; (split; [| discriminate]); intros other Hne;
       first [apply kept_or_wounded_refl
             | now apply (abort_with_spec s txn_id other txn LOCK_ON_SHRINKING)].
  intros Hacq. apply acquire_spec in Hacq as [Hw Hb]. split; [exact Hw |].
  intros Ho. destruct (Hb Ho) as (r & Hin & Hlt & _). now exists r.
Qed.

Lemma LockUpgrade_spec (s s' : t) (txn_id : Z) (rid : RID) (o : outcome) :
  LockUpgrade s txn_id rid = Some (s', o) ->
  (forall other, other <> txn_id -> kept_or_wounded txn_id (txn_map s) (txn_map s') other)
  /\ (o = Blocked -> exists r, In r (requests_on s rid) /\ txn_id_ r < txn_id).
Proof.
  unfold LockUpgrade, requests_on, abort_with.
  destruct (txn_map s !! txn_id) as [txn |]; [| discriminate]. cbn [mbind option_bind].
  destruct (_ || _ || _); [intros [= <- <-]; split; [intros; apply kept_or_wounded_refl | discriminate] |].
  destruct (IsExclusiveLocked txn rid);
    [intros [= <- <-]; split; [intros; apply kept_or_wounded_refl | discriminate] |].
  destruct (bool_decide (state_ txn = SHRINKING));
    [intros [= <- <-]; split;
     [intros; now apply (abort_with_spec s txn_id other txn LOCK_ON_SHRINKING) | discriminate] |].
  cbv zeta. set (s1 := set_upgrading s rid (Some txn_id)).
  assert (Hq : request_queue_ (queue_at s1 rid) = request_queue_ (queue_at s rid)).
  { subst s1. unfold queue_at at 1, set_upgrading, set_queue. cbn [lock_table_].
    rewrite lookup_insert_eq. reflexivity. }
  destruct (NeedWaitForUpgrade s1 txn_id rid) as [[s2 [|]] |] eqn:Hneed; [| | discriminate].
  - intros [= <- <-]. apply NeedWaitForUpgrade_spec in Hneed as [Hw Hn]. split.
    + intros other _. apply Hw.
    + intros _. rewrite <- Hq. now apply Hn.
  - destruct (grant_upgrade txn_id (request_queue_ (queue_at s2 rid))) as [queue found].
    match goal with |- context [txn_map ?s3 !! txn_id] =>
      destruct (txn_map s3 !! txn_id) as [txn2 |] eqn:Htxn end; [| discriminate].
    cbn [mbind option_bind]. intros [= <- <-].
    apply NeedWaitForUpgrade_spec in Hneed as [Hw _]. split; [| discriminate].
    intros other Hne. unfold set_txn. cbn [txn_map].
    apply kept_set_txn; [exact Hne | apply Hw].
Qed.

(** X21: LockShared, LockExclusive and LockUpgrade of a transaction leave every
    other transaction as it was, except that they may set the state of a
    younger one (larger identifier) to ABORTED: a call never wounds an
    older transaction. *)
Theorem lock_calls_wound_only_younger (s s' : t) (txn_id : Z) (rid : RID) (o : outcome)
        (other : Z) :
  LockShared s txn_id rid = Some (s', o)
  \/ LockExclusive s txn_id rid = Some (s', o)
  \/ LockUpgrade s txn_id rid = Some (s', o) ->
  other <> txn_id ->
  kept_or_wounded txn_id (txn_map s) (txn_map s') other.
Proof.
  intros [H | [H | H]] Hne.
  - now apply (LockShared_spec s s' txn_id rid o).
  - now apply (LockExclusive_spec s s' txn_id rid o).
  - now apply (LockUpgrade_spec s s' txn_id rid o).
Qed.

(** X22: A lock call that has to wait found, in the queue of the record, a
    request of an older transaction (smaller identifier); for LockShared
    that request is an EXCLUSIVE one.  No call waits for a younger
    transaction. *)
Theorem lock_calls_wait_only_for_older (s s' : t) (txn_id : Z) (rid : RID) :
  (LockShared s txn_id rid = Some (s', Blocked) ->
   exists r, In r (requests_on s rid) /\ txn_id_ r < txn_id /\ lock_mode_ r = EXCLUSIVE)
  /\ (LockExclusive s txn_id rid = Some (s', Blocked) ->
      exists r, In r (requests_on s rid) /\ txn_id_ r < txn_id)
  /\ (LockUpgrade s txn_id rid = Some (s', Blocked) ->
      exists r, In r (requests_on s rid) /\ txn_id_ r < txn_id).
Proof.
  split; [| split]; intros H.
  - now apply (LockShared_spec s s' txn_id rid Blocked).
  - now apply (LockExclusive_spec s s' txn_id rid Blocked).
  - now apply (LockUpgrade_spec s s' txn_id rid Blocked).
Qed.

Lemma grant_all_new_request (txn_id : Z) (lock_mode : LockMode) (queue : list LockRequest) :
  no_request_of txn_id queue ->
  grant_all txn_id (queue ++ [mkRequest txn_id lock_mode false])
  = queue ++ [mkRequest txn_id lock_mode true].
Proof.
  intros Hno. unfold grant_all. rewrite map_app. cbn [map txn_id_ lock_mode_].
  rewrite Z.eqb_refl. f_equal.
  induction queue as [| r rest IH]; [reflexivity |]. cbn [map].
  destruct (Z.eqb_spec (txn_id_ r) txn_id) as [Heq | _].
  - now destruct (Hno r (or_introl eq_refl)).
  - f_equal. apply IH. intros r' Hr'. apply Hno. now right.
Qed.

Lemma erase_request_last (txn_id : Z) (r : LockRequest) (queue : list LockRequest) :
  no_request_of txn_id queue -> txn_id_ r = txn_id ->
  erase_request txn_id (queue ++ [r]) = (queue, true).
Proof.
  intros Hno Hr. induction queue as [| r0 rest IH]; cbn [app erase_request].
  - rewrite Hr, Z.eqb_refl. reflexivity.
  - destruct (Z.eqb_spec (txn_id_ r0) txn_id) as [Heq | _].
    + now destruct (Hno r0 (or_introl eq_refl)).
    + rewrite IH; [reflexivity |]. intros r' Hr'. apply Hno. now right.
Qed.

Lemma granted_conflict_new_request (lock_mode lock_mode' : LockMode) (txn_id : Z)
      (queue : list LockRequest) :
  granted_conflict lock_mode (queue ++ [mkRequest txn_id lock_mode' false])
  = granted_conflict lock_mode queue.
Proof.
  unfold granted_conflict. rewrite existsb_app. cbn [existsb granted_].
  destruct lock_mode; cbn [andb orb]; now rewrite orb_false_r.
Qed.

(** X23: A lock that meets no granted conflicting request is granted at once,
    its request standing last in the queue, and the Unlock that follows
    takes exactly that request out again: the queue is as before the lock
    call, every other transaction is untouched, and the transaction has its
    lock sets back, in the state SHRINKING under REPEATABLE_READ and GROWING
    otherwise. *)
Theorem Unlock_undoes_an_uncontended_lock (s : t) (txn_id : Z) (rid : RID)
        (txn : Transaction) (lock_mode : LockMode) :
  txn_map s !! txn_id = Some txn -> state_ txn = GROWING ->
  (lock_mode = SHARED -> isolation_level_ txn <> READ_UNCOMMITTED) ->
  rid ∉ shared_lock_set_ txn -> rid ∉ exclusive_lock_set_ txn ->
  no_request_of txn_id (requests_on s rid) ->
  granted_conflict lock_mode (requests_on s rid) = false ->
  exists s1 s2 : t,
    lock_call lock_mode s txn_id rid = Some (s1, Returned true)
    /\ requests_on s1 rid = requests_on s rid ++ [mkRequest txn_id lock_mode true]
    /\ Unlock s1 txn_id rid = Some (s2, true)
    /\ requests_on s2 rid = requests_on s rid
    /\ (forall other, other <> txn_id -> txn_map s2 !! other = txn_map s !! other)
    /\ txn_map s2 !! txn_id
       = Some (mkTxn (if bool_decide (isolation_level_ txn = REPEATABLE_READ)
                      then SHRINKING else GROWING)
                     (isolation_level_ txn) (shared_lock_set_ txn) (exclusive_lock_set_ txn)).
Proof.
  intros Htxn Hstate Hiso Hshared Hexcl Hno Hfree. unfold requests_on in *.
  set (queue := request_queue_ (queue_at s rid)) in *.
  assert (Hacquire : exists s1,
             acquire s txn_id rid lock_mode = Some (s1, Returned true)
             /\ request_queue_ (queue_at s1 rid) = queue ++ [mkRequest txn_id lock_mode true]
             /\ txn_map s1
                = <[txn_id := match lock_mode with
                              | SHARED => mkTxn GROWING (isolation_level_ txn)
                                                ({[rid]} ∪ shared_lock_set_ txn)
                                                (exclusive_lock_set_ txn)
                              | EXCLUSIVE => mkTxn GROWING (isolation_level_ txn)
                                                   (shared_lock_set_ txn)
                                                   ({[rid]} ∪ exclusive_lock_set_ txn)
                              end]> (txn_map s)).
  { unfold acquire. cbv zeta. fold queue.
    unfold NeedWait. cbv zeta. rewrite queue_at_set_requests.
    rewrite granted_conflict_new_request, Hfree. cbn [negb].
    rewrite queue_at_set_requests, grant_all_new_request by exact Hno.
    change (txn_map (set_requests ?a ?b ?c)) with (txn_map a).
    change (txn_map (set_requests ?a ?b ?c)) with (txn_map a).
    rewrite Htxn. cbn [mbind option_bind]. eexists. split; [reflexivity |].
    split; [apply queue_at_set_requests |].
    unfold set_txn. cbn [txn_map set_requests set_queue SetState state_ isolation_level_
                         shared_lock_set_ exclusive_lock_set_].
    destruct lock_mode; reflexivity. }
  destruct Hacquire as (s1 & Hacq & Hqueue & Hmap).
  assert (Hlock : lock_call lock_mode s txn_id rid = Some (s1, Returned true)).
  { destruct lock_mode; cbn [lock_call]; [unfold LockShared | unfold LockExclusive];
      rewrite Htxn; cbn [mbind option_bind]; rewrite Hstate.
    - rewrite (bool_decide_eq_false_2 (GROWING = ABORTED)) by discriminate.
      rewrite (bool_decide_eq_false_2 (GROWING = SHRINKING)) by discriminate. cbn [andb].
      rewrite (bool_decide_eq_false_2 (isolation_level_ txn = READ_UNCOMMITTED))
        by now apply Hiso.
      unfold IsSharedLocked. rewrite bool_decide_eq_false_2 by exact Hshared. exact Hacq.
    - rewrite (bool_decide_eq_false_2 (GROWING = ABORTED)) by discriminate.
      rewrite (bool_decide_eq_false_2 (GROWING = SHRINKING)) by discriminate. cbn [andb].
      unfold IsExclusiveLocked. rewrite bool_decide_eq_false_2 by exact Hexcl. exact Hacq. }
  exists s1. eexists. split; [exact Hlock |]. split; [exact Hqueue |].
  unfold Unlock. rewrite Hmap, lookup_insert_eq. cbn [mbind option_bind].
  rewrite Hqueue, erase_request_last by (exact Hno || reflexivity). cbn [negb].
  assert (Hheld : negb (IsExclusiveLocked
                          match lock_mode with
                          | SHARED => mkTxn GROWING (isolation_level_ txn)
                                            ({[rid]} ∪ shared_lock_set_ txn)
                                            (exclusive_lock_set_ txn)
                          | EXCLUSIVE => mkTxn GROWING (isolation_level_ txn)
                                               (shared_lock_set_ txn)
                                               ({[rid]} ∪ exclusive_lock_set_ txn)
                          end rid)
                  && negb (IsSharedLocked
                             match lock_mode with
                             | SHARED => mkTxn GROWING (isolation_level_ txn)
                                               ({[rid]} ∪ shared_lock_set_ txn)
                                               (exclusive_lock_set_ txn)
                             | EXCLUSIVE => mkTxn GROWING (isolation_level_ txn)
                                                  (shared_lock_set_ txn)
                                                  ({[rid]} ∪ exclusive_lock_set_ txn)
                             end rid) = false).
  { unfold IsExclusiveLocked, IsSharedLocked.
    destruct lock_mode; cbn [shared_lock_set_ exclusive_lock_set_].
    - rewrite (bool_decide_eq_true_2 (rid ∈ {[rid]} ∪ shared_lock_set_ txn)) by set_solver.
      apply andb_false_r.
    - rewrite (bool_decide_eq_true_2 (rid ∈ {[rid]} ∪ exclusive_lock_set_ txn)) by set_solver.
      reflexivity. }
  rewrite Hheld. split; [reflexivity |]. split; [apply queue_at_set_requests |].
  unfold set_txn. cbn [txn_map set_requests set_queue]. rewrite Hmap. split.
  - intros other Hne. rewrite !lookup_insert_ne by congruence. reflexivity.
  - rewrite lookup_insert_eq. f_equal.
    destruct lock_mode; cbn [state_ isolation_level_ shared_lock_set_ exclusive_lock_set_
                             SetState];
      rewrite (bool_decide_eq_true_2 (GROWING = GROWING)) by reflexivity;
      rewrite andb_true_r;
      destruct (bool_decide (isolation_level_ txn = REPEATABLE_READ));
      cbn [state_ isolation_level_ shared_lock_set_ exclusive_lock_set_ SetState];
      f_equal; set_solver.
Qed.

End LockWoundWait.

Section LockWoundWaitRuns.
Import LockManager LockProps Runs.

(** Transaction 2 asked first for a shared lock on rid1, transaction 1
    second; the upgrade of transaction 1 then wounds transaction 2. *)
Local Abbreviation younger_first := (default two_transactions two_readers_younger_first).
Local Abbreviation upgraded :=
  (default (younger_first, Blocked) (LockUpgrade younger_first 1 rid1)).
(** Transaction 1 holds the exclusive lock on rid1 and transaction 2 asks
    for a shared one. *)
Local Abbreviation writer_holds :=
  (default (two_transactions, Blocked) (LockExclusive two_transactions 1 rid1)).1.
Local Abbreviation reader_waits :=
  (default (writer_holds, Returned false) (LockShared writer_holds 2 rid1)).1.

(** X21 (witness): the upgrade of transaction 1 and the record of transaction 2. *)
Lemma lock_calls_wound_only_younger_witness :
  (LockShared younger_first 1 rid1 = Some (upgraded.1, upgraded.2)
   \/ LockExclusive younger_first 1 rid1 = Some (upgraded.1, upgraded.2)
   \/ LockUpgrade younger_first 1 rid1 = Some (upgraded.1, upgraded.2))
  /\ 2 <> 1
  /\ kept_or_wounded 1 (txn_map younger_first) (txn_map upgraded.1) 2.
Proof.
  assert (H : LockShared younger_first 1 rid1 = Some (upgraded.1, upgraded.2)
              \/ LockExclusive younger_first 1 rid1 = Some (upgraded.1, upgraded.2)
              \/ LockUpgrade younger_first 1 rid1 = Some (upgraded.1, upgraded.2))
    by (right; right; vm_compute; reflexivity).
  split; [exact H |]. split; [discriminate |].
  apply (lock_calls_wound_only_younger younger_first upgraded.1 1 rid1 upgraded.2 2 H).
  discriminate.
Defined.

(** X22 (witness): transaction 2 waits behind the exclusive lock of transaction 1. *)
Lemma lock_calls_wait_only_for_older_witness :
  LockShared writer_holds 2 rid1 = Some (reader_waits, Blocked)
  /\ exists r, In r (requests_on writer_holds rid1) /\ txn_id_ r < 2
               /\ lock_mode_ r = EXCLUSIVE.
Proof.
  assert (H : LockShared writer_holds 2 rid1 = Some (reader_waits, Blocked))
    by (vm_compute; reflexivity).
  split; [exact H |].
  exact (proj1 (lock_calls_wait_only_for_older writer_holds reader_waits 2 rid1) H).
Defined.

(** X23 (witness): LockShared(rid1) and Unlock(rid1) of transaction 1 on an empty lock table. *)
Lemma Unlock_undoes_an_uncontended_lock_witness :
  txn_map two_transactions !! 1 = Some (mkTxn GROWING REPEATABLE_READ ∅ ∅)
  /\ (SHARED = SHARED -> REPEATABLE_READ <> READ_UNCOMMITTED)
  /\ no_request_of 1 (requests_on two_transactions rid1)
  /\ granted_conflict SHARED (requests_on two_transactions rid1) = false
  /\ exists s1 s2 : t,
       lock_call SHARED two_transactions 1 rid1 = Some (s1, Returned true)
       /\ requests_on s1 rid1
          = requests_on two_transactions rid1 ++ [mkRequest 1 SHARED true]
       /\ Unlock s1 1 rid1 = Some (s2, true)
       /\ requests_on s2 rid1 = requests_on two_transactions rid1
       /\ (forall other, other <> 1 -> txn_map s2 !! other = txn_map two_transactions !! other)
       /\ txn_map s2 !! 1
          = Some (mkTxn (if bool_decide (REPEATABLE_READ = REPEATABLE_READ)
                         then SHRINKING else GROWING)
                        REPEATABLE_READ ∅ ∅).
Proof.
  assert (H1 : txn_map two_transactions !! 1 = Some (mkTxn GROWING REPEATABLE_READ ∅ ∅))
    by (vm_compute; reflexivity).
  assert (H2 : SHARED = SHARED -> REPEATABLE_READ <> READ_UNCOMMITTED)
    by (intros _; discriminate).
  assert (H3 : no_request_of 1 (requests_on two_transactions rid1)) by (intros r []).
  assert (H4 : granted_conflict SHARED (requests_on two_transactions rid1) = false)
    by reflexivity.
  split; [exact H1 |]. split; [exact H2 |]. split; [exact H3 |]. split; [exact H4 |].
  exact (Unlock_undoes_an_uncontended_lock two_transactions 1 rid1
           (mkTxn GROWING REPEATABLE_READ ∅ ∅) SHARED H1 eq_refl H2
           (not_elem_of_empty rid1) (not_elem_of_empty rid1) H3 H4).
Defined.

End LockWoundWaitRuns.

(** ** The index: calls that stay within one bucket page *)

Section TableFacts.
Import ExtendibleHashTable TableProps.
Context {K V : Type}.
Variable BUCKET_ARRAY_SIZE : nat.
Variable cmp : K -> K -> Z.
Variable value_eq : V -> V -> bool.
Variable default_mapping zeroed_mapping : K * V.
Variable hash_fn : K -> Z.

Local Abbreviation bucket := (Bucket.bucket K V).
Local Abbreviation bucket_Insert := (Bucket.Insert BUCKET_ARRAY_SIZE cmp value_eq zeroed_mapping).
Local Abbreviation bucket_Remove :=
  (Bucket.Remove BUCKET_ARRAY_SIZE cmp value_eq default_mapping zeroed_mapping).
Local Abbreviation bucket_GetValue := (Bucket.GetValue BUCKET_ARRAY_SIZE cmp zeroed_mapping).
Local Abbreviation bucket_reachable :=
  (Bucket.reachable BUCKET_ARRAY_SIZE cmp value_eq default_mapping zeroed_mapping).
Local Abbreviation readable_pair :=
  (Bucket.readable_pair BUCKET_ARRAY_SIZE cmp value_eq zeroed_mapping).
Local Abbreviation Insert :=
  (Insert BUCKET_ARRAY_SIZE cmp value_eq zeroed_mapping hash_fn).
Local Abbreviation SplitInsert :=
  (SplitInsert BUCKET_ARRAY_SIZE cmp value_eq zeroed_mapping hash_fn).
Local Abbreviation Remove :=
  (Remove BUCKET_ARRAY_SIZE cmp value_eq default_mapping zeroed_mapping hash_fn).
Local Abbreviation GetValue := (GetValue BUCKET_ARRAY_SIZE cmp zeroed_mapping hash_fn).
Local Abbreviation reachable :=
  (reachable BUCKET_ARRAY_SIZE cmp value_eq default_mapping zeroed_mapping hash_fn).
Local Abbreviation pages_reachable :=
  (pages_reachable BUCKET_ARRAY_SIZE cmp value_eq default_mapping zeroed_mapping).
Local Abbreviation bucket_of := (bucket_of BUCKET_ARRAY_SIZE zeroed_mapping hash_fn).
Local Abbreviation FetchBucketPage := (FetchBucketPage BUCKET_ARRAY_SIZE zeroed_mapping).
Local Abbreviation zero_page := (Bucket.zero_page BUCKET_ARRAY_SIZE zeroed_mapping).

Lemma FetchBucketPage_reachable (h : t K V) (page_id : Z) :
  pages_reachable h -> bucket_reachable (FetchBucketPage h page_id).
Proof.
  intros Hpages. unfold ExtendibleHashTable.FetchBucketPage.
  destruct (bucket_pages_ h !! page_id) as [b |] eqn:Hb; cbn.
  - now apply (Hpages page_id).
  - apply Bucket.reachable_zero.
Qed.

Lemma pages_reachable_insert (pages : gmap Z bucket) (page_id : Z) (b : bucket) :
  (forall p b', pages !! p = Some b' -> bucket_reachable b') -> bucket_reachable b ->
  forall p b', <[page_id := b]> pages !! p = Some b' -> bucket_reachable b'.
Proof.
  intros Hpages Hb p b' Hlook. apply lookup_insert_Some in Hlook as [[_ <-] | [_ Hlook]].
  - exact Hb.
  - now apply (Hpages p).
Qed.

Lemma store_bucket_reachable (h : t K V) (page_id : Z) (b : bucket) :
  pages_reachable h -> bucket_reachable b -> pages_reachable (store_bucket h page_id b).
Proof.
  intros Hpages Hb. unfold TableProps.pages_reachable, store_bucket. cbn [bucket_pages_].
  now apply pages_reachable_insert.
Qed.

Lemma redistribute_reachable (mask split_image_index : Z) (result : list (K * V)) :
  forall b1 b2 : bucket,
    bucket_reachable b1 -> bucket_reachable b2 ->
    bucket_reachable
      (redistribute BUCKET_ARRAY_SIZE cmp value_eq zeroed_mapping hash_fn
                    mask split_image_index b1 b2 result).1
    /\ bucket_reachable
         (redistribute BUCKET_ARRAY_SIZE cmp value_eq zeroed_mapping hash_fn
                       mask split_image_index b1 b2 result).2.
Proof.
  unfold redistribute. induction result as [| m result IH]; intros b1 b2 H1 H2;
    cbn [fold_left]; [now split |].
  destruct (_ =? split_image_index); apply IH; try assumption;
    now apply Bucket.reachable_Insert.
Qed.

Lemma SplitInsert_pages (h : t K V) (key : K) (value : V) :
  pages_reachable h -> pages_reachable (SplitInsert h key value).1.
Proof.
  intros Hpages. unfold ExtendibleHashTable.SplitInsert. cbv zeta.
  set (pid := KeyToPageId hash_fn key (dir_page_ h)).
  pose proof (FetchBucketPage_reachable h pid Hpages) as Hb.
  set (b := FetchBucketPage h pid) in *.
  pose proof (Bucket.reachable_Insert BUCKET_ARRAY_SIZE cmp value_eq default_mapping
                zeroed_mapping b key value Hb) as Hins.
  destruct (bucket_Insert b key value) as [inserted ok]. cbn [fst] in Hins.
  destruct ok; cbn [fst]; [now apply store_bucket_reachable |].
  destruct (negb _); [exact Hpages |].
  destruct (Bucket.IsRepeat _ _ _ _ b key value); [exact Hpages |].
  unfold NewPage, Bucket.CopyMappingsAndResetPage.
  match goal with |- context [redistribute _ _ _ _ _ ?m ?i ?b1 ?b2 ?r] =>
    pose proof (redistribute_reachable m i r b1 b2 (Bucket.reachable_zero _ _ _ _ _)
                  (Bucket.reachable_zero _ _ _ _ _)) as [Hr1 Hr2];
    destruct (redistribute BUCKET_ARRAY_SIZE cmp value_eq zeroed_mapping hash_fn m i b1 b2 r)
      as [b1' b2']
  end.
  cbn [fst snd] in Hr1, Hr2.
  assert (Hnew : forall p b', <[next_page_id_ h := zero_page]> (bucket_pages_ h) !! p = Some b' ->
                              bucket_reachable b').
  { apply pages_reachable_insert; [exact Hpages | apply Bucket.reachable_zero]. }
  destruct (_ =? _).
  - pose proof (Bucket.reachable_Insert BUCKET_ARRAY_SIZE cmp value_eq default_mapping
                  zeroed_mapping b1' key value Hr1) as Hlast.
    destruct (bucket_Insert b1' key value) as [b1'' r]. cbn [fst bucket_pages_] in *.
    unfold TableProps.pages_reachable. cbn [bucket_pages_].
    apply pages_reachable_insert; [| exact Hr2].
    apply pages_reachable_insert; [exact Hnew | exact Hlast].
  - pose proof (Bucket.reachable_Insert BUCKET_ARRAY_SIZE cmp value_eq default_mapping
                  zeroed_mapping b2' key value Hr2) as Hlast.
    destruct (bucket_Insert b2' key value) as [b2'' r]. cbn [fst bucket_pages_] in *.
    unfold TableProps.pages_reachable. cbn [bucket_pages_].
    apply pages_reachable_insert; [| exact Hlast].
    apply pages_reachable_insert; [exact Hnew | exact Hr1].
Qed.

Lemma Insert_pages (h : t K V) (key : K) (value : V) :
  pages_reachable h -> pages_reachable (Insert h key value).1.
Proof.
  intros Hpages. unfold ExtendibleHashTable.Insert. cbv zeta.
  set (pid := KeyToPageId hash_fn key (dir_page_ h)).
  pose proof (FetchBucketPage_reachable h pid Hpages) as Hb.
  set (b := FetchBucketPage h pid) in *.
  pose proof (Bucket.reachable_Insert BUCKET_ARRAY_SIZE cmp value_eq default_mapping
                zeroed_mapping b key value Hb) as Hins.
  destruct (bucket_Insert b key value) as [inserted ok]. cbn [fst] in Hins.
  destruct ok; cbn [fst]; [now apply store_bucket_reachable |].
  destruct (negb _); [exact Hpages |].
  destruct (Bucket.IsRepeat _ _ _ _ b key value); [exact Hpages |].
  now apply SplitInsert_pages.
Qed.

Lemma Merge_loop_pages (n : nat) :
  forall (h : t K V) (key : K),
    pages_reachable h ->
    pages_reachable (Merge_loop BUCKET_ARRAY_SIZE zeroed_mapping hash_fn n h key).
Proof.
  induction n as [| n IH]; intros h key Hpages; cbn [Merge_loop]; [exact Hpages |].
  destruct (Merge_round BUCKET_ARRAY_SIZE zeroed_mapping hash_fn h key) as [h' |] eqn:Hround;
    [| exact Hpages].
  apply IH. unfold Merge_round in Hround. cbv zeta in Hround.
  destruct (negb _); [discriminate |]. destruct (_ || _); [discriminate |].
  injection Hround as <-. intros p b' Hlook. cbn [bucket_pages_] in Hlook.
  apply lookup_delete_Some in Hlook as [_ Hlook]. now apply (Hpages p).
Qed.

Lemma Remove_pages (h : t K V) (key : K) (value : V) :
  pages_reachable h -> pages_reachable (Remove h key value).1.
Proof.
  intros Hpages. unfold ExtendibleHashTable.Remove. cbv zeta.
  set (pid := KeyToPageId hash_fn key (dir_page_ h)).
  pose proof (FetchBucketPage_reachable h pid Hpages) as Hb.
  set (b := FetchBucketPage h pid) in *.
  pose proof (Bucket.reachable_Remove BUCKET_ARRAY_SIZE cmp value_eq default_mapping
                zeroed_mapping b key value Hb) as Hrem.
  destruct (bucket_Remove b key value) as [removed ok]. cbn [fst] in Hrem.
  destruct ok; cbn [negb fst]; [| exact Hpages].
  apply Merge_loop_pages. now apply store_bucket_reachable.
Qed.

Lemma reachable_pages (MAX_DEPTH : nat) (h : t K V) :
  reachable MAX_DEPTH h -> pages_reachable h.
Proof.
  induction 1 as [| h key value _ IH | h key value _ IH].
  - unfold init, NewPage. cbv zeta. unfold TableProps.pages_reachable. cbn [bucket_pages_].
    apply pages_reachable_insert; [| apply Bucket.reachable_zero].
    apply pages_reachable_insert; [| apply Bucket.reachable_zero].
    intros p b' Hlook. rewrite lookup_empty in Hlook. discriminate.
  - now apply Insert_pages.
  - now apply Remove_pages.
Qed.

Lemma stored_pair_is_found (b : bucket) (key : K) (value : V) (out : list V) :
  bucket_reachable b -> cmp key key = 0 -> (bucket_Insert b key value).2 = true ->
  exists before after,
    (bucket_GetValue (bucket_Insert b key value).1 key out).1
    = out ++ before ++ value :: after.
Proof.
  intros Hreach Hk Hok.
  pose proof (reachable_inv _ _ _ _ _ _ Hreach) as Hinv.
  pose proof (Insert_inv BUCKET_ARRAY_SIZE cmp value_eq zeroed_mapping b key value Hinv)
    as Hinv'.
  destruct (Insert_stores_pair BUCKET_ARRAY_SIZE cmp value_eq zeroed_mapping b key value
              Hinv Hok) as (f & Hf & Hr & Hs).
  set (b' := (bucket_Insert b key value).1) in *.
  assert (Hin : In value (flat_map (Bucket.value_if_match cmp zeroed_mapping b' key)
                                   (seq 0 BUCKET_ARRAY_SIZE))).
  { apply in_flat_map. exists f. split; [apply in_seq; lia |].
    unfold Bucket.value_if_match, Bucket.key_matches, Bucket.KeyAt, Bucket.ValueAt.
    rewrite Hr, Hs. cbn [fst snd]. rewrite Hk. now left. }
  apply in_split in Hin as (before & after & Hsplit).
  exists before, after. unfold Bucket.GetValue. cbn [fst]. rewrite GetValue_loop_run.
  rewrite (flat_map_run_all BUCKET_ARRAY_SIZE (Bucket.value_if_match cmp zeroed_mapping b' key)
             b' Hinv').
  - now rewrite Hsplit.
  - intros i Hi. unfold Bucket.value_if_match. now rewrite Hi.
Qed.

Lemma GetValue_after_store (h : t K V) (key : K) (b : bucket) (result : list V) :
  GetValue (store_bucket h (KeyToPageId hash_fn key (dir_page_ h)) b) key result
  = ((bucket_GetValue b key result).1,
     negb (Bucket.empty_vector (bucket_GetValue b key result).1)).
Proof.
  unfold ExtendibleHashTable.GetValue, store_bucket, ExtendibleHashTable.FetchBucketPage.
  cbn [dir_page_ bucket_pages_]. rewrite lookup_insert_eq. reflexivity.
Qed.

(** X24: On an index reached from the constructor by Insert and Remove, with a
    comparator that finds a key equal to itself: when the key's bucket page
    takes the pair, Insert returns true without a split, and the GetValue
    that follows returns true with the value among its results. *)
Theorem Insert_without_split_is_found (MAX_DEPTH : nat) (h : t K V) (key : K) (value : V) :
  reachable MAX_DEPTH h -> cmp key key = 0 ->
  (bucket_Insert (bucket_of h key) key value).2 = true ->
  (Insert h key value).2 = true
  /\ dir_page_ (Insert h key value).1 = dir_page_ h
  /\ exists before after,
       GetValue (Insert h key value).1 key [] = (before ++ value :: after, true).
Proof.
  intros Hreach Hk Hok. apply reachable_pages in Hreach.
  pose proof (FetchBucketPage_reachable h (KeyToPageId hash_fn key (dir_page_ h)) Hreach)
    as Hb.
  unfold TableProps.bucket_of in Hok. unfold ExtendibleHashTable.Insert. cbv zeta.
  destruct (stored_pair_is_found _ key value [] Hb Hk Hok) as (before & after & Hfound).
  destruct (bucket_Insert _ key value) as [b' ok]. cbn [fst snd] in *. subst ok.
  cbn [fst snd]. split; [reflexivity |]. split; [reflexivity |].
  exists before, after. rewrite GetValue_after_store, Hfound. cbn [app].
  f_equal. now destruct before.
Qed.

(** X25: On an index reached from the constructor, an Insert of a pair that the
    key's bucket page already holds returns false and leaves the index as
    it was: no page is written and nothing is split. *)
Theorem Insert_of_a_present_pair_changes_nothing (MAX_DEPTH : nat) (h : t K V)
        (key : K) (value : V) :
  reachable MAX_DEPTH h ->
  readable_pair (bucket_of h key) key value = true ->
  Insert h key value = (h, false).
Proof.
  intros Hreach Hpair. apply reachable_pages in Hreach.
  pose proof (FetchBucketPage_reachable h (KeyToPageId hash_fn key (dir_page_ h)) Hreach)
    as Hb.
  apply reachable_inv in Hb.
  unfold TableProps.bucket_of in Hpair. unfold ExtendibleHashTable.Insert. cbv zeta.
  set (b := FetchBucketPage h _) in *.
  assert (Hins : bucket_Insert b key value = (b, false)).
  { unfold Bucket.Insert. rewrite Insert_loop_find.
    unfold Bucket.readable_pair in Hpair. now rewrite Hpair. }
  assert (Hrep : Bucket.IsRepeat BUCKET_ARRAY_SIZE cmp value_eq zeroed_mapping b key value
                 = true).
  { unfold Bucket.IsRepeat. rewrite IsRepeat_loop_run.
    rewrite (existsb_run_all BUCKET_ARRAY_SIZE _ b Hb); [exact Hpair |].
    intros i Hi. now rewrite Hi. }
  rewrite Hins, Hrep. destruct (negb _); reflexivity.
Qed.

(** X26: On an index reached from the constructor, Remove returns true exactly
    when a readable slot of the key's bucket page holds the pair, and a
    Remove that returns false leaves the index as it was. *)
Theorem Remove_reports_the_pair (MAX_DEPTH : nat) (h : t K V) (key : K) (value : V) :
  reachable MAX_DEPTH h ->
  (Remove h key value).2 = readable_pair (bucket_of h key) key value
  /\ ((Remove h key value).2 = false -> (Remove h key value).1 = h).
Proof.
  intros Hreach. apply reachable_pages in Hreach.
  pose proof (FetchBucketPage_reachable h (KeyToPageId hash_fn key (dir_page_ h)) Hreach)
    as Hb.
  apply reachable_inv in Hb.
  pose proof (Remove_flag_on_reachable BUCKET_ARRAY_SIZE cmp value_eq default_mapping
                zeroed_mapping _ key value Hb) as Hflag.
  unfold TableProps.bucket_of. unfold ExtendibleHashTable.Remove. cbv zeta.
  set (b := FetchBucketPage h _) in *.
  destruct (bucket_Remove b key value) as [removed ok]. cbn [snd] in Hflag. subst ok.
  destruct (readable_pair b key value); cbn [negb fst snd]; split;
    try reflexivity; discriminate.
Qed.

End TableFacts.

Section TableFactRuns.
Import ExtendibleHashTable TableProps Runs.

Local Abbreviation int_table_reachable :=
  (reachable capacity IntComparator Z.eqb (0, 0) (0, 0) id 9).
Local Abbreviation int_bucket_of := (bucket_of capacity (0, 0) id).
Local Abbreviation int_table_GetValue := (GetValue capacity IntComparator (0, 0) id).
Local Abbreviation int_table_Remove := (Remove capacity IntComparator Z.eqb (0, 0) (0, 0) id).
Local Abbreviation table_with_pair := (int_Insert capacity (int_init capacity) 7 70).1.

Lemma table_with_pair_reachable : int_table_reachable table_with_pair.
Proof. apply reachable_Insert, reachable_init. Qed.

(** X24 (witness): Insert(7, 70) into the index the constructor leaves. *)
Lemma Insert_without_split_is_found_witness :
  int_table_reachable (int_init capacity)
  /\ IntComparator 7 7 = 0
  /\ (int_bucket_Insert (int_bucket_of (int_init capacity) 7) 7 70).2 = true
  /\ (int_Insert capacity (int_init capacity) 7 70).2 = true
  /\ dir_page_ (int_Insert capacity (int_init capacity) 7 70).1 = dir_page_ (int_init capacity)
  /\ exists before after,
       int_table_GetValue (int_Insert capacity (int_init capacity) 7 70).1 7 []
       = (before ++ 70 :: after, true).
Proof.
  split; [apply reachable_init |]. split; [reflexivity |].
  assert (H : (int_bucket_Insert (int_bucket_of (int_init capacity) 7) 7 70).2 = true)
    by (vm_compute; reflexivity).
  split; [exact H |].
  exact (Insert_without_split_is_found capacity IntComparator Z.eqb (0, 0) (0, 0) id 9
           (int_init capacity) 7 70 (reachable_init _ _ _ _ _ _ _) eq_refl H).
Defined.

(** X25 (witness): Insert(7, 70) a second time. *)
Lemma Insert_of_a_present_pair_witness :
  int_table_reachable table_with_pair
  /\ Bucket.readable_pair capacity IntComparator Z.eqb (0, 0)
       (int_bucket_of table_with_pair 7) 7 70 = true
  /\ int_Insert capacity table_with_pair 7 70 = (table_with_pair, false).
Proof.
  split; [apply table_with_pair_reachable |].
  assert (H : Bucket.readable_pair capacity IntComparator Z.eqb (0, 0)
                (int_bucket_of table_with_pair 7) 7 70 = true) by (vm_compute; reflexivity).
  split; [exact H |].
  exact (Insert_of_a_present_pair_changes_nothing capacity IntComparator Z.eqb (0, 0) (0, 0)
           id 9 table_with_pair 7 70 table_with_pair_reachable H).
Defined.

(** X26 (witness): Remove(7, 71) from the index that holds (7, 70). *)
Lemma Remove_reports_the_pair_witness :
  int_table_reachable table_with_pair
  /\ (int_table_Remove table_with_pair 7 71).2
     = Bucket.readable_pair capacity IntComparator Z.eqb (0, 0)
         (int_bucket_of table_with_pair 7) 7 71
  /\ ((int_table_Remove table_with_pair 7 71).2 = false ->
      (int_table_Remove table_with_pair 7 71).1 = table_with_pair).
Proof.
  split; [apply table_with_pair_reachable |].
  exact (Remove_reports_the_pair capacity IntComparator Z.eqb (0, 0) (0, 0) id 9
           table_with_pair 7 71 table_with_pair_reachable).
Defined.

End TableFactRuns.

(** ** The buffer pool instance: eviction *)

Section EvictionFacts.
Import BufferPoolManagerInstance.

Lemma pick_frame_pages (s s1 : t) (f : nat) :
  pick_frame s = Some (s1, f) -> pages_ s1 = pages_ s.
Proof.
  unfold pick_frame, LRUReplacer.Victim.
  destruct (last (free_list_ s)); [now intros [= <- <-] |].
  destruct (LRUReplacer.frame_id_list_ (replacer_ s)); [discriminate |].
  now intros [= <- <-].
Qed.

Lemma write_back_disk (d : gmap Z (list Z)) (s : t) (f : nat) :
  (is_dirty_ (page_at s f) = true ->
   ReadPage (write_back d s f).1 (page_id_ (page_at s f)) = data_ (page_at s f))
  /\ (is_dirty_ (page_at s f) = false -> (write_back d s f).1 = d).
Proof.
  unfold write_back. destruct (is_dirty_ (page_at s f)); cbn [fst]; split;
    try discriminate; try reflexivity.
  intros _. unfold ReadPage, WritePage. rewrite lookup_insert_eq. reflexivity.
Qed.

(** X27: A frame is never reused with unwritten changes: when NewPgImp, or
    FetchPgImp of a page that is not resident, takes a frame whose page is
    dirty, the disk afterwards holds that page's bytes under its identifier
    (for NewPgImp unless that is the new page's identifier, which is then
    zeroed); a clean frame taken by FetchPgImp costs no write. *)
Theorem dirty_victim_is_written_back (d d' : gmap Z (list Z)) (s s' : t)
        (page_id : Z) (f : nat) :
  (NewPgImp d s = (d', s', Some (page_id, f)) ->
   is_dirty_ (page_at s f) = true -> page_id_ (page_at s f) <> page_id ->
   ReadPage d' (page_id_ (page_at s f)) = data_ (page_at s f))
  /\ (FetchPgImp d s page_id = (d', s', Some f) -> page_table_ s !! page_id = None ->
      (is_dirty_ (page_at s f) = true ->
       ReadPage d' (page_id_ (page_at s f)) = data_ (page_at s f))
      /\ (is_dirty_ (page_at s f) = false -> d' = d)).
Proof.
  split.
  - unfold NewPgImp. destruct (no_frame_left s); [discriminate |].
    unfold AllocatePage. cbv zeta.
    match goal with |- context [pick_frame ?s0] => set (sa := s0) end.
    destruct (pick_frame sa) as [[s1 f1] |] eqn:Hpick; [| discriminate].
    apply pick_frame_pages in Hpick. change (pages_ sa) with (pages_ s) in Hpick.
    assert (Hat : page_at s1 f1 = page_at s f1) by (unfold page_at; now rewrite Hpick).
    pose proof (write_back_disk d s1 f1) as [Hdirty _]. rewrite Hat in Hdirty.
    destruct (write_back d s1 f1) as [dw sw]. cbn [fst] in Hdirty.
    intros [= <- <- <- <-] Hd Hne. unfold ReadPage, WritePage in *.
    rewrite lookup_insert_ne by congruence. now apply Hdirty.
  - unfold FetchPgImp. intros Hfetch Hres. rewrite Hres in Hfetch.
    destruct (no_frame_left s); [discriminate |].
    destruct (pick_frame s) as [[s1 f1] |] eqn:Hpick; [| discriminate].
    apply pick_frame_pages in Hpick.
    assert (Hat : page_at s1 f1 = page_at s f1) by (unfold page_at; now rewrite Hpick).
    pose proof (write_back_disk d s1 f1) as Hdisk. rewrite Hat in Hdisk.
    destruct (write_back d s1 f1) as [dw sw]. cbn [fst] in Hdisk.
    injection Hfetch as <- <- <-. exact Hdisk.
Qed.

(** Page 0 created, unpinned as dirty, then pushed out of the only frame by
    a second NewPage. *)
Local Abbreviation dirty_pool := (run_calls (∅, init 1 1 0) [NewPage; UnpinPage 0 true]).
Local Abbreviation evicting := (NewPgImp dirty_pool.1 dirty_pool.2).

(** X27 (witness): the second NewPage takes the frame of the dirty page 0. *)
Lemma dirty_victim_is_written_back_witness :
  evicting = (evicting.1.1, evicting.1.2, Some (1, 0%nat))
  /\ is_dirty_ (page_at dirty_pool.2 0) = true
  /\ page_id_ (page_at dirty_pool.2 0) <> 1
  /\ ReadPage evicting.1.1 (page_id_ (page_at dirty_pool.2 0))
     = data_ (page_at dirty_pool.2 0).
Proof.
  assert (H1 : evicting = (evicting.1.1, evicting.1.2, Some (1, 0%nat)))
    by (vm_compute; reflexivity).
  assert (H2 : is_dirty_ (page_at dirty_pool.2 0) = true) by (vm_compute; reflexivity).
  assert (H3 : page_id_ (page_at dirty_pool.2 0) <> 1) by (vm_compute; discriminate).
  split; [exact H1 |]. split; [exact H2 |]. split; [exact H3 |].
  exact (proj1 (dirty_victim_is_written_back dirty_pool.1 evicting.1.1 dirty_pool.2
                  evicting.1.2 1 0) H1 H2 H3).
Defined.

End EvictionFacts.

(** ** The matrix primer *)

Section MatrixFacts.
Import Primer.
Context {T : Type}.
Variable zero : T.
Variable add mul : T -> T -> T.

Local Abbreviation RowMatrix := (RowMatrix T).
Local Abbreviation element := (element zero).
Local Abbreviation GetElement := (GetElement zero).
Local Abbreviation FillFrom := (FillFrom zero).
Local Abbreviation Add := (Add zero add).
Local Abbreviation Multiply := (Multiply zero add mul).
Local Abbreviation GEMM := (GEMM zero add mul).
Local Abbreviation dot := (dot zero add mul).

Implicit Types (m ptr : RowMatrix) (i j k : Z) (val : T).

Lemma in_range_spec m i j :
  in_range m i j = true <-> 0 <= i < rows_ m /\ 0 <= j < cols_ m.
Proof. unfold in_range, GetRowCount, GetColumnCount. lia. Qed.

(** Row-major positions: inside the array, and different for different
    index pairs. *)
Lemma position_bound m i j :
  constructed m -> 0 <= i < rows_ m -> 0 <= j < cols_ m ->
  (position m i j < length (linear_ m))%nat.
Proof. intros (Hr & Hc & Hlen) Hi Hj. unfold position. nia. Qed.

Lemma position_inj (c i j i' j' : Z) :
  0 <= i -> 0 <= i' -> 0 <= j < c -> 0 <= j' < c ->
  Z.to_nat (i * c + j) = Z.to_nat (i' * c + j') -> i = i' /\ j = j'.
Proof.
  intros Hi Hi' Hj Hj' Heq. apply Z2Nat.inj in Heq; [| nia | nia].
  assert (i = i') by (destruct (Z.lt_trichotomy i i') as [H | [H | H]]; [nia | exact H | nia]).
  subst i'. split; [reflexivity | lia].
Qed.

Lemma element_assign_same m i j val :
  constructed m -> 0 <= i < rows_ m -> 0 <= j < cols_ m ->
  element (assign m i j val) i j = val.
Proof.
  intros Hm Hi Hj. unfold Primer.element, assign, position. cbn [linear_ cols_].
  rewrite list_lookup_insert_eq by now apply position_bound. reflexivity.
Qed.

Lemma element_assign_other m i j i' j' val :
  0 <= i -> 0 <= j < cols_ m -> 0 <= i' -> 0 <= j' < cols_ m ->
  (i', j') <> (i, j) ->
  element (assign m i j val) i' j' = element m i' j'.
Proof.
  intros Hi Hj Hi' Hj' Hne. unfold Primer.element, assign, position. cbn [linear_ cols_].
  rewrite list_lookup_insert_ne; [reflexivity |].
  intros Heq. apply position_inj in Heq as [-> ->]; try assumption. now apply Hne.
Qed.

Lemma assign_constructed m i j val : constructed m -> constructed (assign m i j val).
Proof.
  intros (Hr & Hc & Hlen). unfold constructed, assign. cbn [rows_ cols_ linear_].
  rewrite length_insert. auto.
Qed.

(** SetElement with indices in range. *)
Lemma SetElement_in_range m i j val :
  constructed m -> in_range m i j = true ->
  SetElement m i j val = Ok (assign m i j val)
  /\ GetElement (assign m i j val) i j = Ok val
  /\ forall i' j', (i', j') <> (i, j) ->
                   GetElement (assign m i j val) i' j' = GetElement m i' j'.
Proof.
  intros Hm Hin. pose proof (proj1 (in_range_spec m i j) Hin) as [Hi Hj].
  unfold SetElement, Primer.GetElement. rewrite Hin.
  change (in_range (assign m i j val)) with (in_range m). rewrite Hin.
  split; [reflexivity |]. split; [now rewrite element_assign_same |].
  intros i' j' Hne. destruct (in_range m i' j') eqn:Hin'; [| reflexivity].
  apply in_range_spec in Hin' as [Hi' Hj'].
  rewrite element_assign_other by (assumption || lia). reflexivity.
Qed.

(** The loops that fill a matrix element by element: one row, then all. *)
Lemma fill_row (body : RowMatrix -> Z -> result RowMatrix) (g : Z -> T) (i : Z) (n : nat) :
  forall (j0 : nat) ptr,
    constructed ptr -> 0 <= i < rows_ ptr -> Z.of_nat (j0 + n) <= cols_ ptr ->
    (forall ptr' j, constructed ptr' -> rows_ ptr' = rows_ ptr -> cols_ ptr' = cols_ ptr ->
                    0 <= j < cols_ ptr -> body ptr' j = SetElement ptr' i j (g j)) ->
    exists ptr',
      for_each (seq j0 n) body ptr = Ok ptr'
      /\ constructed ptr' /\ rows_ ptr' = rows_ ptr /\ cols_ ptr' = cols_ ptr
      /\ (forall j, Z.of_nat j0 <= j < Z.of_nat (j0 + n) -> element ptr' i j = g j)
      /\ (forall i' j', 0 <= i' -> 0 <= j' < cols_ ptr ->
                        ~ (i' = i /\ Z.of_nat j0 <= j' < Z.of_nat (j0 + n)) ->
                        element ptr' i' j' = element ptr i' j').
Proof.
  induction n as [| n IH]; intros j0 ptr Hm Hi Hn Hbody; cbn [seq for_each].
  - exists ptr. split; [reflexivity |]. split; [exact Hm |]. split; [reflexivity |].
    split; [reflexivity |]. split; [intros j Hj; lia | intros; reflexivity].
  - rewrite Hbody by (assumption || reflexivity || lia).
    assert (Hin : in_range ptr i (Z.of_nat j0) = true) by (apply in_range_spec; lia).
    destruct (SetElement_in_range ptr i (Z.of_nat j0) (g (Z.of_nat j0)) Hm Hin) as (-> & _).
    cbn [bind].
    destruct (IH (S j0) (assign ptr i (Z.of_nat j0) (g (Z.of_nat j0))))
      as (ptr' & Hrun & Hm' & Hr' & Hc' & Hset & Hkeep).
    + now apply assign_constructed.
    + exact Hi.
    + cbn [cols_ assign]. lia.
    + intros ptr0 j Hm0 Hr0 Hc0 Hj. apply Hbody; assumption.
    + exists ptr'. split; [exact Hrun |]. split; [exact Hm' |].
      split; [exact Hr' |]. split; [exact Hc' |]. split.
      * intros j Hj. destruct (decide (j = Z.of_nat j0)) as [-> | Hne].
        -- rewrite Hkeep by (cbn [cols_ assign]; lia).
           apply element_assign_same; (assumption || lia).
        -- apply Hset. lia.
      * intros i' j' Hi' Hj' Hout. rewrite Hkeep by (cbn [cols_ assign]; (assumption || lia)).
        apply element_assign_other; try (assumption || lia).
        intros [= -> ->]. apply Hout. lia.
Qed.

Lemma fill_rows (body : RowMatrix -> Z -> Z -> result RowMatrix) (g : Z -> Z -> T)
      (c : Z) (n : nat) :
  forall (i0 : nat) ptr,
    constructed ptr -> cols_ ptr = c -> Z.of_nat (i0 + n) <= rows_ ptr ->
    (forall ptr' i j, constructed ptr' -> rows_ ptr' = rows_ ptr -> cols_ ptr' = c ->
                      0 <= i < rows_ ptr -> 0 <= j < c ->
                      body ptr' i j = SetElement ptr' i j (g i j)) ->
    exists ptr',
      for_each (seq i0 n)
        (fun ptr i => for_each (upto c) (fun ptr j => body ptr i j) ptr) ptr
      = Ok ptr'
      /\ constructed ptr' /\ rows_ ptr' = rows_ ptr /\ cols_ ptr' = c
      /\ (forall i j, Z.of_nat i0 <= i < Z.of_nat (i0 + n) -> 0 <= j < c ->
                      element ptr' i j = g i j)
      /\ (forall i j, 0 <= i -> 0 <= j < c ->
                      ~ (Z.of_nat i0 <= i < Z.of_nat (i0 + n)) ->
                      element ptr' i j = element ptr i j).
Proof.
  induction n as [| n IH]; intros i0 ptr Hm Hcols Hn Hbody; cbn [seq for_each].
  - exists ptr. split; [reflexivity |]. split; [exact Hm |]. split; [reflexivity |].
    split; [exact Hcols |]. split; [intros i j Hi; lia | intros; reflexivity].
  - pose proof Hm as (_ & Hc & _). subst c.
    destruct (fill_row (fun ptr j => body ptr (Z.of_nat i0) j) (g (Z.of_nat i0)) (Z.of_nat i0)
                (Z.to_nat (cols_ ptr)) 0 ptr Hm ltac:(lia) ltac:(lia))
      as (ptr1 & Hrun1 & Hm1 & Hr1 & Hc1 & Hset1 & Hkeep1).
    { intros ptr0 j Hm0 Hr0 Hc0 Hj. apply Hbody; (assumption || lia). }
    unfold upto. rewrite Hrun1. cbn [bind].
    destruct (IH (S i0) ptr1 Hm1 Hc1 ltac:(lia))
      as (ptr' & Hrun & Hm' & Hr' & Hc' & Hset & Hkeep).
    { intros ptr0 i j Hm0 Hr0 Hc0 Hi Hj. apply Hbody; (assumption || lia || congruence). }
    exists ptr'. split; [exact Hrun |].
    split; [exact Hm' |]. split; [congruence |]. split; [congruence |]. split.
    + intros i j Hi Hj. destruct (decide (i = Z.of_nat i0)) as [-> | Hne].
      * rewrite Hkeep by lia. apply Hset1. lia.
      * apply Hset; lia.
    + intros i j Hi Hj Hout. rewrite Hkeep by lia. apply Hkeep1; lia.
Qed.

Lemma FillFrom_row (source : list T) (i : Z) (n : nat) :
  forall (j0 : nat) m (index : nat),
    constructed m -> 0 <= i < rows_ m -> Z.of_nat (j0 + n) <= cols_ m ->
    index = Z.to_nat (i * cols_ m + Z.of_nat j0) ->
    exists m',
      for_each (seq j0 n)
        (fun '(m, index) j => Ok (assign m i j (default zero (source !! index)), S index))
        (m, index)
      = Ok (m', (index + n)%nat)
      /\ constructed m' /\ rows_ m' = rows_ m /\ cols_ m' = cols_ m
      /\ (forall j, Z.of_nat j0 <= j < Z.of_nat (j0 + n) ->
                    element m' i j = default zero (source !! Z.to_nat (i * cols_ m + j)))
      /\ (forall i' j', 0 <= i' -> 0 <= j' < cols_ m ->
                        ~ (i' = i /\ Z.of_nat j0 <= j' < Z.of_nat (j0 + n)) ->
                        element m' i' j' = element m i' j').
Proof.
  induction n as [| n IH]; intros j0 m index Hm Hi Hn Hindex; cbn [seq for_each].
  - exists m. rewrite Nat.add_0_r. split; [reflexivity |]. split; [exact Hm |].
    split; [reflexivity |]. split; [reflexivity |].
    split; [intros j Hj; lia | intros; reflexivity].
  - cbn [bind].
    set (m1 := assign m i (Z.of_nat j0) (default zero (source !! index))).
    destruct (IH (S j0) m1 (S index)) as (m' & Hrun & Hm' & Hr' & Hc' & Hset & Hkeep).
    + now apply assign_constructed.
    + exact Hi.
    + cbn [cols_ assign m1]. lia.
    + cbn [cols_ assign m1]. pose proof Hm as (_ & Hc & _). subst index. nia.
    + exists m'. replace (index + S n)%nat with (S index + n)%nat by lia.
      split; [exact Hrun |]. split; [exact Hm' |].
      split; [exact Hr' |]. split; [exact Hc' |]. split.
      * intros j Hj. destruct (decide (j = Z.of_nat j0)) as [-> | Hne].
        -- rewrite Hkeep by (cbn [cols_ assign m1]; lia). subst m1.
           rewrite element_assign_same by (assumption || lia). now subst index.
        -- apply Hset. lia.
      * intros i' j' Hi' Hj' Hout.
        rewrite Hkeep by (cbn [cols_ assign m1]; (assumption || lia)).
        apply element_assign_other; try (assumption || lia).
        intros [= -> ->]. apply Hout. lia.
Qed.

Lemma FillFrom_rows (source : list T) (c : Z) (n : nat) :
  forall (i0 : nat) m (index : nat),
    constructed m -> cols_ m = c -> Z.of_nat (i0 + n) <= rows_ m ->
    index = Z.to_nat (Z.of_nat i0 * c) ->
    exists m' index',
      for_each (seq i0 n)
        (fun st i =>
           for_each (upto c)
             (fun '(m, index) j =>
                Ok (assign m i j (default zero (source !! index)), S index))
             st)
        (m, index)
      = Ok (m', index')
      /\ constructed m' /\ rows_ m' = rows_ m /\ cols_ m' = c
      /\ (forall i j, Z.of_nat i0 <= i < Z.of_nat (i0 + n) -> 0 <= j < c ->
                      element m' i j = default zero (source !! Z.to_nat (i * c + j)))
      /\ (forall i j, 0 <= i -> 0 <= j < c ->
                      ~ (Z.of_nat i0 <= i < Z.of_nat (i0 + n)) ->
                      element m' i j = element m i j).
Proof.
  induction n as [| n IH]; intros i0 m index Hm Hcols Hn Hindex; cbn [seq for_each].
  - exists m, index. split; [reflexivity |]. split; [exact Hm |]. split; [reflexivity |].
    split; [exact Hcols |]. split; [intros i j Hi; lia | intros; reflexivity].
  - pose proof Hm as (_ & Hc & _). subst c.
    destruct (FillFrom_row source (Z.of_nat i0) (Z.to_nat (cols_ m)) 0 m index Hm
                ltac:(lia) ltac:(lia) ltac:(subst index; f_equal; lia))
      as (m1 & Hrun1 & Hm1 & Hr1 & Hc1 & Hset1 & Hkeep1).
    unfold upto. rewrite Hrun1. cbn [bind].
    destruct (IH (S i0) m1 (index + Z.to_nat (cols_ m))%nat Hm1 Hc1 ltac:(lia)
                ltac:(subst index; nia))
      as (m' & index' & Hrun & Hm' & Hr' & Hc' & Hset & Hkeep).
    exists m', index'. split; [exact Hrun |].
    split; [exact Hm' |]. split; [congruence |]. split; [congruence |]. split.
    + intros i j Hi Hj. destruct (decide (i = Z.of_nat i0)) as [-> | Hne].
      * rewrite Hkeep by lia. apply Hset1. lia.
      * apply Hset; lia.
    + intros i j Hi Hj Hout. rewrite Hkeep by lia. apply Hkeep1; lia.
Qed.


Lemma new_RowMatrix_constructed (rows cols : Z) :
  0 <= rows -> 0 <= cols ->
  exists ptr, new_RowMatrix zero rows cols = Ok ptr
              /\ constructed ptr /\ rows_ ptr = rows /\ cols_ ptr = cols.
Proof.
  intros Hr Hc. unfold new_RowMatrix.
  destruct (Z.ltb_spec (rows * cols) 0) as [Hneg | _]; [nia |].
  destruct (Z.ltb_spec rows 0) as [Hneg | _]; [lia |]. cbn [orb].
  eexists. split; [reflexivity |]. unfold constructed. cbn [rows_ cols_ linear_].
  rewrite length_replicate. repeat split; (assumption || nia).
Qed.

Lemma GetElement_in_range m i j :
  in_range m i j = true -> GetElement m i j = Ok (element m i j).
Proof. intros Hin. unfold Primer.GetElement. now rewrite Hin. Qed.

Lemma filled_elements (ptr ptr' : RowMatrix) (g : Z -> Z -> T) i j :
  rows_ ptr' = rows_ ptr -> cols_ ptr' = cols_ ptr ->
  (forall i j, 0 <= i < rows_ ptr -> 0 <= j < cols_ ptr -> element ptr' i j = g i j) ->
  in_range ptr i j = true -> GetElement ptr' i j = Ok (g i j).
Proof.
  intros Hr Hc Hset Hin. rewrite GetElement_in_range.
  - apply in_range_spec in Hin as [Hi Hj]. now rewrite Hset.
  - unfold in_range, GetRowCount, GetColumnCount in *. now rewrite Hr, Hc.
Qed.

Lemma Add_elements (matrixA matrixB : RowMatrix) :
  constructed matrixA -> constructed matrixB ->
  rows_ matrixA = rows_ matrixB -> cols_ matrixA = cols_ matrixB ->
  exists sum,
    Add matrixA matrixB = Ok (Some sum)
    /\ constructed sum /\ rows_ sum = rows_ matrixA /\ cols_ sum = cols_ matrixA
    /\ forall i j, in_range matrixA i j = true ->
                   GetElement sum i j = Ok (add (element matrixA i j) (element matrixB i j)).
Proof.
  intros HA HB Hrows Hcols. unfold Primer.Add, GetRowCount, GetColumnCount.
  rewrite Hrows, Hcols, !Z.eqb_refl. cbn [negb orb].
  pose proof HB as (Hr & Hc & _).
  destruct (new_RowMatrix_constructed (rows_ matrixB) (cols_ matrixB) Hr Hc)
    as (ptr & -> & Hptr & Hpr & Hpc).
  cbn [bind].
  destruct (fill_rows
              (fun ptr i j =>
                 bind (GetElement matrixA i j) (fun a =>
                 bind (GetElement matrixB i j) (fun b => SetElement ptr i j (add a b))))
              (fun i j => add (element matrixA i j) (element matrixB i j))
              (cols_ matrixB) (Z.to_nat (rows_ matrixB)) 0 ptr Hptr Hpc ltac:(lia))
    as (sum & Hrun & Hsum & Hsr & Hsc & Hset & _).
  { intros ptr' i j _ _ _ Hi Hj. rewrite Hpr in Hi.
    rewrite !GetElement_in_range by (apply in_range_spec; lia). reflexivity. }
  cbv beta in Hrun. unfold upto in *. rewrite Hrun. cbn [bind]. exists sum.
  split; [reflexivity |]. split; [exact Hsum |]. split; [congruence |].
  split; [congruence |]. intros i j Hin.
  apply (filled_elements matrixA sum (fun i j => add (element matrixA i j) (element matrixB i j)));
    [congruence | congruence | | exact Hin].
  intros i' j' Hi' Hj'. apply Hset; lia.
Qed.

(** X29: Add returns nullptr exactly when the dimensions differ; otherwise it
    returns, without an exception, a matrix of the same dimensions whose
    element (i, j) is the sum of the two elements (i, j). *)
Theorem Add_returns_the_entrywise_sum (matrixA matrixB : RowMatrix) :
  constructed matrixA -> constructed matrixB ->
  (rows_ matrixA <> rows_ matrixB \/ cols_ matrixA <> cols_ matrixB ->
   Add matrixA matrixB = Ok None)
  /\ (rows_ matrixA = rows_ matrixB -> cols_ matrixA = cols_ matrixB ->
      exists sum,
        Add matrixA matrixB = Ok (Some sum)
        /\ constructed sum /\ rows_ sum = rows_ matrixA /\ cols_ sum = cols_ matrixA
        /\ forall i j a b,
             GetElement matrixA i j = Ok a -> GetElement matrixB i j = Ok b ->
             GetElement sum i j = Ok (add a b)).
Proof.
  intros HA HB. split.
  - intros Hne. unfold Primer.Add, GetRowCount, GetColumnCount.
    destruct (Z.eqb_spec (rows_ matrixA) (rows_ matrixB)) as [Hr | _]; [| reflexivity].
    destruct (Z.eqb_spec (cols_ matrixA) (cols_ matrixB)) as [Hc | _]; [| reflexivity].
    destruct Hne; contradiction.
  - intros Hrows Hcols.
    destruct (Add_elements matrixA matrixB HA HB Hrows Hcols)
      as (sum & Hadd & Hsum & Hsr & Hsc & Hget).
    exists sum. split; [exact Hadd |]. split; [exact Hsum |]. split; [exact Hsr |].
    split; [exact Hsc |]. intros i j a b Ha Hb. unfold Primer.GetElement in Ha, Hb.
    destruct (in_range matrixA i j) eqn:Hin; [| discriminate].
    destruct (in_range matrixB i j); [| discriminate].
    injection Ha as <-. injection Hb as <-. now apply Hget.
Qed.

Lemma dot_loop (matrixA matrixB : RowMatrix) i j (l : list nat) :
  (forall n : nat, In n l -> in_range matrixA i (Z.of_nat n) = true
                             /\ in_range matrixB (Z.of_nat n) j = true) ->
  forall val,
    for_each l
      (fun val k =>
         bind (GetElement matrixA i k) (fun a =>
         bind (GetElement matrixB k j) (fun b => Ok (add val (mul a b)))))
      val
    = Ok (fold_left (fun val (n : nat) => add val (mul (element matrixA i (Z.of_nat n))
                                                       (element matrixB (Z.of_nat n) j)))
                    l val).
Proof.
  induction l as [| n l IH]; intros Hin val; cbn [for_each fold_left]; [reflexivity |].
  destruct (Hin n (or_introl eq_refl)) as [HA HB].
  rewrite !GetElement_in_range by assumption. cbn [bind].
  apply IH. intros n' Hn'. apply Hin. now right.
Qed.

Lemma Multiply_elements (matrixA matrixB : RowMatrix) :
  constructed matrixA -> constructed matrixB -> cols_ matrixA = rows_ matrixB ->
  exists product,
    Multiply matrixA matrixB = Ok (Some product)
    /\ constructed product /\ rows_ product = rows_ matrixA
    /\ cols_ product = cols_ matrixB
    /\ forall i j, 0 <= i < rows_ matrixA -> 0 <= j < cols_ matrixB ->
                   GetElement product i j = Ok (dot matrixA matrixB i j).
Proof.
  intros HA HB Hinner. unfold Primer.Multiply, GetRowCount, GetColumnCount.
  rewrite Hinner, Z.eqb_refl. cbn [negb].
  pose proof HA as (Hr & _ & _). pose proof HB as (_ & Hc & _).
  destruct (new_RowMatrix_constructed (rows_ matrixA) (cols_ matrixB) Hr Hc)
    as (ptr & -> & Hptr & Hpr & Hpc).
  cbn [bind].
  destruct (fill_rows
              (fun ptr i j =>
                 bind (for_each (upto (rows_ matrixB))
                         (fun val k =>
                            bind (GetElement matrixA i k) (fun a =>
                            bind (GetElement matrixB k j) (fun b => Ok (add val (mul a b)))))
                         zero)
                   (fun val => SetElement ptr i j val))
              (dot matrixA matrixB)
              (cols_ matrixB) (Z.to_nat (rows_ matrixA)) 0 ptr Hptr Hpc ltac:(lia))
    as (product & Hrun & Hprod & Hsr & Hsc & Hset & _).
  { intros ptr' i j _ _ _ Hi Hj. rewrite Hpr in Hi. rewrite dot_loop.
    - cbn [bind]. unfold Primer.dot. now rewrite Hinner.
    - intros n Hn. apply in_seq in Hn. split; apply in_range_spec; lia. }
  cbv beta in Hrun. unfold upto in *. rewrite Hrun. cbn [bind]. exists product.
  split; [reflexivity |]. split; [exact Hprod |]. split; [congruence |].
  split; [congruence |]. intros i j Hi Hj.
  apply (filled_elements ptr product (dot matrixA matrixB));
    [congruence | congruence | | apply in_range_spec; lia].
  intros i' j' Hi' Hj'. apply Hset; lia.
Qed.


End MatrixFacts.

Section MatrixRuns.
Import Primer.

(** Two by two matrices of integers. *)
Local Abbreviation matrix_1234 := (mkMatrix 2 2 [1; 2; 3; 4]).
Local Abbreviation matrix_5678 := (mkMatrix 2 2 [5; 6; 7; 8]).
Local Abbreviation int_GetElement := (GetElement 0).

Lemma matrix_1234_constructed : constructed matrix_1234.
Proof. unfold constructed. cbn. lia. Qed.

Lemma matrix_5678_constructed : constructed matrix_5678.
Proof. unfold constructed. cbn. lia. Qed.


(** X29 (witness): the sum of 1 2 / 3 4 and 5 6 / 7 8. *)
Lemma Add_returns_the_entrywise_sum_witness :
  constructed matrix_1234 /\ constructed matrix_5678
  /\ rows_ matrix_1234 = rows_ matrix_5678 /\ cols_ matrix_1234 = cols_ matrix_5678
  /\ exists sum,
       Add 0 Z.add matrix_1234 matrix_5678 = Ok (Some sum)
       /\ constructed sum /\ rows_ sum = rows_ matrix_1234 /\ cols_ sum = cols_ matrix_1234
       /\ forall i j a b,
            int_GetElement matrix_1234 i j = Ok a -> int_GetElement matrix_5678 i j = Ok b ->
            int_GetElement sum i j = Ok (a + b).
Proof.
  split; [exact matrix_1234_constructed |]. split; [exact matrix_5678_constructed |].
  split; [reflexivity |]. split; [reflexivity |].
  exact (proj2 (Add_returns_the_entrywise_sum 0 Z.add matrix_1234 matrix_5678
                  matrix_1234_constructed matrix_5678_constructed) eq_refl eq_refl).
Defined.


End MatrixRuns.
